(** * The Bag-of-Cells codec of tonweb-deno: BitString, Slice, Cell

    A shallow embedding of [boc/BitString.ts], [boc/Slice.ts] and
    [boc/Cell.ts].  JavaScript numbers that hold integers are [Z] (array
    positions of the topological walk are [nat]), a [Uint8Array] is a
    [list Z] of values in [0, 256), a thrown exception is the [Throw]
    result, and every loop that the source bounds by something other than a
    counter is driven by fuel, whose exhaustion is the separate [Timeout]
    result. *)

From Stdlib Require Import ZArith Lia List String Ascii.
From stdpp Require Import base option list gmap strings pretty.

Local Open Scope Z_scope.
#[local] Set Warnings "-register-all".

(** ** Results of a JavaScript call *)

Inductive result (A : Type) : Type :=
| Done (a : A)
| Throw (msg : string)
| Timeout.
Arguments Done {A} a.
Arguments Throw {A} msg.
Arguments Timeout {A}.

Global Instance result_ret : MRet result := λ A a, Done a.
Global Instance result_bind : MBind result := λ A B f m,
  match m with
  | Done a => f a
  | Throw msg => Throw msg
  | Timeout => Timeout
  end.

(** [for (const x of l) s = f(s, x)], stopping at the first exception. *)
Fixpoint forEachM {A S : Type} (f : S → A → result S) (l : list A) (s : S)
  : result S :=
  match l with
  | [] => Done s
  | x :: l' => s' ← f s x; forEachM f l' s'
  end.

Definition isDone {A} (r : result A) : bool :=
  match r with Done _ => true | _ => false end.

Definition isThrow {A} (r : result A) : bool :=
  match r with Throw _ => true | _ => false end.

(** ** Numbers and typed arrays *)

(** [Math.ceil(x / d)] and [Math.floor(x / d)] for integers [x] and [d > 0]. *)
Definition ceilDiv (x d : Z) : Z := - ((- x) / d).
Definition floorDiv (x d : Z) : Z := x / d.

(** Storing into a [Uint8Array] keeps the low eight bits. *)
Definition toUint8 (x : Z) : Z := x mod 256.

(** [arr[i]] inside a bit operation: [undefined] counts as [0]. *)
Definition readByte (arr : list Z) (i : Z) : Z :=
  if i <? 0 then 0 else default 0 (arr !! Z.to_nat i).

(** [arr[i] = f(arr[i])] on a typed array: a write out of range is ignored. *)
Definition updateByte (arr : list Z) (i : Z) (f : Z → Z) : list Z :=
  if i <? 0 then arr else alter (λ v, toUint8 (f v)) (Z.to_nat i) arr.

(** [arr.slice(start, end)]. *)
Definition relativeIndex (len i : Z) : Z :=
  if i <? 0 then Z.max (len + i) 0 else Z.min i len.

Definition slice {A} (arr : list A) (start fin : Z) : list A :=
  let len := Z.of_nat (Datatypes.length arr) in
  let k := relativeIndex len start in
  let f := relativeIndex len fin in
  take (Z.to_nat (f - k)) (drop (Z.to_nat k) arr).

(** ** The arbitrary-precision integers of bn.js

    Modelled from the spec: the arbitrary-precision integer type, an
    external collaborator of the codec (the library bn.js), of which the
    codec needs the base-2 string forms.  [BN] values are [Z]; a string of
    digits is a [list ascii]. *)
Module BN.

Fixpoint posBits (p : positive) : list ascii :=
  match p with
  | xH => ["1"%char]
  | xO q => posBits q ++ ["0"%char]
  | xI q => posBits q ++ ["1"%char]
  end.

Definition magnitudeBits (n : Z) : list ascii :=
  match n with
  | Z0 => ["0"%char]
  | Zpos p | Zneg p => posBits p
  end.

(** Modelled from the spec: [n.toString(2, padding)], the base-2 form of
    [n]; zeros are put in front until the number of digits is a multiple of
    [padding], then the sign. *)
Definition toString2 (n : Z) (padding : Z) : list ascii :=
  let p := if padding =? 0 then 1 else Z.abs padding in
  let out := magnitudeBits n in
  let len := Z.of_nat (Datatypes.length out) in
  let out := replicate (Z.to_nat ((p - len mod p) mod p)) "0"%char ++ out in
  if n <? 0 then "-"%char :: out else out.

(** Modelled from the spec: [new BN(s, 2)], the number a string of binary
    digits stands for. *)
Definition digitValue (c : ascii) : Z :=
  if Ascii.eqb c "1" then 1 else 0.

Definition ofString2 (s : list ascii) : Z :=
  fold_left (λ acc c, 2 * acc + digitValue c) s 0.


(** Modelled from the spec: [n.toString(16)], the hexadecimal form of [n],
    lower-case digits with the sign in front; the fuel of [hexDigits] is the
    number of digits. *)
Definition hexDigit (n : Z) : ascii :=
  default "0"%char (list_ascii_of_string "0123456789abcdef" !! Z.to_nat n).

Fixpoint hexDigits (fuel : nat) (n : Z) (acc : list ascii) : list ascii :=
  match fuel with
  | O => acc
  | S fuel' =>
      let acc := hexDigit (n mod 16) :: acc in
      if n / 16 =? 0 then acc else hexDigits fuel' (n / 16) acc
  end.

Definition toString16 (n : Z) : list ascii :=
  let m := Z.abs n in
  let out := hexDigits (S (Z.to_nat (Z.log2 m))) m [] in
  if n <? 0 then "-"%char :: out else out.

End BN.

(** ** Utils.ts *)
Module Utils.

Definition hexChar (n : Z) : ascii :=
  default "0"%char (list_ascii_of_string "0123456789abcdef" !! Z.to_nat n).

(** [to_hex_array[b]]: two lower-case digits. *)
Definition byteHex (b : Z) : string :=
  String (hexChar (b / 16)) (String (hexChar (b mod 16)) EmptyString).

Fixpoint bytesToHex (buffer : list Z) : string :=
  match buffer with
  | [] => EmptyString
  | b :: rest => (byteHex b ++ bytesToHex rest)%string
  end.

Definition concatBytes (a b : list Z) : list Z := a ++ b.

(** [readNBytesUIntFromArray].  Numbers are integers here: the result is
    the one of the source as long as it stays below [2^53], where the
    arithmetic of the source is exact, and the [n] bytes are there, which
    the callers check first (a missing byte is read as [0] here, the source
    gives [NaN]). *)
Fixpoint readNBytesUIntFromArray_from (n : nat) (ui8array : list Z) (res : Z) : Z :=
  match n with
  | O => res
  | S n' =>
      readNBytesUIntFromArray_from n' (drop 1 ui8array)
        (res * 256 + default 0 (head ui8array))
  end.

Definition readNBytesUIntFromArray (n : Z) (ui8array : list Z) : Z :=
  readNBytesUIntFromArray_from (Z.to_nat n) ui8array 0.


(** [String(b)] for a byte: its decimal digits. *)
Definition decimalDigit (n : Z) : ascii :=
  default "0"%char (list_ascii_of_string "0123456789" !! Z.to_nat n).

Definition byteToString (b : Z) : list ascii :=
  if b <? 10 then [decimalDigit b]
  else if b <? 100 then [decimalDigit (b / 10); decimalDigit (b mod 10)]
  else [decimalDigit (b / 100); decimalDigit (b / 10 mod 10); decimalDigit (b mod 10)].

(** [a.toString()] for a [Uint8Array]: the elements joined by commas. *)
Fixpoint toString (a : list Z) : list ascii :=
  match a with
  | [] => []
  | [b] => byteToString b
  | b :: rest => byteToString b ++ ","%char :: toString rest
  end.

(** [compareBytes(a, b)]: [a.toString() === b.toString()]. *)
Definition compareBytes (a b : list Z) : bool :=
  bool_decide (toString a = toString b).

End Utils.

(** [s.toUpperCase()] on ASCII text, and [s.slice(0, -1)]. *)
Definition upperChar (c : ascii) : ascii :=
  let n := nat_of_ascii c in
  if ((97 <=? n) && (n <=? 122))%nat then ascii_of_nat (n - 32) else c.

Fixpoint toUpperCase (s : string) : string :=
  match s with
  | EmptyString => EmptyString
  | String c s' => String (upperChar c) (toUpperCase s')
  end.

Fixpoint dropLastChar (s : string) : string :=
  match s with
  | EmptyString => EmptyString
  | String c EmptyString => EmptyString
  | String c s' => String c (dropLastChar s')
  end.

(** ** BitString.ts *)
Module BitString.

Record t : Type := mk { array : list Z; cursor : Z; length : Z }.

Definition withArray (b : t) (a : list Z) : t := mk a (cursor b) (length b).
Definition withCursor (b : t) (c : Z) : t := mk (array b) c (length b).

(** [new BitString(length)] *)
Definition new (len : Z) : t :=
  mk (replicate (Z.to_nat (ceilDiv len 8)) 0) 0 len.

Definition getFreeBits (b : t) : Z := length b - cursor b.
Definition getUsedBits (b : t) : Z := cursor b.
Definition getUsedBytes (b : t) : Z := ceilDiv (cursor b) 8.

(** [(n / 8) | 0] and [1 << (7 - (n % 8))] *)
Definition byteIndex (n : Z) : Z := Z.quot n 8.
Definition bitMask (n : Z) : Z := Z.shiftl 1 (7 - Z.rem n 8).

Definition get (b : t) (n : Z) : bool :=
  0 <? Z.land (readByte (array b) (byteIndex n)) (bitMask n).

Definition checkRange (b : t) (n : Z) : result unit :=
  if length b <? n then Throw "BitString overflow" else Done tt.

Definition on (b : t) (n : Z) : result t :=
  _ ← checkRange b n;
  Done (withArray b (updateByte (array b) (byteIndex n) (λ v, Z.lor v (bitMask n)))).

Definition off (b : t) (n : Z) : result t :=
  _ ← checkRange b n;
  Done (withArray b
          (updateByte (array b) (byteIndex n) (λ v, Z.land v (Z.lnot (bitMask n))))).


(** [writeBit(b)]; a numeric argument [x] is passed as [0 <? x]. *)
Definition writeBit (b : t) (v : bool) : result t :=
  b' ← (if v then on b (cursor b) else off b (cursor b));
  Done (withCursor b' (cursor b' + 1)).

Definition writeBitArray (b : t) (ba : list bool) : result t :=
  forEachM writeBit ba b.

(** In the text of the exception, [${number}] prints the [BN] in decimal
    and [${bitLength}] the width. *)
Definition writeUint (b : t) (number bitLength : Z) : result t :=
  if bitLength =? 0 then Throw "writeUint: no bitLength"
  else if (bitLength =? 0)
          || (bitLength <? Z.of_nat (Datatypes.length (BN.toString2 number 1)))
  then
    if number =? 0 then Done b
    else Throw ("bitLength is too small for number, got number="
                +:+ pretty number +:+ ",bitLength=" +:+ pretty bitLength)
  else
    let s := BN.toString2 number bitLength in
    forEachM (λ b i, writeBit b (bool_decide (s !! i = Some "1"%char)))
      (seq 0 (Z.to_nat bitLength)) b.

Definition writeInt (b : t) (number bitLength : Z) : result t :=
  if bitLength =? 0 then Throw "writeInt: no bitLength"
  else if bitLength =? 1 then
    if number =? -1 then writeBit b true
    else if number =? 0 then writeBit b false
    else Throw "Bitlength is too small for number"
  else if number <? 0 then
    b ← writeBit b true;
    writeUint b (2 ^ (bitLength - 1) + number) (bitLength - 1)
  else
    b ← writeBit b false;
    writeUint b number (bitLength - 1).

Definition writeUint8 (b : t) (ui8 : Z) : result t := writeUint b ui8 8.

Definition writeBytes (b : t) (ui8 : list Z) : result t :=
  forEachM writeUint8 ui8 b.

Definition clone (b : t) : t := mk (array b) (cursor b) (length b).

(** The [while (tu > 0)] loop of [getTopUppedArray], by its counter. *)
Fixpoint writeZeros (tu : nat) (ret : t) : result t :=
  match tu with
  | O => Done ret
  | S tu' => ret ← writeBit ret false; writeZeros tu' ret
  end.

Definition getTopUppedArray (b : t) : result (list Z) :=
  let ret := clone b in
  let tu := ceilDiv (cursor ret) 8 * 8 - cursor ret in
  ret ← (if 0 <? tu
         then ret ← writeBit ret true; writeZeros (Z.to_nat (tu - 1)) ret
         else Done ret);
  Done (slice (array ret) 0 (ceilDiv (cursor ret) 8)).

(** [while (temp.cursor % 4 !== 0) temp.writeBit(0)] *)
Fixpoint padToNibble (fuel : nat) (temp : t) : result t :=
  match fuel with
  | O => Timeout
  | S fuel' =>
      if Z.rem (cursor temp) 4 =? 0 then Done temp
      else temp ← writeBit temp false; padToNibble fuel' temp
  end.

Fixpoint toHex (fuel : nat) (b : t) : result string :=
  match fuel with
  | O => Timeout
  | S fuel' =>
      if Z.rem (cursor b) 4 =? 0 then
        let s := toUpperCase
                   (Utils.bytesToHex (slice (array b) 0 (ceilDiv (cursor b) 8))) in
        if Z.rem (cursor b) 8 =? 0 then Done s else Done (dropLastChar s)
      else
        temp ← writeBit (clone b) true;
        temp ← padToNibble fuel' temp;
        hex ← toHex fuel' temp;
        Done (toUpperCase hex ++ "_")%string
  end.

(** The [for (let c = 0; c < 7; c++)] scan of [setTopUppedArray]; running
    out of the seven positions is the [!foundEndBit] exit. *)
Fixpoint findEndBit (c : nat) (b : t) : result t :=
  match c with
  | O => Throw "Incorrect TopUppedArray"
  | S c' =>
      let b := withCursor b (cursor b - 1) in
      if get b (cursor b) then off b (cursor b) else findEndBit c' b
  end.

Definition setTopUppedArray (this : t) (arr : list Z) (fullfilledBytes : bool)
  : result t :=
  let len := Z.of_nat (Datatypes.length arr) * 8 in
  let this := mk arr len len in
  if fullfilledBytes || (len =? 0) then Done this
  else findEndBit 7 this.






End BitString.

(** ** Slice.ts *)
Module Slice.

Inductive t : Type :=
  mk { array : list Z; length : Z; readCursor : Z; refs : list t; refCursor : Z }.

Definition withReadCursor (s : t) (c : Z) : t :=
  mk (array s) (length s) c (refs s) (refCursor s).
Definition withRefCursor (s : t) (c : Z) : t :=
  mk (array s) (length s) (readCursor s) (refs s) c.

Definition getFreeBits (s : t) : Z := length s - readCursor s.

Definition checkRange (s : t) (n : Z) : result unit :=
  if length s <? n then Throw "BitString overflow" else Done tt.

Definition get (s : t) (n : Z) : result bool :=
  _ ← checkRange s n;
  Done (0 <? Z.land (readByte (array s) (BitString.byteIndex n)) (BitString.bitMask n)).

(** Every load returns the value read and the slice with its cursor moved. *)
Definition loadBit (s : t) : result (bool * t) :=
  r ← get s (readCursor s);
  Done (r, withReadCursor s (readCursor s + 1)).



(** The loop of [loadUint]: [s += this.loadBit() ? "1" : "0"]. *)
Fixpoint loadDigits (n : nat) (str : list ascii) (s : t)
  : result (list ascii * t) :=
  match n with
  | O => Done (str, s)
  | S n' =>
      '(bit, s) ← loadBit s;
      loadDigits n' (str ++ [if (bit : bool) then "1"%char else "0"%char]) s
  end.

Definition loadUint (s : t) (bitLength : Z) : result (Z * t) :=
  if bitLength <? 1 then Throw "Incorrect bitLength"
  else
    '(str, s) ← loadDigits (Z.to_nat bitLength) [] s;
    Done (BN.ofString2 str, s).

Definition loadInt (s : t) (bitLength : Z) : result (Z * t) :=
  if bitLength <? 1 then Throw "Incorrect bitLength"
  else
    '(sign, s) ← loadBit s;
    if bitLength =? 1 then Done (if (sign : bool) then -1 else 0, s)
    else
      '(number, s) ← loadUint s (bitLength - 1);
      if sign then Done (number - 2 ^ (bitLength - 1), s)
      else Done (number, s).

(** [refs.at(i)] *)
Definition at_ {A} (l : list A) (i : Z) : option A :=
  let k := if i <? 0 then Z.of_nat (Datatypes.length l) + i else i in
  if k <? 0 then None else l !! Z.to_nat k.

(** [loadRef]: [None] is the [undefined] the source returns. *)
Definition loadRef (s : t) : result (option t * t) :=
  if 4 <=? refCursor s then Throw "refs overflow"
  else
    let result := at_ (refs s) (refCursor s) in
    Done (result, withRefCursor s (refCursor s + 1)).




End Slice.

(** ** Cell.ts: the cell graph handed to the serializer

    The serializer only reads the graph and tells cells apart by their
    hash, never by object identity, so a finite DAG of cells is given as
    the tree it unfolds to; a shared child occurs once under each parent.
    An entry of [refs] is a cell or a number. *)
Inductive Ref (C : Type) : Type :=
| RefCell (c : C)
| RefNum (n : Z).
Arguments RefCell {C} c.
Arguments RefNum {C} n.

Module Cell.

Inductive t : Type :=
  mk { bits : BitString.t; refs : list (Ref t); isExotic : bool }.

(** [new Cell()] *)
Definition new : t := mk (BitString.new 1023) [] false.

Fixpoint getMaxLevel (c : t) : Z :=
  match c with
  | mk _ rs _ =>
      (fix loop (rs : list (Ref t)) (maxLevel : Z) : Z :=
         match rs with
         | [] => maxLevel
         | RefCell cell :: rs' =>
             loop rs' (if maxLevel <? getMaxLevel cell
                       then getMaxLevel cell else maxLevel)
         | RefNum _ :: rs' => loop rs' maxLevel
         end) rs 0
  end.

Definition isExplicitlyStoredHashes (c : t) : Z := 0.

Fixpoint getMaxDepth (c : t) : Z :=
  match c with
  | mk _ rs _ =>
      match rs with
      | [] => 0
      | _ =>
          (fix loop (rs : list (Ref t)) (maxDepth : Z) : Z :=
             match rs with
             | [] => maxDepth
             | RefCell child :: rs' =>
                 loop rs' (if maxDepth <? getMaxDepth child
                           then getMaxDepth child else maxDepth)
             | RefNum _ :: rs' => loop rs' maxDepth
             end) rs 0 + 1
      end
  end.

Definition getMaxDepthAsArray (c : t) : list Z :=
  let maxDepth := getMaxDepth c in
  [toUint8 (floorDiv maxDepth 256); toUint8 (Z.rem maxDepth 256)].

Definition getRefsDescriptor (c : t) : list Z :=
  [toUint8 (Z.of_nat (Datatypes.length (refs c))
            + (if isExotic c then 1 else 0) * 8
            + getMaxLevel c * 32)].

Definition getBitsDescriptor (c : t) : list Z :=
  [toUint8 (ceilDiv (BitString.cursor (bits c)) 8
            + floorDiv (BitString.cursor (bits c)) 8)].

Definition getDataWithDescriptors (c : t) : result (list Z) :=
  let d1 := getRefsDescriptor c in
  let d2 := getBitsDescriptor c in
  tuBits ← BitString.getTopUppedArray (bits c);
  Done (Utils.concatBytes (Utils.concatBytes d1 d2) tuBits).

(** The cells among the references, in order. *)
Definition childCells (c : t) : list t :=
  omap (λ r, match r with RefCell s => Some s | RefNum _ => None end) (refs c).



(** [beginParse()]: the references that are numbers are filtered out. *)
Fixpoint beginParse (c : t) : Slice.t :=
  match c with
  | mk bits refs _ =>
      Slice.mk (BitString.array bits) (BitString.length bits) 0
        ((fix parse (rs : list (Ref t)) : list Slice.t :=
            match rs with
            | [] => []
            | RefCell ref :: rs' => beginParse ref :: parse rs'
            | RefNum _ :: rs' => parse rs'
            end) refs) 0
  end.

End Cell.

(** ** Cell.ts: the decoder

    The decoder allocates one cell object per entry of [cells_array] and
    then stores references to these objects in each other's [refs].  The
    objects are kept in a store, the list [cells_array] itself, and a
    reference to an object is the position of the object in that list:
    [Pointer a] is the object [cells_array[a]], [Transient r] a number not
    yet resolved, [Undefined] what [cells_array[r]] gives out of range. *)
Inductive HeapRef : Type :=
| Transient (r : Z)
| Pointer (addr : nat)
| Undefined.

Record HeapCell : Type :=
  mkHeapCell { hbits : BitString.t; hrefs : list HeapRef; hisExotic : bool }.

(** The fields of the value of [parseBocHeader] that [deserializeBoc] reads. *)
Record BocHeader : Type :=
  mkBocHeader { cells_num : Z; size_bytes : Z; cells_data : list Z; root_list : list Z }.

Module Boc.

(** [Math.ceil(d2 / 2)] and [!(d2 % 2)] of [deserializeCellData]. *)
Definition dataBytesize (d2 : Z) : Z := ceilDiv d2 2.
Definition fullfilledBytes (d2 : Z) : bool := Z.rem d2 2 =? 0.

Definition sliceFrom {A} (arr : list A) (start : Z) : list A :=
  slice arr start (Z.of_nat (length arr)).

(** The loop [for (let r = 0; r < refNum; r++)]. *)
Fixpoint readRefs (refNum : nat) (referenceIndexSize : Z)
    (refs : list HeapRef) (cellData : list Z) : list HeapRef * list Z :=
  match refNum with
  | O => (refs, cellData)
  | S n =>
      readRefs n referenceIndexSize
        (refs ++ [Transient (Utils.readNBytesUIntFromArray referenceIndexSize cellData)])
        (sliceFrom cellData referenceIndexSize)
  end.

Definition deserializeCellData (cellData : list Z) (referenceIndexSize : Z)
  : result (HeapCell * list Z) :=
  if Z.of_nat (length cellData) <? 2
  then Throw "Not enough bytes to encode cell descriptors"
  else
    let d1 := readByte cellData 0 in
    let d2 := readByte cellData 1 in
    let cellData := sliceFrom cellData 2 in
    let refNum := Z.rem d1 8 in
    if Z.of_nat (length cellData)
       <? dataBytesize d2 + referenceIndexSize * refNum
    then Throw "Not enough bytes to encode cell data"
    else
      bits ← BitString.setTopUppedArray (BitString.new 1023)
               (slice cellData 0 (dataBytesize d2)) (fullfilledBytes d2);
      let cellData := sliceFrom cellData (dataBytesize d2) in
      let '(refs, residue) :=
        readRefs (Z.to_nat refNum) referenceIndexSize [] cellData in
      Done (mkHeapCell bits refs (negb (Z.land d1 8 =? 0)), residue).

(** The loop [for (let ci = 0; ci < header.cells_num; ci++)]. *)
Fixpoint readCells (n : nat) (size_bytes : Z) (cells_data : list Z)
    (cells_array : list HeapCell) : result (list HeapCell) :=
  match n with
  | O => Done cells_array
  | S n' =>
      '(cell, residue) ← deserializeCellData cells_data size_bytes;
      readCells n' size_bytes residue (cells_array ++ [cell])
  end.

(** [cells_array[r]] as a reference. *)
Definition cellAt (cells_array : list HeapCell) (r : Z) : HeapRef :=
  if (0 <=? r) && (r <? Z.of_nat (length cells_array))
  then Pointer (Z.to_nat r) else Undefined.

(** One turn of the inner loop of the resolution: entry [ri] of the
    references of the cell at [ci]. *)
Definition resolveRef (ci : nat) (cells_array : list HeapCell) (ri : nat)
  : result (list HeapCell) :=
  match cells_array !! ci with
  | None => Throw "TypeError: cell is undefined"
  | Some cell =>
      match hrefs cell !! ri with
      | Some (Transient r) =>
          if r <? Z.of_nat ci then Throw "Topological order is broken"
          else
            Done (<[ci := mkHeapCell (hbits cell)
                           (<[ri := cellAt cells_array r]> (hrefs cell))
                           (hisExotic cell)]> cells_array)
      | _ => Done cells_array
      end
  end.

Definition resolveCell (cells_array : list HeapCell) (ci : nat)
  : result (list HeapCell) :=
  match cells_array !! ci with
  | None => Throw "TypeError: cell is undefined"
  | Some cell =>
      forEachM (resolveRef ci) (seq 0 (length (hrefs cell))) cells_array
  end.

(** [deserializeBoc] after [parseBocHeader]: the store and the roots. *)
Definition deserializeBoc (header : BocHeader)
  : result (list HeapCell * list HeapRef) :=
  cells_array ← readCells (Z.to_nat (cells_num header)) (size_bytes header)
                  (cells_data header) [];
  cells_array ← forEachM resolveCell
                  (rev (seq 0 (Z.to_nat (cells_num header)))) cells_array;
  Done (cells_array, map (cellAt cells_array) (root_list header)).

End Boc.

(** ** Utils.ts: hexadecimal text and CRC32-C *)
Module Hex.

(** Text is a list of characters below U+0100.  [toLowerCase] maps each of
    them to one character, so it keeps the length of such a text: the
    letters [A]-[Z] and the capital letters of Latin-1 (U+00C0 to U+00DE
    but U+00D7) move up by 32, every other character stays. *)
Definition lowerChar (c : ascii) : ascii :=
  let n := nat_of_ascii c in
  if ((65 <=? n) && (n <=? 90))%nat then ascii_of_nat (n + 32)
  else if ((192 <=? n) && (n <=? 222) && negb (n =? 215))%nat
  then ascii_of_nat (n + 32)
  else c.

(** [n.toString(16)] for a non-negative integer; the fuel is the number
    of digits. *)
Fixpoint digits (fuel : nat) (n : Z) (acc : list ascii) : list ascii :=
  match fuel with
  | O => acc
  | S fuel' =>
      let acc := Utils.hexChar (n mod 16) :: acc in
      if n / 16 =? 0 then acc else digits fuel' (n / 16) acc
  end.

Definition toString16 (n : Z) : list ascii :=
  digits (S (Z.to_nat (Z.log2 n))) n [].

(** The value of a hexadecimal digit, [None] for any other character. *)
Definition digitValue (c : ascii) : option Z :=
  let n := Z.of_nat (nat_of_ascii c) in
  if (48 <=? n) && (n <=? 57) then Some (n - 48)
  else if (97 <=? n) && (n <=? 102) then Some (n - 87)
  else None.

Fixpoint pairs (s : list ascii) : result (list Z) :=
  match s with
  | a :: b :: rest =>
      match digitValue a, digitValue b with
      | Some x, Some y => bytes ← pairs rest; Done (16 * x + y :: bytes)
      | _, _ =>
          Throw ("invalid hex character " +:+ String a (String b EmptyString))
      end
  | _ => Done []
  end.

Definition hexToBytes (s : list ascii) : result (list Z) :=
  let s := map lowerChar s in
  if Z.rem (Z.of_nat (length s)) 2 =? 0 then pairs s
  else Throw "hex string must have length a multiple of 2".

End Hex.

Module Crc.

(** Numbers after a bit operation are signed 32-bit, after [>>>] unsigned. *)
Definition toUint32 (x : Z) : Z := x mod 2 ^ 32.
Definition toInt32 (x : Z) : Z :=
  let y := toUint32 x in if y <? 2 ^ 31 then y else y - 2 ^ 32.

Definition POLY : Z := 0x82f63b78.

(** [crc = crc & 1 ? (crc >>> 1) ^ POLY : crc >>> 1] *)
Definition shift (crc : Z) : Z :=
  let shifted := Z.shiftr (toUint32 crc) 1 in
  if Z.land crc 1 =? 0 then shifted else toInt32 (Z.lxor shifted POLY).

Definition _crc32c (crc : Z) (bytes : list Z) : Z :=
  let crc := toInt32 (Z.lxor crc 0xffffffff) in
  let crc :=
    fold_left (λ crc b, Nat.iter 8 shift (toInt32 (Z.lxor crc b))) bytes crc in
  toInt32 (Z.lxor crc 0xffffffff).

(** [setUint32(0, int_crc, false)] and then [reverse()]. *)
Definition crc32c (bytes : list Z) : list Z :=
  let int_crc := toUint32 (_crc32c 0 bytes) in
  rev [int_crc / 2 ^ 24; (int_crc / 2 ^ 16) mod 256;
       (int_crc / 2 ^ 8) mod 256; int_crc mod 256].


(** One turn of the [while (mask > 0)] loop of [crc16]. *)
Definition crc16_step (byte : Z) (reg mask : Z) : Z :=
  let reg := Z.shiftl reg 1 in
  let reg := if Z.land byte mask =? 0 then reg else reg + 1 in
  if 0xffff <? reg then Z.lxor (Z.land reg 0xffff) 0x1021 else reg.

(** The masks [0x80, 0x40, ..., 1] the loop goes through. *)
Definition crc16_masks : list Z := [128; 64; 32; 16; 8; 4; 2; 1].

Definition crc16 (data : list Z) : list Z :=
  let message := map toUint8 data ++ [0; 0] in
  let reg :=
    fold_left (λ reg byte, fold_left (crc16_step byte) crc16_masks reg)
      message 0 in
  [toUint8 (floorDiv reg 256); toUint8 (Z.rem reg 256)].

End Crc.



(** ** AdnlAddress.ts and StorageBagId.ts

    What the constructor is given: another address, a byte array, a
    string, [null] or [undefined], or a value of any other type. *)
Inductive AnyForm (T : Type) : Type :=
| FormNull
| FormSelf (a : T)
| FormBytes (bytes : list Z)
| FormString (s : string)
| FormOther.
Arguments FormNull {T}.
Arguments FormSelf {T} a.
Arguments FormBytes {T} bytes.
Arguments FormString {T} s.
Arguments FormOther {T}.

(** [while (hex.length < 64) hex = "0" + hex] *)
Fixpoint padHex (fuel : nat) (hex : string) : result string :=
  match fuel with
  | O => Timeout
  | S fuel' =>
      if (String.length hex <? 64)%nat then padHex fuel' (String "0" hex)
      else Done hex
  end.

Module AdnlAddress.

Record t : Type := mk { bytes : list Z }.

Definition new (anyForm : AnyForm t) : result t :=
  match anyForm with
  | FormNull => Throw "Invalid address"
  | FormSelf a => Done (mk (bytes a))
  | FormBytes b =>
      if bool_decide (length b = 32%nat) then Done (mk b)
      else Throw "invalid adnl bytes length"
  | FormString s =>
      if bool_decide (String.length s = 64%nat)
      then b ← Hex.hexToBytes (list_ascii_of_string s); Done (mk b)
      else Throw "invalid adnl hex length"
  | FormOther => Throw "unsupported type"
  end.

Definition isValid (anyForm : AnyForm t) : bool := isDone (new anyForm).

Definition toHex (fuel : nat) (a : t) : result string :=
  padHex fuel (Utils.bytesToHex (bytes a)).

End AdnlAddress.

Module StorageBagId.

Record t : Type := mk { bytes : list Z }.

Definition new (anyForm : AnyForm t) : result t :=
  match anyForm with
  | FormNull => Throw "Invalid address"
  | FormSelf a => Done (mk (bytes a))
  | FormBytes b =>
      if bool_decide (length b = 32%nat) then Done (mk b)
      else Throw "invalid bag id bytes length"
  | FormString s =>
      if bool_decide (String.length s = 64%nat)
      then b ← Hex.hexToBytes (list_ascii_of_string s); Done (mk b)
      else Throw "invalid bag id hex length"
  | FormOther => Throw "unsupported type"
  end.

Definition isValid (anyForm : AnyForm t) : bool := isDone (new anyForm).

Definition toHex (fuel : nat) (a : t) : result string :=
  padHex fuel (Utils.bytesToHex (bytes a)).

End StorageBagId.

(** ** Cell.ts: the serializer

    [hash] stands for [Cell.hash] (SHA-256 of the representation of the
    cell) and [uint8ArrayToText] for the conversion of a hash to the string
    that keys the index; both are computed outside the files at hand. *)
Section Serializer.

Context (hash : Cell.t → list Z) (uint8ArrayToText : list Z → string).

(** [const reachBocMagicPrefix = hexToBytes("B5EE9C72")] *)
Definition reachBocMagicPrefix : list Z := [0xB5; 0xEE; 0x9C; 0x72].

(** The indices [serializeForBoc] looks up, one per child cell:
    [cellsIndex[refHash]], [None] when the key is missing. *)
Definition refIndexInts (cell : Cell.t) (cellsIndex : gmap string nat)
  : list (option nat) :=
  map (λ c, cellsIndex !! uint8ArrayToText (hash c)) (Cell.childCells cell).

(** The bytes written for one reference index: its hexadecimal digits, a
    [0] in front when their number is odd, read back as bytes. *)
Definition referenceBytes (refIndexInt : nat) : result (list Z) :=
  let refIndexHex := Hex.toString16 (Z.of_nat refIndexInt) in
  let refIndexHex :=
    if Z.rem (Z.of_nat (length refIndexHex)) 2 =? 0
    then refIndexHex else "0"%char :: refIndexHex in
  Hex.hexToBytes refIndexHex.

Definition serializeForBoc (cell : Cell.t) (cellsIndex : gmap string nat)
  : result (list Z) :=
  dataWithDescriptors ← Cell.getDataWithDescriptors cell;
  reprArray ←
    forEachM
      (λ (reprArray : list (list Z)) (cell : Ref Cell.t),
         match cell with
         | RefNum _ => Done reprArray
         | RefCell cell =>
             match cellsIndex !! uint8ArrayToText (hash cell) with
             | None => Throw "TypeError: refIndexInt is undefined"
             | Some refIndexInt =>
                 reference ← referenceBytes refIndexInt;
                 Done (reprArray ++ [reference])
             end
         end)
      (Cell.refs cell) [dataWithDescriptors];
  Done (fold_left Utils.concatBytes reprArray []).

Definition bocSerializationSize (cell : Cell.t) (cellsIndex : gmap string nat)
  : result Z :=
  x ← serializeForBoc cell cellsIndex;
  Done (Z.of_nat (length x)).

(** [moveToTheEnd]: [splice(undefined, 1)] removes the first entry, and an
    entry that is not there makes [data[1]] throw. *)
Fixpoint moveToTheEnd (fuel : nat) (indexHashmap : gmap string nat)
    (topologicalOrderArray : list (list Z * Cell.t)) (target : list Z)
  : result (gmap string nat * list (list Z * Cell.t)) :=
  match fuel with
  | O => Timeout
  | S fuel' =>
      let targetString := uint8ArrayToText target in
      let targetIndex := indexHashmap !! targetString in
      let indexHashmap :=
        match targetIndex with
        | Some t => (λ v, if decide (t < v)%nat then (v - 1)%nat else v)
                      <$> indexHashmap
        | None => indexHashmap
        end in
      let indexHashmap :=
        <[targetString := (length topologicalOrderArray - 1)%nat]> indexHashmap in
      match topologicalOrderArray !! default 0%nat targetIndex with
      | None => Throw "TypeError: data is undefined"
      | Some data =>
          let topologicalOrderArray :=
            delete (default 0%nat targetIndex) topologicalOrderArray ++ [data] in
          forEachM
            (λ '(indexHashmap, topologicalOrderArray) (subCell : Ref Cell.t),
               match subCell with
               | RefCell subCell =>
                   moveToTheEnd fuel' indexHashmap topologicalOrderArray
                     (hash subCell)
               | RefNum _ => Done (indexHashmap, topologicalOrderArray)
               end)
            (Cell.refs data.2) (indexHashmap, topologicalOrderArray)
      end
  end.

Fixpoint treeWalk (fuel : nat) (cell : Cell.t)
    (topologicalOrderArray : list (list Z * Cell.t))
    (indexHashmap : gmap string nat) (parentHash : option (list Z))
  : result (list (list Z * Cell.t) * gmap string nat) :=
  match fuel with
  | O => Timeout
  | S fuel' =>
      let cellHash := hash cell in
      let cellHashString := uint8ArrayToText cellHash in
      match indexHashmap !! cellHashString with
      | Some cellIndex =>
          match parentHash with
          | Some parentHash =>
              match indexHashmap !! uint8ArrayToText parentHash with
              | Some parentIndex =>
                  if decide (cellIndex < parentIndex)%nat then
                    '(indexHashmap, topologicalOrderArray) ←
                      moveToTheEnd fuel indexHashmap topologicalOrderArray cellHash;
                    Done (topologicalOrderArray, indexHashmap)
                  else Done (topologicalOrderArray, indexHashmap)
              | None => Done (topologicalOrderArray, indexHashmap)
              end
          | None => Done (topologicalOrderArray, indexHashmap)
          end
      | None =>
          let indexHashmap :=
            <[cellHashString := length topologicalOrderArray]> indexHashmap in
          let topologicalOrderArray :=
            topologicalOrderArray ++ [(cellHash, cell)] in
          forEachM
            (λ '(topologicalOrderArray, indexHashmap) (subCell : Ref Cell.t),
               match subCell with
               | RefNum _ => Done (topologicalOrderArray, indexHashmap)
               | RefCell subCell =>
                   treeWalk fuel' subCell topologicalOrderArray indexHashmap
                     (Some cellHash)
               end)
            (Cell.refs cell) (topologicalOrderArray, indexHashmap)
      end
  end.

(** [Math.min(Math.ceil(cells_num.toString(2).length / 8), 1)] *)
Definition s_bytes_of (cells_num : Z) : Z :=
  Z.min (ceilDiv (Z.of_nat (length (BN.toString2 cells_num 1))) 8) 1.

(** [Math.max(Math.ceil(full_size.toString(2).length / 8), 1)] *)
Definition offset_bytes_of (full_size : Z) : Z :=
  Z.max (ceilDiv (Z.of_nat (length (BN.toString2 full_size 1))) 8) 1.

Definition toBoc (fuel : nat) (cell : Cell.t)
    (has_idx hash_crc32 has_cache_bits : bool) (flags : Z) : result (list Z) :=
  '(topologicalOrder, cellsIndex) ← treeWalk fuel cell [] ∅ None;
  let cells_num := Z.of_nat (length topologicalOrder) in
  let s_bytes := s_bytes_of cells_num in
  '(sizeIndex, full_size) ←
    forEachM
      (λ '(sizeIndex, full_size) (cell_info : list Z * Cell.t),
         size ← bocSerializationSize cell_info.2 cellsIndex;
         Done (sizeIndex ++ [full_size], full_size + size))
      topologicalOrder ([], 0);
  let offset_bytes := offset_bytes_of full_size in
  let serialization := BitString.new ((1023 + 32 * 4 + 32 * 3) * cells_num) in
  serialization ← BitString.writeBytes serialization reachBocMagicPrefix;
  serialization ←
    BitString.writeBitArray serialization [has_idx; hash_crc32; has_cache_bits];
  serialization ← BitString.writeUint serialization flags 2;
  serialization ← BitString.writeUint serialization s_bytes 3;
  serialization ← BitString.writeUint8 serialization offset_bytes;
  serialization ← BitString.writeUint serialization cells_num (s_bytes * 8);
  serialization ← BitString.writeUint serialization 1 (s_bytes * 8);
  serialization ← BitString.writeUint serialization 0 (s_bytes * 8);
  serialization ← BitString.writeUint serialization full_size (offset_bytes * 8);
  serialization ← BitString.writeUint serialization 0 (s_bytes * 8);
  serialization ←
    (if has_idx then
       forEachM
         (λ serialization index,
            match sizeIndex !! index with
            | Some offset =>
                BitString.writeUint serialization offset (offset_bytes * 8)
            | None => Throw "writeUint: value is undefined"
            end)
         (seq 0 (length topologicalOrder)) serialization
     else Done serialization);
  serialization ←
    forEachM
      (λ serialization (cell_info : list Z * Cell.t),
         refcell_ser ← serializeForBoc cell_info.2 cellsIndex;
         BitString.writeBytes serialization refcell_ser)
      topologicalOrder serialization;
  ser_arr ← BitString.getTopUppedArray serialization;
  Done (if hash_crc32
        then Utils.concatBytes ser_arr (Crc.crc32c ser_arr) else ser_arr).

End Serializer.

(** ** Cell.ts: the header of a bag of cells

    The value of [parseBocHeader].  The flags are kept as the numbers the
    source computes ([flags_byte & 128] and so on); [index] is [None] for
    [false]; [tot_cells_size] is [None] for the [NaN] that
    [readNBytesUIntFromArray] gives when it reads past the end of the
    array, the only place where the checks of the source let that happen.
    Numbers read from the array are exact while they stay below [2^53]. *)
Record ParsedHeader : Type :=
  mkParsedHeader {
    p_index : option (list Z);
    p_cells_num : Z;
    p_roots_num : Z;
    p_root_list : list Z;
    p_size_bytes : Z;
    p_absent_num : Z;
    p_cells_data : list Z;
    p_tot_cells_size : option Z;
    p_flags : Z;
    p_off_bytes : Z;
    p_has_idx : Z;
    p_hash_crc32 : Z;
    p_has_cache_bits : Z }.

Module Parser.

Definition leanBocMagicPrefix : list Z := [0x68; 0xff; 0x65; 0xf3].
Definition leanBocMagicPrefixCRC : list Z := [0xac; 0xc3; 0xa7; 0x28].

(** The loops [for (let c = 0; c < count; c++)] that read [count] numbers
    of [size] bytes each. *)
Fixpoint readNumbers (count : nat) (size : Z) (acc : list Z)
    (serializedBoc : list Z) : list Z * list Z :=
  match count with
  | O => (acc, serializedBoc)
  | S count' =>
      readNumbers count' size
        (acc ++ [Utils.readNBytesUIntFromArray size serializedBoc])
        (Boc.sliceFrom serializedBoc size)
  end.

(** [readNBytesUIntFromArray(offset_bytes, serializedBoc)] where bytes may
    be missing: [None] is [NaN]. *)
Definition readTotalSize (offset_bytes : Z) (serializedBoc : list Z) : option Z :=
  if Z.of_nat (length serializedBoc) <? offset_bytes then None
  else Some (Utils.readNBytesUIntFromArray offset_bytes serializedBoc).

Definition parseBocHeader (serializedBoc : list Z) : result ParsedHeader :=
  if Z.of_nat (length serializedBoc) <? 4 + 1
  then Throw "Not enough bytes for magic prefix"
  else
    let inputData := serializedBoc in
    let prefix := slice serializedBoc 0 4 in
    let serializedBoc := Boc.sliceFrom serializedBoc 4 in
    flagsAndSize ←
      (if Utils.compareBytes prefix reachBocMagicPrefix then
         let flags_byte := readByte serializedBoc 0 in
         Done (Z.land flags_byte 128, Z.land flags_byte 64, Z.land flags_byte 32,
               Z.land flags_byte 16 * 2 + Z.land flags_byte 8,
               Z.rem flags_byte 8)
       else if Utils.compareBytes prefix leanBocMagicPrefix then
         Done (1, 0, 0, 0, readByte serializedBoc 0)
       else if Utils.compareBytes prefix leanBocMagicPrefixCRC then
         Done (1, 1, 0, 0, readByte serializedBoc 0)
       else Throw "Unknown BoC magic prefix");
    let '(has_idx, hash_crc32, has_cache_bits, flags, size_bytes) := flagsAndSize in
    let serializedBoc := Boc.sliceFrom serializedBoc 1 in
    if Z.of_nat (length serializedBoc) <? 1 + 5 * size_bytes
    then Throw "Not enough bytes for encoding cells counters"
    else
      let offset_bytes := readByte serializedBoc 0 in
      let serializedBoc := Boc.sliceFrom serializedBoc 1 in
      let cells_num := Utils.readNBytesUIntFromArray size_bytes serializedBoc in
      let serializedBoc := Boc.sliceFrom serializedBoc size_bytes in
      let roots_num := Utils.readNBytesUIntFromArray size_bytes serializedBoc in
      let serializedBoc := Boc.sliceFrom serializedBoc size_bytes in
      let absent_num := Utils.readNBytesUIntFromArray size_bytes serializedBoc in
      let serializedBoc := Boc.sliceFrom serializedBoc size_bytes in
      let tot_cells_size := readTotalSize offset_bytes serializedBoc in
      let serializedBoc := Boc.sliceFrom serializedBoc offset_bytes in
      if Z.of_nat (length serializedBoc) <? roots_num * size_bytes
      then Throw "Not enough bytes for encoding root cells hashes"
      else
        let '(root_list, serializedBoc) :=
          readNumbers (Z.to_nat roots_num) size_bytes [] serializedBoc in
        indexAndRest ←
          (if has_idx =? 0 then Done (None, serializedBoc)
           else if Z.of_nat (length serializedBoc) <? offset_bytes * cells_num
           then Throw "Not enough bytes for index encoding"
           else
             let '(index, serializedBoc) :=
               readNumbers (Z.to_nat cells_num) offset_bytes [] serializedBoc in
             Done (Some index, serializedBoc));
        let '(index, serializedBoc) := indexAndRest in
        if match tot_cells_size with
           | Some size => Z.of_nat (length serializedBoc) <? size
           | None => false
           end
        then Throw "Not enough bytes for cells data"
        else
          let size := default 0 tot_cells_size in
          let cells_data := slice serializedBoc 0 size in
          let serializedBoc := Boc.sliceFrom serializedBoc size in
          serializedBoc ←
            (if hash_crc32 =? 0 then Done serializedBoc
             else if Z.of_nat (length serializedBoc) <? 4
             then Throw "Not enough bytes for crc32c hashsum"
             else
               let length := Z.of_nat (length inputData) in
               if negb (Utils.compareBytes
                          (Crc.crc32c (slice inputData 0 (length - 4)))
                          (slice serializedBoc 0 4))
               then Throw "Crc32c hashsum mismatch"
               else Done (Boc.sliceFrom serializedBoc 4));
          if negb (Z.of_nat (length serializedBoc) =? 0)
          then Throw "Too much bytes in BoC serialization"
          else
            Done (mkParsedHeader index cells_num roots_num root_list size_bytes
                    absent_num cells_data tot_cells_size flags offset_bytes
                    has_idx hash_crc32 has_cache_bits).

(** The fields [deserializeBoc] reads. *)
Definition header (p : ParsedHeader) : BocHeader :=
  mkBocHeader (p_cells_num p) (p_size_bytes p) (p_cells_data p) (p_root_list p).

(** [Cell.fromBoc] on a byte array: the store of cells and the roots. *)
Definition fromBoc (serializedBoc : list Z) : result (list HeapCell * list HeapRef) :=
  p ← parseBocHeader serializedBoc;
  Boc.deserializeBoc (header p).

(** [Cell.fromBoc] on hexadecimal text. *)
Definition fromBocHex (serializedBoc : list ascii)
  : result (list HeapCell * list HeapRef) :=
  bytes ← Hex.hexToBytes serializedBoc;
  fromBoc bytes.

(** [Cell.oneFromBoc]: the store and the root. *)
Definition oneFromBoc (serializedBoc : list Z) : result (list HeapCell * HeapRef) :=
  '(cells_array, cells) ← fromBoc serializedBoc;
  match cells with
  | [cell] => Done (cells_array, cell)
  | _ => Throw ("expected 1 root cell but have " +:+ pretty (length cells))
  end.

End Parser.

(** ** Vocabulary of the topological walk *)

(** The cells of the graph under [c], [c] itself first. *)
Fixpoint subcells (c : Cell.t) : list Cell.t :=
  match c with
  | Cell.mk _ rs _ =>
      c :: (fix under (rs : list (Ref Cell.t)) : list Cell.t :=
              match rs with
              | [] => []
              | RefCell s :: rs' => subcells s ++ under rs'
              | RefNum _ :: rs' => under rs'
              end) rs
  end.

(** The length of the longest chain of child cells below [c]. *)
Fixpoint rank (c : Cell.t) : nat :=
  match c with
  | Cell.mk _ rs _ =>
      (fix over (rs : list (Ref Cell.t)) : nat :=
         match rs with
         | [] => O
         | RefCell s :: rs' => Nat.max (S (rank s)) (over rs')
         | RefNum _ :: rs' => over rs'
         end) rs
  end.

Section Order.

Context (hash : Cell.t → list Z) (uint8ArrayToText : list Z → string).

(** The string under which a cell is indexed. *)
Definition cellKey (c : Cell.t) : string := uint8ArrayToText (hash c).

Definition keysOf (T : list (list Z * Cell.t)) : list string :=
  map (λ e, uint8ArrayToText e.1) T.

(** No two cells of the graph with different child hashes share a key. *)
Definition collisionFree (root : Cell.t) : Prop :=
  ∀ c1 c2, c1 ∈ subcells root → c2 ∈ subcells root →
           cellKey c1 = cellKey c2 →
           map cellKey (Cell.childCells c1) = map cellKey (Cell.childCells c2).

(** [a] is listed at a smaller position than [b]. *)
Definition before (T : list (list Z * Cell.t)) (a b : string) : Prop :=
  ∃ i j : nat, keysOf T !! i = Some a ∧ keysOf T !! j = Some b ∧ (i < j)%nat.

(** The index is the inverse of the list, whose entries are cells of the
    graph paired with their hashes. *)
Record indexed (root : Cell.t) (T : list (list Z * Cell.t))
    (H : gmap string nat) : Prop :=
  mkIndexed {
    indexed_lookup : ∀ k i, H !! k = Some i ↔ keysOf T !! i = Some k;
    indexed_entries : ∀ e, e ∈ T → e.1 = hash e.2 ∧ e.2 ∈ subcells root }.

(** The keys of the cells under [c]. *)
Definition keysUnder (c : Cell.t) : list string := map cellKey (subcells c).

(** [T'] lists the keys of [T], those of [D] after all the others, which
    keep the order they have in [T]. *)
Definition movedToEnd (D : string → Prop) (T T' : list (list Z * Cell.t)) : Prop :=
  (∀ a, a ∈ keysOf T' ↔ a ∈ keysOf T)
  ∧ (∀ a b, ¬ D a → ¬ D b → before T a b → before T' a b)
  ∧ (∀ a b, a ∈ keysOf T → ¬ D a → D b → before T' a b).

(** Inside [D], every listed cell comes before those of its children that
    are in [D]. *)
Definition forwardWithin (root : Cell.t) (D : string → Prop)
    (T : list (list Z * Cell.t)) : Prop :=
  ∀ d, d ∈ subcells root → D (cellKey d) →
       ∀ s, s ∈ map cellKey (Cell.childCells d) → D s → before T (cellKey d) s.

(** What a call of [moveToTheEnd] with fuel [fuel] achieves on a cell of
    the graph whose cells are all listed: the cells under it end up last,
    each before its children. *)
Definition movesUnder (root : Cell.t) (fuel : nat) : Prop :=
  ∀ c T H,
    c ∈ subcells root → (rank c < fuel)%nat → indexed root T H →
    (∀ x, x ∈ keysUnder c → x ∈ keysOf T) →
    ∃ T' H',
      moveToTheEnd hash uint8ArrayToText fuel H T (hash c) = Done (H', T')
      ∧ indexed root T' H'
      ∧ movedToEnd (λ x, x ∈ keysUnder c) T T'
      ∧ forwardWithin root (λ x, x ∈ keysUnder c) T'.

(** Everything under [c] is listed, each cell before its children. *)
Definition settled (T : list (list Z * Cell.t)) (c : Cell.t) : Prop :=
  ∀ d, d ∈ subcells c →
       cellKey d ∈ keysOf T
       ∧ ∀ s, s ∈ map cellKey (Cell.childCells d) → before T (cellKey d) s.

(** Every edge of the graph that points forward in [T] still does in [T']. *)
Definition keepsForward (root : Cell.t) (T T' : list (list Z * Cell.t)) : Prop :=
  ∀ d s, d ∈ subcells root → s ∈ map cellKey (Cell.childCells d) →
         before T (cellKey d) s → before T' (cellKey d) s.

(** The listed cells of the graph are settled, or are still being walked,
    in which case their rank is at least [n]. *)
Definition pending (root : Cell.t) (n : nat) (T : list (list Z * Cell.t)) : Prop :=
  ∀ d, d ∈ subcells root → cellKey d ∈ keysOf T →
       settled T d ∨ (n ≤ rank d)%nat.

(** What a call of [treeWalk] with fuel [fuel] achieves on a cell [c] of
    the graph reached from a listed parent. *)
Definition walks (root : Cell.t) (fuel : nat) : Prop :=
  ∀ c T H parentHash,
    c ∈ subcells root → (rank c < fuel)%nat → indexed root T H →
    pending root (S (rank c)) T →
    (∀ ph, parentHash = Some ph →
           ∃ pc, ph = hash pc ∧ pc ∈ subcells root
                 ∧ c ∈ Cell.childCells pc ∧ cellKey pc ∈ keysOf T) →
    ∃ T' H',
      treeWalk hash uint8ArrayToText fuel c T H parentHash = Done (T', H')
      ∧ indexed root T' H'
      ∧ (∀ a, a ∈ keysOf T → a ∈ keysOf T')
      ∧ keepsForward root T T'
      ∧ settled T' c
      ∧ (∀ ph, parentHash = Some ph →
               before T' (uint8ArrayToText ph) (cellKey c))
      ∧ (∀ d, d ∈ subcells root → cellKey d ∈ keysOf T' →
              cellKey d ∈ keysOf T ∨ settled T' d).

End Order.

(** ** An example graph

    A root with three children, two of which share a subtree; the cells
    are told apart by the number of bits they hold. *)
Definition exampleCell (cursor : Z) (children : list Cell.t) : Cell.t :=
  Cell.mk (BitString.mk (replicate 128 0) cursor 1023) (map RefCell children) false.

Definition exampleGraph : Cell.t :=
  exampleCell 0
    [exampleCell 8 [exampleCell 16 []];
     exampleCell 16 [];
     exampleCell 24 [exampleCell 8 [exampleCell 16 []]]].

Definition exampleHash (c : Cell.t) : list Z := [BitString.cursor (Cell.bits c)].
Definition exampleText (h : list Z) : string := Utils.bytesToHex h.

(** A chain of [n + 1] cells, each the only child of the next one; the
    cell at depth [k] from the leaf holds [k] bits. *)
Fixpoint exampleChain (n : nat) : Cell.t :=
  exampleCell (Z.of_nat n)
    (match n with
     | O => []
     | S k => [exampleChain k]
     end).

(** ** Vocabulary of buffer states

    [bitAt arr p] is bit [p] of the array in the numbering of the source:
    byte [p / 8], mask [1 << (7 - p % 8)]. *)
Definition bitAt (arr : list Z) (p : Z) : bool :=
  Z.testbit (readByte arr (p / 8)) (7 - p mod 8).

Definition byteRange (arr : list Z) : Prop := Forall (λ x, 0 ≤ x < 256) arr.

(** A buffer as the write operations keep it: the cursor at most one past
    the capacity, the array large enough for the capacity, bytes in range. *)
Definition sound (b : BitString.t) : Prop :=
  0 ≤ BitString.cursor b ≤ BitString.length b + 1
  ∧ BitString.length b ≤ 8 * Z.of_nat (length (BitString.array b))
  ∧ byteRange (BitString.array b).

(** [b'] comes from [b] by writes at and after the cursor of [b]. *)
Definition later (b b' : BitString.t) : Prop :=
  BitString.cursor b ≤ BitString.cursor b'
  ∧ BitString.length b' = BitString.length b
  ∧ length (BitString.array b') = length (BitString.array b)
  ∧ ∀ p, 0 ≤ p < BitString.cursor b →
         bitAt (BitString.array b') p = bitAt (BitString.array b) p.


(** ** Vocabulary of the byte layout *)

(** The bytes of [v] on [k] bytes, most significant first. *)
Definition bigEndian (k : nat) (v : Z) : list Z :=
  map (λ j, (v / 256 ^ Z.of_nat (k - 1 - j)) mod 256) (seq 0 k).

(** The buffer holds exactly the bytes [bs], its cursor after the last. *)
Definition written (b : BitString.t) (bs : list Z) : Prop :=
  sound b
  ∧ BitString.cursor b = 8 * Z.of_nat (length bs)
  ∧ take (length bs) (BitString.array b) = bs.

(** [sound], as a test. *)
Definition soundb (b : BitString.t) : bool :=
  (0 <=? BitString.cursor b) && (BitString.cursor b <=? BitString.length b + 1)
  && (BitString.length b <=? 8 * Z.of_nat (length (BitString.array b)))
  && forallb (λ x, (0 <=? x) && (x <? 256)) (BitString.array b).

(** Where each of the byte strings [sers] starts in their concatenation. *)
Definition offsets (sers : list (list Z)) : list Z :=
  map (λ i, Z.of_nat (length (mjoin (take i sers)))) (seq 0 (length sers)).

(** ** Vocabulary of the statements about buffers *)

(** The string [toHex] returns for the bits [ba] written into a fresh cell
    buffer, run with fuel [5] or more. *)
Definition hexOfBits (fuel : nat) (ba : list bool) : result string :=
  b ← BitString.writeBitArray (BitString.new 1023) ba;
  BitString.toHex (5 + fuel) b.

(** The buffer has the size the constructor gives it. *)
Definition arraySized (b : BitString.t) : Prop :=
  length (BitString.array b) = Z.to_nat (ceilDiv (BitString.length b) 8).

(** The padding of the last byte passes the range check of [writeBit]. *)
Definition paddingFits (b : BitString.t) : Prop :=
  BitString.cursor b mod 8 = 0
  ∨ 8 * ceilDiv (BitString.cursor b) 8 ≤ BitString.length b + 1.

(** Binary digits as characters. *)
Definition isOne (c : ascii) : bool := bool_decide (c = "1"%char).
Definition digitChar (b : bool) : ascii := if b then "1"%char else "0"%char.
Definition binaryDigit (c : ascii) : Prop := c = "0"%char ∨ c = "1"%char.

(** The cell data of a bag of one cell whose only reference is the index 0,
    the cell itself: [d1 = 1] (one reference), [d2 = 0] (no data), then the
    reference byte [0]; [size_bytes = 1] and the root is cell 0.  With the
    header of the lean magic these are the bytes
    [68ff65f3 01 01 01 01 00 03 00 00 010000]. *)
Definition selfReferenceBoc : BocHeader := mkBocHeader 1 1 [1; 0; 0] [0].

(** ** Vocabulary of the round trip *)

(** A cell [toBoc] writes so that [fromBoc] reads it back: a buffer as the
    constructor makes it and the writes keep it, of at most 1023 bits,
    whose padding fits; less than eight references, all of them cells. *)
Definition plainCell (c : Cell.t) : Prop :=
  arraySized (Cell.bits c)
  ∧ byteRange (BitString.array (Cell.bits c))
  ∧ 0 ≤ BitString.cursor (Cell.bits c) ≤ BitString.length (Cell.bits c)
  ∧ BitString.cursor (Cell.bits c) ≤ 1023
  ∧ paddingFits (Cell.bits c)
  ∧ (length (Cell.refs c) < 8)%nat
  ∧ Cell.refs c = map RefCell (Cell.childCells c).

(** The buffer [b'] holds the bits written in [b]. *)
Definition sameBits (b b' : BitString.t) : Prop :=
  BitString.cursor b' = BitString.cursor b
  ∧ ∀ p, 0 ≤ p < BitString.cursor b → BitString.get b' p = BitString.get b p.

(** The reference [r] into the store [heap] stands for the cell [c]: it
    points to a cell with the bits and the kind of [c] whose references
    stand for the child cells of [c], in order. *)
Fixpoint represents (heap : list HeapCell) (c : Cell.t) (r : HeapRef) : Prop :=
  match c with
  | Cell.mk bits refs isExotic =>
      ∃ (i : nat) (hc : HeapCell),
        r = Pointer i ∧ heap !! i = Some hc
        ∧ sameBits bits (hbits hc)
        ∧ hisExotic hc = isExotic
        ∧ (fix all (rs : list (Ref Cell.t)) (hs : list HeapRef) : Prop :=
             match rs, hs with
             | [], [] => True
             | RefCell s :: rs', h :: hs' => represents heap s h ∧ all rs' hs'
             | _, _ => False
             end) refs (hrefs hc)
  end.

(** The store after the resolution of references that all point forward
    or to the cell itself, inside the store. *)
Definition resolved (cells : list HeapCell) (jss : list (list nat))
  : list HeapCell :=
  zip_with (λ hc js, mkHeapCell (hbits hc) (map Pointer js) (hisExotic hc))
    cells jss.


(** [plainCell], as a test. *)
Definition plainCellb (c : Cell.t) : bool :=
  let b := Cell.bits c in
  (length (BitString.array b) =? Z.to_nat (ceilDiv (BitString.length b) 8))%nat
  && forallb (λ x, (0 <=? x) && (x <? 256)) (BitString.array b)
  && (0 <=? BitString.cursor b) && (BitString.cursor b <=? BitString.length b)
  && (BitString.cursor b <=? 1023)
  && ((BitString.cursor b mod 8 =? 0)
      || (8 * ceilDiv (BitString.cursor b) 8 <=? BitString.length b + 1))
  && (length (Cell.refs c) <? 8)%nat
  && forallb (λ r, match r with RefCell _ => true | RefNum _ => false end)
       (Cell.refs c).

(** * Properties *)

(** ** The result monad *)

Lemma bind_Done {A B} (m : result A) (f : A → result B) (b : B) :
  m ≫= f = Done b ↔ ∃ a, m = Done a ∧ f a = Done b.
Proof.
  destruct m as [a| |]; simpl; split;
    try (intros [a' [Ha Hf]]); try discriminate; eauto.
  by injection Ha as ->.
Qed.

(** ** Fuel of [toHex] *)

Lemma padToNibble_fuel_mono (f f' : nat) (b r : BitString.t) :
  (f ≤ f')%nat →
  BitString.padToNibble f b = Done r → BitString.padToNibble f' b = Done r.
Proof.
  revert f' b. induction f as [|f IH]; intros f' b Hle H; [discriminate|].
  destruct f' as [|f']; [lia|]. simpl in *.
  destruct (Z.rem (BitString.cursor b) 4 =? 0); [done|].
  destruct (BitString.writeBit b false) as [b1| |]; simpl in *; try discriminate.
  apply IH; [lia|done].
Qed.

Lemma toHex_fuel_mono (f f' : nat) (b : BitString.t) (r : string) :
  (f ≤ f')%nat → BitString.toHex f b = Done r → BitString.toHex f' b = Done r.
Proof.
  revert f' b r. induction f as [|f IH]; intros f' b r Hle H; [discriminate|].
  destruct f' as [|f']; [lia|]. simpl in *.
  destruct (Z.rem (BitString.cursor b) 4 =? 0); [done|].
  destruct (BitString.writeBit (BitString.clone b) true) as [b1| |];
    simpl in *; try discriminate.
  destruct (BitString.padToNibble f b1) as [b2| |] eqn:Hpad;
    simpl in *; try discriminate.
  rewrite (padToNibble_fuel_mono f f' b1 b2) by (done || lia). simpl.
  destruct (BitString.toHex f b2) as [h| |] eqn:Hhex; simpl in *; try discriminate.
  rewrite (IH f' b2 h) by (done || lia). done.
Qed.


(** C9: [toHex] follows the Fift convention on the five inputs of the
    specification: no bit gives the empty string, the bit 1 gives [C_],
    the bits 1010 give [A], 1011 give [B] and 10111 give [BC_]. *)
Theorem toHex_fift_examples (fuel : nat) :
  hexOfBits fuel [] = Done ""%string
  ∧ hexOfBits fuel [true] = Done "C_"%string
  ∧ hexOfBits fuel [true; false; true; false] = Done "A"%string
  ∧ hexOfBits fuel [true; false; true; true] = Done "B"%string
  ∧ hexOfBits fuel [true; false; true; true; true] = Done "BC_"%string.
Proof.
  assert (Hrun : ∀ ba r,
             hexOfBits 0 ba = Done r → hexOfBits fuel ba = Done r).
  { intros ba r. unfold hexOfBits.
    destruct (BitString.writeBitArray (BitString.new 1023) ba) as [b| |];
      unfold mbind, result_bind; try discriminate.
    apply toHex_fuel_mono. lia. }
  repeat split; apply Hrun; vm_compute; reflexivity.
Qed.

(** ** Arithmetic of byte counts *)

Lemma ceilDiv_spec (x d : Z) :
  0 < d → ceilDiv x d = if x mod d =? 0 then x / d else x / d + 1.
Proof.
  intros Hd. unfold ceilDiv.
  destruct (Z.eqb_spec (x mod d) 0) as [H0|Hn].
  - rewrite Z.div_opp_l_z by lia. lia.
  - rewrite Z.div_opp_l_nz by lia. lia.
Qed.

(** ** Zero width in [writeUint] *)

(** C5, as the code has it: a width of 0 is refused before the no-op branch
    is reached, whatever the value, zero included. *)
Theorem writeUint_zero_width_throws (b : BitString.t) (n : Z) :
  BitString.writeUint b n 0 = Throw "writeUint: no bitLength".
Proof. reflexivity. Qed.

(** C5 fails for the value 0: [writeUint(0, 0)] on a fresh cell buffer
    throws, it is not a silent no-op. *)
Lemma writeUint_zero_zero_not_noop :
  BitString.writeUint (BitString.new 1023) 0 0 = Throw "writeUint: no bitLength"
  ∧ BitString.writeUint (BitString.new 1023) 0 0 ≠ Done (BitString.new 1023).
Proof. split; [reflexivity | discriminate]. Qed.

(** ** The range check of [writeBit] *)

Lemma writeBit_throws_iff (b : BitString.t) (v : bool) :
  isThrow (BitString.writeBit b v) = true ↔ BitString.length b < BitString.cursor b.
Proof.
  unfold BitString.writeBit, BitString.on, BitString.off, BitString.checkRange.
  destruct (Z.ltb_spec (BitString.length b) (BitString.cursor b));
    destruct v; simpl; split; intros; (done || lia).
Qed.

Lemma writeBit_Done (b : BitString.t) (v : bool) :
  BitString.cursor b ≤ BitString.length b →
  BitString.writeBit b v =
    Done (BitString.mk
            (updateByte (BitString.array b) (BitString.byteIndex (BitString.cursor b))
               (if v then (λ x, Z.lor x (BitString.bitMask (BitString.cursor b)))
                else (λ x, Z.land x (Z.lnot (BitString.bitMask (BitString.cursor b))))))
            (BitString.cursor b + 1) (BitString.length b)).
Proof.
  intros Hle.
  unfold BitString.writeBit, BitString.on, BitString.off, BitString.checkRange.
  destruct (Z.ltb_spec (BitString.length b) (BitString.cursor b)); [lia|].
  destruct v; reflexivity.
Qed.


(** ** [loadRef] *)

(** C10: [loadRef] throws exactly when the ref cursor has reached 4; below
    4, once the cursor is at or past the number of child slices, it returns
    [undefined] and still moves the cursor on. *)
Theorem loadRef_failure_boundary (s : Slice.t) :
  (Slice.loadRef s = Throw "refs overflow" ↔ 4 ≤ Slice.refCursor s)
  ∧ (isThrow (Slice.loadRef s) = true ↔ 4 ≤ Slice.refCursor s)
  ∧ (Slice.refCursor s < 4 →
     Z.of_nat (length (Slice.refs s)) ≤ Slice.refCursor s →
     Slice.loadRef s
       = Done (None, Slice.withRefCursor s (Slice.refCursor s + 1))).
Proof.
  unfold Slice.loadRef.
  destruct (Z.leb_spec 4 (Slice.refCursor s)) as [Hge|Hlt].
  - repeat split; intros; (done || lia).
  - split; [split; intros; (done || lia)|].
    split; [split; intros; (done || lia)|].
    intros _ Hlen. do 2 f_equal. unfold Slice.at_.
    destruct (Z.ltb_spec (Slice.refCursor s) 0); [lia|].
    destruct (Z.ltb_spec (Slice.refCursor s) 0); [lia|].
    apply lookup_ge_None. lia.
Qed.

(** ** The topological check of the decoder *)

(** What one resolution step does with a transient index [r] found in the
    cell at [ci]: it throws when [r < ci] and only then; from [r = ci] on
    the index is replaced by [cells_array[r]]. *)
Lemma resolveRef_transient (ci ri : nat) (cells_array : list HeapCell)
    (cell : HeapCell) (r : Z) :
  cells_array !! ci = Some cell →
  hrefs cell !! ri = Some (Transient r) →
  (Boc.resolveRef ci cells_array ri = Throw "Topological order is broken"
   ↔ r < Z.of_nat ci)
  ∧ (Z.of_nat ci ≤ r →
     Boc.resolveRef ci cells_array ri
     = Done (<[ci := mkHeapCell (hbits cell)
                       (<[ri := Boc.cellAt cells_array r]> (hrefs cell))
                       (hisExotic cell)]> cells_array)).
Proof.
  intros Hc Hr. unfold Boc.resolveRef. rewrite Hc, Hr.
  destruct (Z.ltb_spec r (Z.of_nat ci));
    (split; [split|]); intros; (done || lia).
Qed.


(** C2, the code at a self-reference: the decoder does not fail on the
    reference [r = 0] stored in cell [0]; it returns a root whose first
    reference is the root itself. *)
Theorem deserializeBoc_accepts_self_reference :
  Boc.deserializeBoc selfReferenceBoc
  = Done ([mkHeapCell (BitString.mk [] 0 0) [Pointer 0%nat] false],
          [Pointer 0%nat]).
Proof. vm_compute. reflexivity. Qed.

(** ** Bits of a byte array *)

Lemma land_mask_testbit (x k : Z) :
  0 ≤ k → (0 <? Z.land x (Z.shiftl 1 k)) = Z.testbit x k.
Proof.
  intros Hk. rewrite Z.shiftl_1_l.
  destruct (Z.testbit x k) eqn:Hb.
  - replace (Z.land x (2 ^ k)) with (2 ^ k).
    + apply Z.ltb_lt. apply Z.pow_pos_nonneg; lia.
    + apply Z.bits_inj'. intros i Hi. rewrite Z.land_spec, Z.pow2_bits_eqb by lia.
      destruct (Z.eqb_spec k i) as [->|]; [by rewrite Hb | by rewrite andb_false_r].
  - replace (Z.land x (2 ^ k)) with 0; [done|].
    symmetry. apply Z.bits_inj_0. intros i.
    destruct (Z.neg_nonneg_cases i) as [Hneg|Hi]; [by apply Z.testbit_neg_r|].
    rewrite Z.land_spec, Z.pow2_bits_eqb by lia.
    destruct (Z.eqb_spec k i) as [->|]; [by rewrite Hb | by rewrite andb_false_r].
Qed.

Lemma byteIndex_nonneg (n : Z) : 0 ≤ n → BitString.byteIndex n = n / 8.
Proof. intros. unfold BitString.byteIndex. apply Z.quot_div_nonneg; lia. Qed.

Lemma bitMask_nonneg (n : Z) :
  0 ≤ n → BitString.bitMask n = Z.shiftl 1 (7 - n mod 8).
Proof.
  intros. unfold BitString.bitMask. by rewrite Z.rem_mod_nonneg by lia.
Qed.

Lemma get_bitAt (b : BitString.t) (n : Z) :
  0 ≤ n → BitString.get b n = bitAt (BitString.array b) n.
Proof.
  intros Hn. unfold BitString.get, bitAt.
  rewrite byteIndex_nonneg, bitMask_nonneg by done.
  apply land_mask_testbit. pose proof (Z.mod_pos_bound n 8). lia.
Qed.

Lemma testbit_toUint8 (x k : Z) :
  0 ≤ k < 8 → Z.testbit (toUint8 x) k = Z.testbit x k.
Proof.
  intros Hk. unfold toUint8. change 256 with (2 ^ 8).
  apply Z.mod_pow2_bits_low. lia.
Qed.

Lemma readByte_updateByte (arr : list Z) (i j : Z) (f : Z → Z) :
  0 ≤ i → 0 ≤ j →
  readByte (updateByte arr i f) j
  = if decide (i = j ∧ (Z.to_nat i < length arr)%nat)
    then toUint8 (f (readByte arr i)) else readByte arr j.
Proof.
  intros Hi Hj. unfold readByte, updateByte.
  destruct (Z.ltb_spec i 0); [lia|]. destruct (Z.ltb_spec j 0); [lia|].
  destruct (decide (i = j ∧ (Z.to_nat i < length arr)%nat)) as [[-> Hlt]|Hne].
  - rewrite list_lookup_alter_eq.
    destruct (lookup_lt_is_Some_2 arr (Z.to_nat j) Hlt) as [v Hv].
    by rewrite Hv.
  - destruct (decide (i = j)) as [->|Hij].
    + rewrite list_lookup_alter_eq.
      rewrite (lookup_ge_None_2 arr (Z.to_nat j)) by lia. done.
    + rewrite list_lookup_alter_ne by lia. done.
Qed.

Lemma length_updateByte (arr : list Z) (i : Z) (f : Z → Z) :
  length (updateByte arr i f) = length arr.
Proof.
  unfold updateByte. destruct (i <? 0); [done|]. apply length_alter.
Qed.

Lemma same_bit_position (p c : Z) :
  p / 8 = c / 8 → p mod 8 = c mod 8 → p = c.
Proof.
  intros Hq Hr. rewrite (Z.div_mod p 8), (Z.div_mod c 8) by lia. lia.
Qed.

(** The bits of the array after [writeBit] put [v] at position [c]. *)
Lemma bitAt_write (arr : list Z) (c p : Z) (v : bool) :
  0 ≤ c → 0 ≤ p → c < 8 * Z.of_nat (length arr) →
  bitAt (updateByte arr (BitString.byteIndex c)
           (if v then (λ x, Z.lor x (BitString.bitMask c))
            else (λ x, Z.land x (Z.lnot (BitString.bitMask c))))) p
  = if decide (p = c) then v else bitAt arr p.
Proof.
  intros Hc Hp Hin. unfold bitAt.
  rewrite byteIndex_nonneg, bitMask_nonneg by done.
  assert (0 ≤ c / 8) by (apply Z.div_pos; lia).
  assert (0 ≤ p / 8) by (apply Z.div_pos; lia).
  assert (c / 8 < Z.of_nat (length arr)) by (apply Z.div_lt_upper_bound; lia).
  pose proof (Z.mod_pos_bound c 8). pose proof (Z.mod_pos_bound p 8).
  rewrite readByte_updateByte by done.
  destruct (decide (c / 8 = p / 8 ∧ (Z.to_nat (c / 8) < length arr)%nat))
    as [[Hq _]|Hne].
  - rewrite testbit_toUint8 by lia. rewrite <- Hq.
    destruct v.
    + rewrite Z.lor_spec, Z.shiftl_1_l, Z.pow2_bits_eqb by lia.
      destruct (decide (p = c)) as [->|Hpc].
      * rewrite Z.eqb_refl. apply orb_true_r.
      * destruct (Z.eqb_spec (7 - c mod 8) (7 - p mod 8)) as [He|_].
        -- exfalso. apply Hpc. apply same_bit_position; lia.
        -- apply orb_false_r.
    + rewrite Z.land_spec, Z.lnot_spec, Z.shiftl_1_l, Z.pow2_bits_eqb by lia.
      destruct (decide (p = c)) as [->|Hpc].
      * rewrite Z.eqb_refl. apply andb_false_r.
      * destruct (Z.eqb_spec (7 - c mod 8) (7 - p mod 8)) as [He|_].
        -- exfalso. apply Hpc. apply same_bit_position; lia.
        -- apply andb_true_r.
  - destruct (decide (p = c)) as [->|_]; [|done].
    exfalso. apply Hne. split; [done|lia].
Qed.

(** [writeBit] inside the buffer: the bit written, the others kept. *)
Lemma writeBit_spec (b : BitString.t) (v : bool) :
  0 ≤ BitString.cursor b ≤ BitString.length b →
  BitString.cursor b < 8 * Z.of_nat (length (BitString.array b)) →
  ∃ b', BitString.writeBit b v = Done b'
        ∧ BitString.cursor b' = BitString.cursor b + 1
        ∧ BitString.length b' = BitString.length b
        ∧ length (BitString.array b') = length (BitString.array b)
        ∧ ∀ p, 0 ≤ p →
            bitAt (BitString.array b') p
            = if decide (p = BitString.cursor b) then v
              else bitAt (BitString.array b) p.
Proof.
  intros Hc Hin. eexists. split; [apply writeBit_Done; lia|]. simpl.
  repeat split; [apply length_updateByte|].
  intros p Hp. apply bitAt_write; lia.
Qed.

(** [writeBitArray] inside the buffer. *)
Lemma writeBitArray_spec (ba : list bool) (b : BitString.t) :
  0 ≤ BitString.cursor b →
  BitString.cursor b + Z.of_nat (length ba) ≤ BitString.length b + 1 →
  BitString.cursor b + Z.of_nat (length ba)
    ≤ 8 * Z.of_nat (length (BitString.array b)) →
  ∃ b', BitString.writeBitArray b ba = Done b'
        ∧ BitString.cursor b' = BitString.cursor b + Z.of_nat (length ba)
        ∧ BitString.length b' = BitString.length b
        ∧ length (BitString.array b') = length (BitString.array b)
        ∧ ∀ p, 0 ≤ p →
            bitAt (BitString.array b') p
            = if decide (BitString.cursor b ≤ p
                         < BitString.cursor b + Z.of_nat (length ba))
              then default false (ba !! Z.to_nat (p - BitString.cursor b))
              else bitAt (BitString.array b) p.
Proof.
  revert b. induction ba as [|v ba IH]; intros b Hc Hlen Harr.
  - exists b. simpl. repeat split; try lia.
    intros p Hp. destruct (decide _); [lia|done].
  - simpl length in *.
    destruct (writeBit_spec b v) as (b1 & Hw & Hc1 & Hl1 & Ha1 & Hbits1); [lia..|].
    destruct (IH b1) as (b' & Hw' & Hc' & Hl' & Ha' & Hbits'); [lia..|].
    exists b'. unfold BitString.writeBitArray in *. simpl. rewrite Hw. simpl.
    split; [done|]. repeat split; [lia..|].
    intros p Hp. rewrite Hbits', Hbits1 by done. rewrite Hc1.
    destruct (decide (p = BitString.cursor b)) as [->|Hne].
    + rewrite decide_False by lia. rewrite decide_True by lia.
      by rewrite Z.sub_diag.
    + destruct (decide (BitString.cursor b + 1 ≤ p
                        < BitString.cursor b + 1 + Z.of_nat (length ba))).
      * rewrite decide_True by lia.
        replace (Z.to_nat (p - BitString.cursor b))
          with (S (Z.to_nat (p - (BitString.cursor b + 1)))) by lia.
        done.
      * rewrite decide_False by lia. done.
Qed.

Lemma writeZeros_writeBitArray (n : nat) (b : BitString.t) :
  BitString.writeZeros n b = BitString.writeBitArray b (replicate n false).
Proof.
  revert b. induction n as [|n IH]; intros b; [done|].
  unfold BitString.writeBitArray in *. simpl.
  destruct (BitString.writeBit b false); simpl; [apply IH|done..].
Qed.

Lemma slice_prefix {A} (arr : list A) (n : Z) :
  0 ≤ n ≤ Z.of_nat (length arr) → slice arr 0 n = take (Z.to_nat n) arr.
Proof.
  intros Hn. unfold slice, relativeIndex. simpl.
  destruct (Z.ltb_spec n 0); [lia|].
  rewrite Z.min_l, Z.min_l by lia.
  by rewrite Z.sub_0_r.
Qed.

Lemma bitAt_take (arr : list Z) (n : nat) (p : Z) :
  0 ≤ p < 8 * Z.of_nat n → bitAt (take n arr) p = bitAt arr p.
Proof.
  intros Hp. unfold bitAt, readByte.
  assert (0 ≤ p / 8) by (apply Z.div_pos; lia).
  assert (p / 8 < Z.of_nat n) by (apply Z.div_lt_upper_bound; lia).
  destruct (Z.ltb_spec (p / 8) 0); [lia|].
  rewrite lookup_take_lt by lia. done.
Qed.

(** The scan of [setTopUppedArray]: with the bits at the [j - 1] positions
    below the cursor clear and the next one set, the scan stops there. *)
Lemma findEndBit_spec (j : nat) : ∀ (c : nat) (b : BitString.t),
  (j < c)%nat →
  Z.of_nat j < BitString.cursor b →
  (∀ i, BitString.cursor b - Z.of_nat j ≤ i < BitString.cursor b →
        bitAt (BitString.array b) i = false) →
  bitAt (BitString.array b) (BitString.cursor b - Z.of_nat j - 1) = true →
  BitString.findEndBit c b
  = BitString.off (BitString.withCursor b (BitString.cursor b - Z.of_nat j - 1))
      (BitString.cursor b - Z.of_nat j - 1).
Proof.
  induction j as [|j IH]; intros c b Hjc Hcur Hzero Hone.
  - destruct c as [|c]; [lia|]. simpl.
    rewrite get_bitAt by (simpl; lia). simpl.
    replace (BitString.cursor b - Z.of_nat 0 - 1)
      with (BitString.cursor b - 1) in * by lia.
    by rewrite Hone.
  - destruct c as [|c]; [lia|]. simpl.
    rewrite get_bitAt by (simpl; lia). simpl.
    rewrite Hzero by lia.
    assert (Hpos : BitString.cursor b - 1 - Z.of_nat j - 1
                   = BitString.cursor b - Z.of_nat (S j) - 1) by lia.
    rewrite (IH c); simpl; try lia.
    + unfold BitString.withCursor. simpl. by rewrite Hpos.
    + intros; apply Hzero; lia.
    + by rewrite Hpos.
Qed.

(** ** The top-upped array *)

Lemma clone_id (b : BitString.t) : BitString.clone b = b.
Proof. by destruct b. Qed.


Lemma getTopUppedArray_spec (b : BitString.t) :
  arraySized b →
  0 ≤ BitString.cursor b ≤ BitString.length b →
  paddingFits b →
  ∃ arr, BitString.getTopUppedArray b = Done arr
         ∧ Z.of_nat (length arr) = ceilDiv (BitString.cursor b) 8
         ∧ (∀ p, 0 ≤ p < BitString.cursor b →
                 bitAt arr p = bitAt (BitString.array b) p)
         ∧ (BitString.cursor b mod 8 ≠ 0 →
            bitAt arr (BitString.cursor b) = true
            ∧ ∀ p, BitString.cursor b < p < 8 * ceilDiv (BitString.cursor b) 8 →
                   bitAt arr p = false).
Proof.
  unfold arraySized, paddingFits. destruct b as [a k L]. simpl.
  intros Hsz Hk Hfit.
  unfold BitString.getTopUppedArray. rewrite clone_id. simpl.
  pose proof (Z.div_mod k 8 ltac:(lia)) as Hdm.
  pose proof (Z.mod_pos_bound k 8 ltac:(lia)) as Hmod.
  pose proof (Z.div_mod L 8 ltac:(lia)) as HdmL.
  pose proof (Z.mod_pos_bound L 8 ltac:(lia)) as HmodL.
  assert (0 ≤ k / 8) by (apply Z.div_pos; lia).
  assert (0 ≤ L / 8) by (apply Z.div_pos; lia).
  assert (HlenA : Z.of_nat (length a) = ceilDiv L 8).
  { rewrite Hsz. rewrite Z2Nat.id; [done|].
    rewrite ceilDiv_spec by lia. destruct (L mod 8 =? 0); lia. }
  rewrite (ceilDiv_spec L 8) in HlenA by lia.
  rewrite (ceilDiv_spec k 8) in * by lia.
  destruct (Z.eqb_spec (k mod 8) 0) as [Hz|Hnz].
  - (* byte-aligned: nothing is appended *)
    replace (k / 8 * 8 - k) with 0 by lia. simpl.
    assert (k / 8 ≤ Z.of_nat (length a)).
    { destruct (L mod 8 =? 0); nia. }
    rewrite (ceilDiv_spec k 8) by lia. rewrite Hz. simpl.
    rewrite slice_prefix by lia.
    eexists. split; [done|]. rewrite length_take.
    split; [lia|]. split; [|done].
    intros p Hp. apply bitAt_take. lia.
  - (* a 1 bit and then zeros up to the next byte boundary *)
    destruct Hfit as [?|Hfit]; [done|].
    assert (Hcap : k / 8 + 1 ≤ Z.of_nat (length a)).
    { destruct (Z.eqb_spec (L mod 8) 0); nia. }
    destruct (Z.ltb_spec 0 ((k / 8 + 1) * 8 - k)) as [_|?]; [|lia].
    destruct (writeBit_spec (BitString.mk a k L) true)
      as (b1 & Hw1 & Hc1 & Hl1 & Ha1 & Hbits1); simpl; [lia..|].
    rewrite Hw1. simpl in *. rewrite writeZeros_writeBitArray.
    destruct (writeBitArray_spec
                (replicate (Z.to_nat ((k / 8 + 1) * 8 - k - 1)) false) b1)
      as (b2 & Hw2 & Hc2 & Hl2 & Ha2 & Hbits2);
      rewrite ?length_replicate; [lia..|].
    rewrite Hw2. simpl. rewrite length_replicate in Hc2, Hbits2.
    assert (Hc2' : BitString.cursor b2 = (k / 8 + 1) * 8) by lia.
    rewrite Hc2'. rewrite (ceilDiv_spec _ 8) by lia.
    rewrite Z.mod_mul, Z.div_mul by lia. simpl.
    rewrite slice_prefix by lia.
    eexists. split; [done|]. rewrite length_take.
    split; [lia|].
    assert (Hbits : ∀ p, 0 ≤ p < (k / 8 + 1) * 8 →
              bitAt (take (Z.to_nat (k / 8 + 1)) (BitString.array b2)) p
              = if decide (k + 1 ≤ p) then false
                else if decide (p = k) then true else bitAt a p).
    { intros p Hp. rewrite bitAt_take by lia.
      rewrite Hbits2 by lia. rewrite Hc1.
      destruct (decide (k + 1 ≤ p)).
      - rewrite decide_True by lia.
        destruct (_ !! _) as [v|] eqn:Hlk; [|done].
        apply lookup_replicate in Hlk as [-> _]. done.
      - rewrite decide_False by lia. apply Hbits1. lia. }
    split; [|intros _; split].
    + intros p Hp. rewrite Hbits by lia.
      rewrite decide_False by lia. rewrite decide_False by lia. done.
    + rewrite Hbits by lia. rewrite decide_False by lia.
      rewrite decide_True by lia. done.
    + intros p Hp. rewrite Hbits by lia. rewrite decide_True by lia. done.
Qed.

(** C3, as the code has it: when the padding of the last byte passes the
    range check (the cursor is byte-aligned, or the next byte boundary is at
    most one past the capacity, as it always is for the capacity 1023 of a
    cell), [setTopUppedArray(getTopUppedArray(B), B.cursor % 8 == 0)] gives
    back the cursor of [B] and every bit of [B] below it. *)
Theorem topUpped_round_trip (B this : BitString.t) :
  arraySized B →
  0 ≤ BitString.cursor B ≤ BitString.length B →
  paddingFits B →
  ∃ arr b',
    BitString.getTopUppedArray B = Done arr
    ∧ BitString.setTopUppedArray this arr (Z.rem (BitString.cursor B) 8 =? 0)
      = Done b'
    ∧ BitString.cursor b' = BitString.cursor B
    ∧ ∀ p, 0 ≤ p < BitString.cursor B → BitString.get b' p = BitString.get B p.
Proof.
  intros Hsz Hk Hfit.
  destruct (getTopUppedArray_spec B Hsz Hk Hfit)
    as (arr & Hget & Hlen & Hlow & Hend).
  exists arr. rewrite Hget.
  set (k := BitString.cursor B) in *.
  pose proof (Z.div_mod k 8 ltac:(lia)) as Hdm.
  pose proof (Z.mod_pos_bound k 8 ltac:(lia)) as Hmod.
  assert (0 ≤ k / 8) by (apply Z.div_pos; lia).
  rewrite (ceilDiv_spec k 8) in * by lia.
  unfold BitString.setTopUppedArray. rewrite Z.rem_mod_nonneg by lia.
  destruct (Z.eqb_spec (k mod 8) 0) as [Hz|Hnz]; cbn [orb].
  - eexists. split; [done|]. split; [done|]. simpl. split; [lia|].
    intros p Hp. rewrite !get_bitAt by lia. simpl. apply Hlow. lia.
  - destruct (Hend Hnz) as [Hone Hzero].
    destruct (Z.eqb_spec (Z.of_nat (length arr) * 8) 0) as [?|_]; [lia|].
    set (tuB := BitString.mk arr (Z.of_nat (length arr) * 8)
                  (Z.of_nat (length arr) * 8)).
    rewrite (findEndBit_spec (Z.to_nat (7 - k mod 8)) 7 tuB); subst tuB; simpl.
    + rewrite Z2Nat.id by lia.
      replace (Z.of_nat (length arr) * 8 - (7 - k mod 8) - 1) with k by lia.
      unfold BitString.off, BitString.checkRange. simpl.
      destruct (Z.ltb_spec (Z.of_nat (length arr) * 8) k); [lia|]. simpl.
      eexists. split; [done|]. split; [done|]. split; [done|].
      intros p Hp. rewrite !get_bitAt by lia. simpl.
      rewrite (bitAt_write arr k p false) by lia.
      rewrite decide_False by lia. apply Hlow. lia.
    + lia.
    + lia.
    + intros i Hi. apply Hzero. lia.
    + rewrite Z2Nat.id by lia.
      replace (Z.of_nat (length arr) * 8 - (7 - k mod 8) - 1) with k by lia.
      done.
Qed.

Lemma topUpped_round_trip_witness :
  let B := BitString.mk (replicate 128 0) 1023 1023 in
  ∃ arr b',
    BitString.getTopUppedArray B = Done arr
    ∧ BitString.setTopUppedArray (BitString.new 0) arr
        (Z.rem (BitString.cursor B) 8 =? 0) = Done b'
    ∧ BitString.cursor b' = BitString.cursor B
    ∧ ∀ p, 0 ≤ p < BitString.cursor B → BitString.get b' p = BitString.get B p.
Proof.
  intros B. apply (topUpped_round_trip B (BitString.new 0)).
  - reflexivity.
  - simpl. lia.
  - right. vm_compute. discriminate.
Defined.

(** C3 fails for a capacity whose last byte has room for data but not for
    the padding: with capacity 10 and 9 bits written, the zeros of the
    padding run into the range check and [getTopUppedArray] throws. *)
Lemma topUpped_padding_overflow :
  ∃ B, BitString.writeBitArray (BitString.new 10) (replicate 9 false) = Done B
       ∧ BitString.cursor B = 9
       ∧ BitString.length B = 10
       ∧ BitString.getTopUppedArray B = Throw "BitString overflow".
Proof. eexists. split; [vm_compute; reflexivity|]. by vm_compute. Qed.

(** ** The bits descriptor *)

(** C7: for a cursor [c] in [0, 1023] the descriptor byte is
    [floor(c/8) + ceil(c/8)], the decoder's [ceil(d2/2)] is [ceil(c/8)],
    [d2] is even exactly when [c] is a multiple of 8, and for the buffer of
    a cell (capacity 1023) [ceil(d2/2)] is the number of bytes of the
    top-upped data. *)
Theorem bitsDescriptor_inversion (c : Cell.t) :
  let cur := BitString.cursor (Cell.bits c) in
  let d2 := floorDiv cur 8 + ceilDiv cur 8 in
  0 ≤ cur ≤ 1023 →
  Cell.getBitsDescriptor c = [d2]
  ∧ Boc.dataBytesize d2 = ceilDiv cur 8
  ∧ (Boc.fullfilledBytes d2 = true ↔ cur mod 8 = 0)
  ∧ (Z.even d2 = true ↔ cur mod 8 = 0)
  ∧ (BitString.length (Cell.bits c) = 1023 → arraySized (Cell.bits c) →
     ∃ tuBits, BitString.getTopUppedArray (Cell.bits c) = Done tuBits
               ∧ Z.of_nat (length tuBits) = Boc.dataBytesize d2).
Proof.
  intros cur d2 Hc.
  assert (Htu : BitString.length (Cell.bits c) = 1023 → arraySized (Cell.bits c) →
            ∃ tuBits, BitString.getTopUppedArray (Cell.bits c) = Done tuBits
                      ∧ Z.of_nat (length tuBits) = ceilDiv cur 8).
  { intros Hlen Hsz.
    destruct (getTopUppedArray_spec (Cell.bits c)) as (arr & Hrun & Hl & _).
    - done.
    - fold cur. lia.
    - right. fold cur. rewrite Hlen. rewrite ceilDiv_spec by lia.
      assert (cur / 8 < 128) by (apply Z.div_lt_upper_bound; lia).
      destruct (_ =? 0); lia.
    - exists arr. split; [done|]. exact Hl. }
  cut (Cell.getBitsDescriptor c = [d2]
       ∧ Boc.dataBytesize d2 = ceilDiv cur 8
       ∧ (Boc.fullfilledBytes d2 = true ↔ cur mod 8 = 0)
       ∧ (Z.even d2 = true ↔ cur mod 8 = 0)).
  { intros (H1 & H2 & H3 & H4). rewrite H2. done. }
  clear Htu. subst d2.
  unfold Cell.getBitsDescriptor, Boc.dataBytesize, Boc.fullfilledBytes,
    floorDiv, toUint8. fold cur.
  rewrite (ceilDiv_spec cur 8) by lia.
  assert (0 ≤ cur / 8) by (apply Z.div_pos; lia).
  assert (cur / 8 < 128) by (apply Z.div_lt_upper_bound; lia).
  destruct (Z.eqb_spec (cur mod 8) 0) as [Hz|Hn].
  - replace (cur / 8 + cur / 8) with ((cur / 8) * 2) by lia.
    rewrite Z.mod_small by lia.
    rewrite (ceilDiv_spec _ 2) by lia.
    rewrite Z.mod_mul, Z.div_mul by lia. simpl.
    rewrite Z.rem_mul by lia. rewrite Z.even_mul. simpl.
    rewrite orb_true_r. done.
  - replace (cur / 8 + (cur / 8 + 1)) with (1 + (cur / 8) * 2) by lia.
    rewrite Z.mod_small by lia.
    rewrite (ceilDiv_spec _ 2) by lia.
    rewrite Z.mod_add, Z.div_add by lia. simpl.
    rewrite Z.rem_mod_nonneg by lia. rewrite Z.mod_add by lia.
    change (1 `div` 2) with 0. change (1 `mod` 2 =? 0) with false.
    rewrite Z.even_add, Z.even_mul. simpl. rewrite orb_true_r. simpl.
    repeat split; try (intros; (done || lia)).
    f_equal. lia.
Qed.

Lemma bitsDescriptor_inversion_witness :
  let c := Cell.mk (BitString.mk (replicate 128 0) 5 1023) [] false in
  Cell.getBitsDescriptor c = [1]
  ∧ Boc.dataBytesize 1 = 1
  ∧ (Boc.fullfilledBytes 1 = true ↔ 5 mod 8 = 0)
  ∧ (Z.even 1 = true ↔ 5 mod 8 = 0)
  ∧ (BitString.length (Cell.bits c) = 1023 → arraySized (Cell.bits c) →
     ∃ tuBits, BitString.getTopUppedArray (Cell.bits c) = Done tuBits
               ∧ Z.of_nat (length tuBits) = Boc.dataBytesize 1).
Proof.
  intros c. apply (bitsDescriptor_inversion c). simpl. lia.
Defined.

(** ** Binary digits *)


Lemma digitChar_isOne (c : ascii) : binaryDigit c → digitChar (isOne c) = c.
Proof. by intros [-> | ->]. Qed.

Lemma posBits_binary (p : positive) : Forall binaryDigit (BN.posBits p).
Proof.
  induction p; simpl; rewrite ?Forall_app, ?Forall_singleton;
    unfold binaryDigit; auto.
Qed.

Lemma magnitudeBits_binary (n : Z) : Forall binaryDigit (BN.magnitudeBits n).
Proof.
  destruct n; simpl; try apply posBits_binary.
  apply Forall_singleton. by left.
Qed.

Lemma ofString2_snoc (l : list ascii) (c : ascii) :
  BN.ofString2 (l ++ [c]) = 2 * BN.ofString2 l + BN.digitValue c.
Proof. unfold BN.ofString2. by rewrite fold_left_app. Qed.

Lemma ofString2_posBits (p : positive) : BN.ofString2 (BN.posBits p) = Z.pos p.
Proof.
  induction p as [p IH|p IH|]; simpl; [| |done];
    rewrite ofString2_snoc, IH; unfold BN.digitValue; simpl; lia.
Qed.

Lemma ofString2_magnitudeBits (n : Z) :
  0 ≤ n → BN.ofString2 (BN.magnitudeBits n) = n.
Proof. destruct n; [done| |lia]. intros _. apply ofString2_posBits. Qed.

Lemma ofString2_leading_zeros (k : nat) (l : list ascii) :
  BN.ofString2 (replicate k "0"%char ++ l) = BN.ofString2 l.
Proof.
  unfold BN.ofString2. rewrite fold_left_app. f_equal.
  induction k as [|k IH]; [done|]. simpl. exact IH.
Qed.

Lemma length_posBits (p : positive) (k : nat) :
  Z.pos p < 2 ^ Z.of_nat k → (length (BN.posBits p) ≤ k)%nat.
Proof.
  revert k. induction p as [p IH|p IH|]; intros k Hlt; simpl.
  - destruct k as [|k]; [simpl in Hlt; lia|].
    rewrite length_app. simpl.
    rewrite Nat2Z.inj_succ, Z.pow_succ_r in Hlt by lia.
    specialize (IH k). lia.
  - destruct k as [|k]; [simpl in Hlt; lia|].
    rewrite length_app. simpl.
    rewrite Nat2Z.inj_succ, Z.pow_succ_r in Hlt by lia.
    specialize (IH k). lia.
  - destruct k as [|k]; [simpl in Hlt; lia|]. lia.
Qed.

Lemma length_magnitudeBits (m k : Z) :
  1 ≤ k → 0 ≤ m < 2 ^ k → Z.of_nat (length (BN.magnitudeBits m)) ≤ k.
Proof.
  intros Hk Hm. destruct m as [|p|p]; simpl; [lia| |lia].
  pose proof (length_posBits p (Z.to_nat k)) as Hlen.
  rewrite Z2Nat.id in Hlen by lia. specialize (Hlen ltac:(lia)). lia.
Qed.

Lemma length_magnitudeBits_pos (m : Z) : (1 ≤ length (BN.magnitudeBits m))%nat.
Proof.
  assert (∀ p, (1 ≤ length (BN.posBits p))%nat).
  { induction p; simpl; rewrite ?length_app; simpl; lia. }
  destruct m; simpl; auto.
Qed.

Lemma toString2_unpadded (m : Z) : 0 ≤ m → BN.toString2 m 1 = BN.magnitudeBits m.
Proof.
  intros Hm. unfold BN.toString2. simpl.
  rewrite Z.mod_1_r. simpl.
  destruct (Z.ltb_spec m 0); [lia|done].
Qed.

(** The digits [writeUint] walks over: as many as the width, all binary,
    and with the value of the number. *)
Lemma toString2_padded (m k : Z) :
  1 ≤ k → 0 ≤ m < 2 ^ k →
  Z.of_nat (length (BN.toString2 m k)) = k
  ∧ Forall binaryDigit (BN.toString2 m k)
  ∧ BN.ofString2 (BN.toString2 m k) = m.
Proof.
  intros Hk Hm. unfold BN.toString2.
  destruct (Z.eqb_spec k 0); [lia|]. rewrite Z.abs_eq by lia.
  destruct (Z.ltb_spec m 0); [lia|].
  pose proof (length_magnitudeBits m k Hk Hm) as Hle.
  pose proof (length_magnitudeBits_pos m) as Hpos.
  set (len := Z.of_nat (length (BN.magnitudeBits m))) in *.
  assert (Hpad : (k - len mod k) mod k = k - len).
  { destruct (decide (len = k)) as [->|Hne].
    - rewrite Z.mod_same by lia. rewrite Z.sub_0_r, Z.mod_same by lia. lia.
    - rewrite (Z.mod_small len k) by lia. apply Z.mod_small. lia. }
  rewrite Hpad. split; [|split].
  - rewrite length_app, length_replicate. subst len. lia.
  - apply Forall_app. split; [|apply magnitudeBits_binary].
    apply Forall_forall. intros c Hc. apply elem_of_replicate in Hc as [-> _].
    by left.
  - rewrite ofString2_leading_zeros. apply ofString2_magnitudeBits. lia.
Qed.

(** ** Writing and reading integers *)

Lemma forEachM_map {A B S} (f : S → B → result S) (g : A → B)
    (l : list A) (s : S) :
  forEachM (λ s x, f s (g x)) l s = forEachM f (map g l) s.
Proof.
  revert s. induction l as [|x l IH]; intros s; [done|]. simpl.
  destruct (f s (g x)); simpl; [apply IH|done..].
Qed.

Lemma digits_by_index (s : list ascii) :
  map (λ i, bool_decide (s !! i = Some "1"%char)) (seq 0 (length s))
  = map isOne s.
Proof.
  apply list_eq. intros i. rewrite !list_lookup_fmap.
  destruct (decide (i < length s)%nat) as [Hlt|Hge].
  - rewrite lookup_seq_lt by done. simpl.
    destruct (lookup_lt_is_Some_2 s i Hlt) as [c Hc]. rewrite Hc. simpl.
    f_equal. unfold isOne. apply bool_decide_ext. split; congruence.
  - rewrite lookup_seq_ge by lia. rewrite (lookup_ge_None_2 s i) by lia. done.
Qed.

(** [writeUint] of a number that fits writes its padded binary digits. *)
Lemma writeUint_digits (b : BitString.t) (m k : Z) :
  1 ≤ k → 0 ≤ m < 2 ^ k →
  BitString.writeUint b m k
  = BitString.writeBitArray b (map isOne (BN.toString2 m k)).
Proof.
  intros Hk Hm. unfold BitString.writeUint.
  destruct (Z.eqb_spec k 0); [lia|]. simpl.
  rewrite toString2_unpadded by lia.
  pose proof (length_magnitudeBits m k Hk Hm).
  destruct (Z.ltb_spec k (Z.of_nat (length (BN.magnitudeBits m)))); [lia|].
  destruct (toString2_padded m k Hk Hm) as (Hlen & _ & _).
  replace (Z.to_nat k) with (length (BN.toString2 m k)) by lia.
  rewrite (forEachM_map BitString.writeBit
             (λ i, bool_decide (BN.toString2 m k !! i = Some "1"%char))).
  by rewrite digits_by_index.
Qed.

Lemma slice_get_bitAt (s : Slice.t) (n : Z) :
  0 ≤ n ≤ Slice.length s → Slice.get s n = Done (bitAt (Slice.array s) n).
Proof.
  intros Hn. unfold Slice.get, Slice.checkRange.
  destruct (Z.ltb_spec (Slice.length s) n); [lia|]. simpl. f_equal.
  unfold bitAt. rewrite byteIndex_nonneg, bitMask_nonneg by lia.
  apply land_mask_testbit. pose proof (Z.mod_pos_bound n 8). lia.
Qed.

(** [loadDigits] inside the slice: one digit per bit, the cursor moved. *)
Lemma loadDigits_spec (n : nat) (str : list ascii) (s : Slice.t) :
  0 ≤ Slice.readCursor s →
  Slice.readCursor s + Z.of_nat n ≤ Slice.length s + 1 →
  Slice.loadDigits n str s
  = Done (str ++ map (λ i, digitChar
                             (bitAt (Slice.array s)
                                (Slice.readCursor s + Z.of_nat i)))
                   (seq 0 n),
          Slice.withReadCursor s (Slice.readCursor s + Z.of_nat n)).
Proof.
  revert str s. induction n as [|n IH]; intros str s Hrc Hlen.
  - simpl. rewrite app_nil_r, Z.add_0_r. by destruct s.
  - simpl Slice.loadDigits. unfold Slice.loadBit.
    rewrite slice_get_bitAt by lia. simpl.
    rewrite IH by (simpl; lia). simpl.
    rewrite <- app_assoc. simpl. rewrite Z.add_0_r.
    rewrite <- seq_shift, map_map.
    f_equal. f_equal.
    + f_equal. f_equal. apply map_ext. intros i. do 2 f_equal. lia.
    + unfold Slice.withReadCursor. simpl. f_equal. lia.
Qed.

(** Unsigned round trip: [loadUint(k)] at the place where [writeUint(m, k)]
    wrote gives [m] back, and the bits written before are kept. *)
Lemma unsigned_round_trip (b : BitString.t) (m k : Z) :
  1 ≤ k → 0 ≤ m < 2 ^ k →
  0 ≤ BitString.cursor b →
  BitString.cursor b + k ≤ BitString.length b + 1 →
  BitString.cursor b + k ≤ 8 * Z.of_nat (length (BitString.array b)) →
  ∃ b', BitString.writeUint b m k = Done b'
        ∧ BitString.cursor b' = BitString.cursor b + k
        ∧ BitString.length b' = BitString.length b
        ∧ (∀ p, 0 ≤ p < BitString.cursor b →
                bitAt (BitString.array b') p = bitAt (BitString.array b) p)
        ∧ ∀ refs refCursor,
            Slice.loadUint
              (Slice.mk (BitString.array b') (BitString.length b')
                 (BitString.cursor b) refs refCursor) k
            = Done (m, Slice.mk (BitString.array b') (BitString.length b')
                         (BitString.cursor b + k) refs refCursor).
Proof.
  intros Hk Hm Hc Hfree Harr.
  destruct (toString2_padded m k Hk Hm) as (Hlen & Hbin & Hval).
  rewrite writeUint_digits by done.
  destruct (writeBitArray_spec (map isOne (BN.toString2 m k)) b)
    as (b' & Hw & Hc' & Hl' & Ha' & Hbits); rewrite ?length_map; [lia..|].
  rewrite length_map in Hc', Hbits.
  exists b'. split; [done|]. split; [lia|]. split; [done|]. split.
  - intros p Hp. rewrite Hbits by lia. rewrite decide_False by lia. done.
  - intros refs refCursor. unfold Slice.loadUint.
    destruct (Z.ltb_spec k 1); [lia|].
    rewrite loadDigits_spec by (simpl; lia). simpl.
    unfold Slice.withReadCursor. simpl. rewrite Z2Nat.id by lia.
    do 2 f_equal. etrans; [|exact Hval]. f_equal.
    replace (Z.to_nat k) with (length (BN.toString2 m k)) by lia.
    apply list_eq. intros i. rewrite list_lookup_fmap.
    destruct (decide (i < length (BN.toString2 m k))%nat) as [Hlt|Hge].
    + rewrite lookup_seq_lt by done. simpl.
      rewrite Hbits by lia. rewrite decide_True by lia.
      replace (Z.to_nat (BitString.cursor b + Z.of_nat i - BitString.cursor b))
        with i by lia.
      rewrite list_lookup_fmap.
      destruct (lookup_lt_is_Some_2 _ i Hlt) as [c Hlk]. rewrite Hlk. simpl.
      f_equal. apply digitChar_isOne.
      eapply Forall_lookup_1; eauto.
    + rewrite lookup_seq_ge by lia. simpl.
      rewrite lookup_ge_None_2 by lia. done.
Qed.



(** ** The cells under a cell *)

Lemma childCells_cons_cell (b : BitString.t) (s : Cell.t)
    (rs : list (Ref Cell.t)) (e : bool) :
  Cell.childCells (Cell.mk b (RefCell s :: rs) e)
  = s :: Cell.childCells (Cell.mk b rs e).
Proof. reflexivity. Qed.

Lemma childCells_cons_num (b : BitString.t) (n : Z)
    (rs : list (Ref Cell.t)) (e : bool) :
  Cell.childCells (Cell.mk b (RefNum n :: rs) e)
  = Cell.childCells (Cell.mk b rs e).
Proof. reflexivity. Qed.

Lemma elem_of_childCells (c s : Cell.t) :
  s ∈ Cell.childCells c ↔ RefCell s ∈ Cell.refs c.
Proof.
  unfold Cell.childCells. rewrite list_elem_of_omap. split.
  - intros ([s'|n] & Hin & Heq); simplify_eq. done.
  - intros Hin. exists (RefCell s). done.
Qed.

Lemma subcells_unfold (c : Cell.t) :
  subcells c = c :: mjoin (map subcells (Cell.childCells c)).
Proof.
  destruct c as [b rs e]. simpl. f_equal.
  induction rs as [|[s|n] rs IH].
  - done.
  - rewrite childCells_cons_cell. simpl. by rewrite IH.
  - rewrite childCells_cons_num. done.
Qed.

Lemma rank_unfold (c : Cell.t) :
  rank c = max_list (map (λ s, S (rank s)) (Cell.childCells c)).
Proof.
  destruct c as [b rs e]. simpl.
  induction rs as [|[s|n] rs IH].
  - done.
  - rewrite childCells_cons_cell. simpl. by rewrite IH.
  - rewrite childCells_cons_num. done.
Qed.

Lemma rank_child (c s : Cell.t) : s ∈ Cell.childCells c → (rank s < rank c)%nat.
Proof.
  intros Hin. rewrite (rank_unfold c).
  assert (S (rank s) ∈ map (λ s, S (rank s)) (Cell.childCells c)) as Hm.
  { apply list_elem_of_fmap. eauto. }
  apply max_list_elem_of_le in Hm. lia.
Qed.

Lemma elem_of_subcells (c d : Cell.t) :
  d ∈ subcells c ↔ d = c ∨ ∃ s, s ∈ Cell.childCells c ∧ d ∈ subcells s.
Proof.
  rewrite (subcells_unfold c), elem_of_cons. apply or_iff_compat_l.
  rewrite list_elem_of_join. split.
  - intros (l & Hd & Hl). apply list_elem_of_fmap in Hl as (s & -> & Hs). eauto.
  - intros (s & Hs & Hd). exists (subcells s). split; [done|].
    apply list_elem_of_fmap. eauto.
Qed.

Lemma subcells_self (c : Cell.t) : c ∈ subcells c.
Proof. apply elem_of_subcells. by left. Qed.

Lemma subcells_child (c s : Cell.t) : s ∈ Cell.childCells c → s ∈ subcells c.
Proof.
  intros Hs. apply elem_of_subcells. right. exists s. split; [done|].
  apply subcells_self.
Qed.

Lemma subcells_trans (c d e : Cell.t) :
  d ∈ subcells c → e ∈ subcells d → e ∈ subcells c.
Proof.
  remember (rank c) as n eqn:Hn. revert c Hn d e.
  induction (lt_wf n) as [n _ IH]. intros c -> d e Hd He.
  apply elem_of_subcells in Hd as [->|(s & Hs & Hd)]; [done|].
  apply elem_of_subcells. right. exists s. split; [done|].
  eapply (IH (rank s)); eauto. by apply rank_child.
Qed.

(** ** The references [serializeForBoc] writes *)

Lemma fold_left_concatBytes (l : list (list Z)) (acc : list Z) :
  fold_left Utils.concatBytes l acc = acc ++ mjoin l.
Proof.
  revert acc. induction l as [|x l IH]; intros acc; simpl.
  - by rewrite app_nil_r.
  - rewrite IH. unfold Utils.concatBytes. by rewrite app_assoc.
Qed.

Section References.

Context (hash : Cell.t → list Z) (uint8ArrayToText : list Z → string).

(** The body of a cell is its data with descriptors followed, for each
    child cell in order, by the bytes of the index found for it. *)
Lemma serializeForBoc_references (cell : Cell.t) (cellsIndex : gmap string nat)
    (x : list Z) :
  serializeForBoc hash uint8ArrayToText cell cellsIndex = Done x →
  ∃ dataWithDescriptors (js : list nat) (refs : list (list Z)),
    Cell.getDataWithDescriptors cell = Done dataWithDescriptors
    ∧ refIndexInts hash uint8ArrayToText cell cellsIndex = map Some js
    ∧ Forall2 (λ j reference, referenceBytes j = Done reference) js refs
    ∧ x = dataWithDescriptors ++ mjoin refs.
Proof.
  unfold serializeForBoc, refIndexInts, Cell.childCells. intros Hrun.
  apply bind_Done in Hrun as (dwd & Hdwd & Hrun).
  apply bind_Done in Hrun as (repr & Hloop & Hrun). injection Hrun as <-.
  exists dwd.
  assert (Hgen : ∀ rs acc repr,
            forEachM
              (λ (reprArray : list (list Z)) (cell : Ref Cell.t),
                 match cell with
                 | RefNum _ => Done reprArray
                 | RefCell cell =>
                     match cellsIndex !! uint8ArrayToText (hash cell) with
                     | None => Throw "TypeError: refIndexInt is undefined"
                     | Some refIndexInt =>
                         reference ← referenceBytes refIndexInt;
                         Done (reprArray ++ [reference])
                     end
                 end) rs acc = Done repr →
            ∃ js refs,
              map (λ c, cellsIndex !! uint8ArrayToText (hash c))
                (omap (λ r, match r with
                            | RefCell s => Some s
                            | RefNum _ => None
                            end) rs) = map Some js
              ∧ Forall2 (λ j reference, referenceBytes j = Done reference) js refs
              ∧ repr = acc ++ refs).
  { induction rs as [|[s|n] rs IH]; intros acc repr' Hrs.
    - injection Hrs as <-. exists [], []. by rewrite app_nil_r.
    - simpl in Hrs. apply bind_Done in Hrs as (acc' & Hstep & Hrs).
      destruct (cellsIndex !! uint8ArrayToText (hash s)) as [j|] eqn:Hj;
        [|done].
      apply bind_Done in Hstep as (reference & Href & Hstep).
      injection Hstep as <-.
      destruct (IH _ _ Hrs) as (js & refs & Hjs & Hrefs & ->).
      exists (j :: js), (reference :: refs). split; [|split].
      + simpl. rewrite Hj. f_equal. exact Hjs.
      + by constructor.
      + by rewrite <- app_assoc.
    - simpl in Hrs. destruct (IH _ _ Hrs) as (js & refs & Hjs & Hrefs & ->).
      by exists js, refs. }
  destruct (Hgen _ _ _ Hloop) as (js & refs & Hjs & Hrefs & ->).
  exists js, refs. split; [done|]. split; [done|]. split; [done|].
  rewrite fold_left_concatBytes. simpl. done.
Qed.

End References.

(** ** The topological walk *)

Section Walk.

Context (hash : Cell.t → list Z) (uint8ArrayToText : list Z → string).
Context (root : Cell.t).
Hypothesis collision_free : collisionFree hash uint8ArrayToText root.

Local Open Scope nat_scope.

Abbreviation key := (cellKey hash uint8ArrayToText).
Abbreviation keys := (keysOf uint8ArrayToText).
Abbreviation bef := (before uint8ArrayToText).
Abbreviation Indexed := (indexed hash uint8ArrayToText root).
Abbreviation Settled := (settled hash uint8ArrayToText).

(** *** Keys and cells *)

Lemma max_rank_ext (l1 l2 : list Cell.t) :
  map key l1 = map key l2 →
  (∀ a b, a ∈ l1 → b ∈ l2 → key a = key b → rank a = rank b) →
  max_list (map (λ s, S (rank s)) l1) = max_list (map (λ s, S (rank s)) l2).
Proof.
  revert l2. induction l1 as [|a l1 IH]; intros [|b l2] Hmap Hrank;
    try discriminate; [done|].
  simpl in *. injection Hmap as Hab Hmap.
  rewrite (Hrank a b) by (done || apply elem_of_cons; by left).
  rewrite (IH l2); [done|done|].
  intros a' b' Ha Hb. apply Hrank; apply elem_of_cons; by right.
Qed.

Lemma key_rank (c1 c2 : Cell.t) :
  c1 ∈ subcells root → c2 ∈ subcells root → key c1 = key c2 →
  rank c1 = rank c2.
Proof.
  remember (rank c1) as n eqn:Hn. revert c1 Hn c2.
  induction (lt_wf n) as [n _ IH]. intros c1 -> c2 H1 H2 Hkey.
  rewrite (rank_unfold c1), (rank_unfold c2).
  apply max_rank_ext; [by apply collision_free|].
  intros a b Ha Hb Hab. eapply (IH (rank a)); eauto.
  - by apply rank_child.
  - eapply subcells_trans; [exact H1|by apply subcells_child].
  - eapply subcells_trans; [exact H2|by apply subcells_child].
Qed.

Lemma child_key_match (c d s : Cell.t) :
  c ∈ subcells root → d ∈ subcells root → key c = key d →
  s ∈ Cell.childCells d →
  ∃ s', s' ∈ Cell.childCells c ∧ key s' = key s.
Proof.
  intros Hc Hd Hkey Hs.
  assert (key s ∈ map key (Cell.childCells c)) as Hin.
  { rewrite (collision_free c d Hc Hd Hkey). apply list_elem_of_fmap. eauto. }
  apply list_elem_of_fmap in Hin as (s' & Heq & Hs'). eauto.
Qed.

Lemma under_key_match (c d : Cell.t) :
  c ∈ subcells root → d ∈ subcells root → key c = key d →
  ∀ e, e ∈ subcells d → ∃ e', e' ∈ subcells c ∧ key e' = key e.
Proof.
  remember (rank d) as n eqn:Hn. revert c d Hn.
  induction (lt_wf n) as [n _ IH]. intros c d -> Hc Hd Hkey e He.
  apply elem_of_subcells in He as [->|(s & Hs & He)].
  - exists c. split; [apply subcells_self|done].
  - destruct (child_key_match c d s Hc Hd Hkey Hs) as (s' & Hs' & Hkey').
    destruct (IH (rank s) (rank_child _ _ Hs) s' s eq_refl) with (e := e)
      as (e' & He' & Hke); try done.
    + eapply subcells_trans; [exact Hc|by apply subcells_child].
    + eapply subcells_trans; [exact Hd|by apply subcells_child].
    + exists e'. split; [|done].
      eapply subcells_trans; [by apply subcells_child|done].
Qed.

Lemma settled_key (T : list (list Z * Cell.t)) (c d : Cell.t) :
  c ∈ subcells root → d ∈ subcells root → key c = key d →
  Settled T c → Settled T d.
Proof.
  intros Hc Hd Hkey Hset e He.
  destruct (under_key_match c d Hc Hd Hkey e He) as (e' & He' & Hke).
  destruct (Hset e' He') as [Hin Hbef].
  rewrite <- Hke. split; [done|].
  intros s Hs. apply Hbef.
  rewrite (collision_free e' e); [done| | |done].
  - eapply subcells_trans; [exact Hc|exact He'].
  - eapply subcells_trans; [exact Hd|exact He].
Qed.

Lemma settled_under (T : list (list Z * Cell.t)) (c d : Cell.t) :
  d ∈ subcells c → Settled T c → Settled T d.
Proof.
  intros Hd Hset e He. apply Hset. eapply subcells_trans; eauto.
Qed.

(** *** The index *)

Lemma keys_lookup (T : list (list Z * Cell.t)) (i : nat) (e : list Z * Cell.t) :
  T !! i = Some e → keys T !! i = Some (uint8ArrayToText e.1).
Proof. intros He. unfold keysOf. by rewrite list_lookup_fmap, He. Qed.

Lemma keys_unique T H (i j : nat) (k : string) :
  Indexed T H → keys T !! i = Some k → keys T !! j = Some k → i = j.
Proof.
  intros [Hidx _] Hi Hj. apply Hidx in Hi, Hj. congruence.
Qed.

Lemma keys_NoDup T H : Indexed T H → NoDup (keys T).
Proof.
  intros Hind. apply NoDup_alt. intros i j k. by apply keys_unique with H.
Qed.

Lemma key_listed T H (k : string) :
  Indexed T H → k ∈ keys T ↔ is_Some (H !! k).
Proof.
  intros [Hidx _]. rewrite list_elem_of_lookup. split.
  - intros [i Hi]. exists i. by apply Hidx.
  - intros [i Hi]. exists i. by apply Hidx.
Qed.

Lemma before_irrefl T H (a : string) : Indexed T H → ¬ bef T a a.
Proof.
  intros Hind (i & j & Hi & Hj & Hlt).
  pose proof (keys_unique T H i j a Hind Hi Hj). lia.
Qed.

Lemma before_asym T H (a b : string) :
  Indexed T H → bef T a b → ¬ bef T b a.
Proof.
  intros Hind (i & j & Hi & Hj & Hlt) (j' & i' & Hj' & Hi' & Hlt').
  pose proof (keys_unique T H i i' a Hind Hi Hi').
  pose proof (keys_unique T H j j' b Hind Hj Hj'). lia.
Qed.

Lemma before_listed T (a b : string) : bef T a b → a ∈ keys T ∧ b ∈ keys T.
Proof.
  intros (i & j & Hi & Hj & _). split; apply list_elem_of_lookup; eauto.
Qed.

(** *** Moving one entry to the end *)

Lemma move_lookup_old (l : list string) (t i : nat) (k a : string) :
  l !! t = Some k → l !! i = Some a → a ≠ k →
  (delete t l ++ [k]) !! (if decide (t < i) then i - 1 else i) = Some a.
Proof.
  intros Ht Hi Hne.
  assert (i ≠ t) by congruence.
  pose proof (lookup_lt_Some _ _ _ Ht). pose proof (lookup_lt_Some _ _ _ Hi).
  assert (length (delete t l) = length l - 1) as Hlen
    by (apply length_delete; eauto).
  rewrite lookup_app_l by (case_decide; lia).
  rewrite list_lookup_delete.
  destruct (decide (t < i)).
  - rewrite decide_False by lia. by replace (S (i - 1)) with i by lia.
  - rewrite decide_True by lia. done.
Qed.

Lemma move_lookup_target (l : list string) (t : nat) (k : string) :
  l !! t = Some k → (delete t l ++ [k]) !! (length l - 1) = Some k.
Proof.
  intros Ht.
  assert (length (delete t l) = length l - 1) as Hlen
    by (apply length_delete; eauto).
  rewrite lookup_app_r by lia. by rewrite Hlen, Nat.sub_diag.
Qed.

Lemma move_lookup_inv (l : list string) (t j : nat) (k a : string) :
  NoDup l → l !! t = Some k → (delete t l ++ [k]) !! j = Some a →
  (a = k ∧ j = length l - 1)
  ∨ (a ≠ k ∧ ∃ i, l !! i = Some a ∧ j = if decide (t < i) then i - 1 else i).
Proof.
  intros Hnd Ht Hj.
  assert (length (delete t l) = length l - 1) as Hlen
    by (apply length_delete; eauto).
  apply lookup_snoc_Some in Hj as [[Hlt Hj]|[-> ->]]; [|left; split; [done|lia]].
  right. rewrite list_lookup_delete in Hj.
  destruct (decide (j < t)) as [Hjt|Hjt].
  - split.
    + intros ->. pose proof (NoDup_lookup _ _ _ _ Hnd Ht Hj). lia.
    + exists j. split; [done|]. by rewrite decide_False by lia.
  - split.
    + intros ->. pose proof (NoDup_lookup _ _ _ _ Hnd Ht Hj). lia.
    + exists (S j). split; [done|]. rewrite decide_True by lia. lia.
Qed.

Lemma keys_move (T : list (list Z * Cell.t)) (t : nat) (data : list Z * Cell.t) :
  keys (delete t T ++ [data]) = delete t (keys T) ++ [uint8ArrayToText data.1].
Proof. unfold keysOf. by rewrite map_app, <- list_fmap_delete. Qed.

(** One turn of [moveToTheEnd] before it goes into the children: the entry
    at [t] becomes the last one, the others keep their order. *)
Lemma move_step T H (t : nat) (data : list Z * Cell.t) :
  Indexed T H →
  H !! uint8ArrayToText data.1 = Some t →
  T !! t = Some data →
  let k := uint8ArrayToText data.1 in
  let T' := delete t T ++ [data] in
  let H' := <[k := length T - 1]>
              ((λ v, if decide (t < v) then v - 1 else v) <$> H) in
  Indexed T' H'
  ∧ (∀ a, a ∈ keys T' ↔ a ∈ keys T)
  ∧ (∀ a b, a ≠ k → b ≠ k → bef T a b → bef T' a b)
  ∧ (∀ a, a ∈ keys T → a ≠ k → bef T' a k).
Proof.
  intros Hind Ht Hdata k T' H'.
  pose proof (keys_NoDup T H Hind) as Hnd.
  pose proof (keys_lookup T t data Hdata) as Hkt. fold k in Hkt.
  assert (length (keys T) = length T) as HlenK by apply length_map.
  destruct Hind as [Hidx Hent].
  assert (Hold : ∀ a i, keys T !! i = Some a → a ≠ k →
            keys T' !! (if decide (t < i) then i - 1 else i) = Some a).
  { intros a i Hi Hne. unfold T'. rewrite keys_move.
    by apply move_lookup_old. }
  assert (Hnew : keys T' !! (length T - 1) = Some k).
  { unfold T'. rewrite keys_move, <- HlenK. by apply move_lookup_target. }
  split; [split|split; [|split]].
  - intros a j. unfold H'. rewrite lookup_insert_Some, lookup_fmap_Some. split.
    + intros [[<- <-]|[Hne (i & <- & Hi)]]; [done|].
      apply Hold; [by apply Hidx|done].
    + intros Hj. unfold T' in Hj. rewrite keys_move in Hj.
      apply move_lookup_inv in Hj as [[-> ->]|[Hne (i & Hi & ->)]]; try done.
      * left. split; [done|]. by rewrite HlenK.
      * right. split; [done|]. exists i. split; [done|]. by apply Hidx.
  - intros e He. unfold T' in He. apply elem_of_app in He as [He|He].
    + apply Hent. by apply list_elem_of_delete_inv in He.
    + apply list_elem_of_singleton in He as ->. apply Hent.
      by apply list_elem_of_lookup_2 in Hdata.
  - intros a. rewrite !list_elem_of_lookup. split.
    + intros [j Hj]. unfold T' in Hj. rewrite keys_move in Hj.
      apply move_lookup_inv in Hj as [[-> _]|[_ (i & Hi & _)]]; eauto.
    + intros [i Hi]. destruct (decide (a = k)) as [->|Hne]; eauto.
  - intros a b Ha Hb (i & j & Hi & Hj & Hlt).
    assert (i ≠ t) by (intros ->; congruence).
    assert (j ≠ t) by (intros ->; congruence).
    eexists _, _. split; [by apply Hold|]. split; [by apply Hold|].
    repeat case_decide; lia.
  - intros a Ha Hne. apply list_elem_of_lookup in Ha as [i Hi].
    assert (i ≠ t) by (intros ->; congruence).
    pose proof (lookup_lt_Some _ _ _ Hi). pose proof (lookup_lt_Some _ _ _ Hkt).
    eexists _, _. split; [by apply Hold|]. split; [exact Hnew|].
    case_decide; lia.
Qed.

(** *** [moveToTheEnd] *)

Abbreviation Under := (keysUnder hash uint8ArrayToText).
Abbreviation Moved := (movedToEnd uint8ArrayToText).
Abbreviation Forward := (forwardWithin hash uint8ArrayToText root).

Lemma under_self (c : Cell.t) : key c ∈ Under c.
Proof. apply list_elem_of_fmap. exists c. split; [done|apply subcells_self]. Qed.

Lemma under_child (c s : Cell.t) (x : string) :
  s ∈ Cell.childCells c → x ∈ Under s → x ∈ Under c.
Proof.
  intros Hs Hx. apply list_elem_of_fmap in Hx as (e & -> & He).
  apply list_elem_of_fmap. exists e. split; [done|].
  eapply subcells_trans; [by apply subcells_child|done].
Qed.

Lemma under_unfold (c : Cell.t) (x : string) :
  x ∈ Under c ↔ x = key c ∨ ∃ s, s ∈ Cell.childCells c ∧ x ∈ Under s.
Proof.
  unfold keysUnder. rewrite list_elem_of_fmap. split.
  - intros (e & -> & He). apply elem_of_subcells in He as [->|(s & Hs & He)].
    + by left.
    + right. exists s. split; [done|]. apply list_elem_of_fmap. eauto.
  - intros [->|(s & Hs & Hx)].
    + exists c. split; [done|apply subcells_self].
    + apply list_elem_of_fmap in Hx as (e & -> & He). exists e. split; [done|].
      eapply subcells_trans; [by apply subcells_child|done].
Qed.

Lemma under_key (c d : Cell.t) (x : string) :
  c ∈ subcells root → d ∈ subcells root → key c = key d →
  x ∈ Under d → x ∈ Under c.
Proof.
  intros Hc Hd Hkey Hx. apply list_elem_of_fmap in Hx as (e & -> & He).
  destruct (under_key_match c d Hc Hd Hkey e He) as (e' & He' & <-).
  apply list_elem_of_fmap. eauto.
Qed.

(** A cell under [c] and its children keys, found again under any cell with
    the key of [c]. *)
Lemma under_cell (c : Cell.t) (d : Cell.t) :
  c ∈ subcells root → d ∈ subcells root → key d ∈ Under c →
  ∃ d', d' ∈ subcells c ∧ key d' = key d
        ∧ map key (Cell.childCells d') = map key (Cell.childCells d).
Proof.
  intros Hc Hd Hin. apply list_elem_of_fmap in Hin as (d' & Hkey & Hd').
  exists d'. split; [done|]. split; [done|].
  apply collision_free; [|done|done].
  eapply subcells_trans; [exact Hc|exact Hd'].
Qed.


Abbreviation MovesUnder := (movesUnder hash uint8ArrayToText root).

(** The loop of [moveToTheEnd] over the children of the moved cell: [M]
    holds the keys moved so far. *)
Lemma moveToTheEnd_children (f : nat) (rs : list (Ref Cell.t)) :
  MovesUnder f →
  ∀ (M : string → Prop) T1 H1,
    (∀ s, RefCell s ∈ rs →
          s ∈ subcells root ∧ rank s < f ∧ ∀ x, x ∈ Under s → x ∈ keys T1) →
    Indexed T1 H1 →
    (∀ x, M x → x ∈ keys T1) →
    (∀ a b, a ∈ keys T1 → ¬ M a → M b → bef T1 a b) →
    Forward M T1 →
    ∃ T' H',
      forEachM
        (λ '(indexHashmap, topologicalOrderArray) (subCell : Ref Cell.t),
           match subCell with
           | RefCell subCell =>
               moveToTheEnd hash uint8ArrayToText f indexHashmap
                 topologicalOrderArray (hash subCell)
           | RefNum _ => Done (indexHashmap, topologicalOrderArray)
           end) rs (H1, T1) = Done (H', T')
      ∧ Indexed T' H'
      ∧ ∀ M' : string → Prop,
          (∀ x, M' x ↔ M x ∨ ∃ s, RefCell s ∈ rs ∧ x ∈ Under s) →
          Moved M' T1 T' ∧ Forward M' T'.
Proof.
  intros Hmte. induction rs as [|[s|n] rs IH]; intros M T1 H1 Hrs Hind HM HJ HF.
  - exists T1, H1. split; [done|]. split; [done|]. intros M' HM'.
    assert (∀ x, M' x ↔ M x) as Heq.
    { intros x. rewrite HM'. split; [|tauto].
      intros [?|(s & Hs & _)]; [done|]. by apply elem_of_nil in Hs. }
    split; [split; [done|split]|].
    + done.
    + intros a b Ha Hna Hb. apply HJ; [done|by rewrite <- Heq|by apply Heq].
    + intros d Hd Hkd x Hx HMx. apply HF; try done; by apply Heq.
  - destruct (Hrs s) as (Hs & Hrank & Hin); [apply elem_of_cons; by left|].
    destruct (Hmte s T1 H1 Hs Hrank Hind Hin)
      as (T2 & H2 & Hrun & Hind2 & (Hmem2 & Hkeep2 & Hend2) & Hfwd2).
    destruct (IH (λ x, M x ∨ x ∈ Under s) T2 H2)
      as (T' & H' & Hrun' & Hind' & Hpost); try done.
    + intros s' Hs'. destruct (Hrs s') as (? & ? & Hin');
        [apply elem_of_cons; by right|].
      split; [done|]. split; [done|]. intros x Hx. apply Hmem2. by apply Hin'.
    + intros x [Hx|Hx]; apply Hmem2; [by apply HM|by apply Hin].
    + intros a b Ha Hna [Hb|Hb].
      * destruct (decide (b ∈ Under s)) as [Hbs|Hbs].
        -- apply Hend2; [by apply Hmem2|tauto|done].
        -- apply Hkeep2; [tauto|done|]. apply HJ; [by apply Hmem2|tauto|done].
      * apply Hend2; [by apply Hmem2|tauto|done].
    + intros d Hd Hkd x Hx HMx.
      destruct (decide (key d ∈ Under s)) as [Hds|Hds].
      * destruct (under_cell s d Hs Hd Hds) as (d' & Hd' & Hkey' & Hkids).
        rewrite <- Hkey'. apply Hfwd2.
        -- eapply subcells_trans; [exact Hs|exact Hd'].
        -- rewrite Hkey'. done.
        -- by rewrite Hkids.
        -- rewrite <- Hkids in Hx.
           apply list_elem_of_fmap in Hx as (s0 & -> & Hs0).
           apply list_elem_of_fmap. exists s0. split; [done|].
           eapply subcells_trans; [exact Hd'|by apply subcells_child].
      * destruct Hkd as [Hkd|Hkd]; [|done].
        destruct (decide (x ∈ Under s)) as [Hxs|Hxs].
        -- apply Hend2; [by apply HM|done|done].
        -- destruct HMx as [HMx|HMx]; [|done].
           apply Hkeep2; [done|done|]. by apply HF.
    + exists T', H'. split.
      { simpl. rewrite Hrun. simpl. exact Hrun'. }
      split; [done|]. intros M' HM'.
      destruct (Hpost M') as ((Hmem' & Hkeep' & Hend') & Hfwd').
      { intros x. rewrite HM'. split.
        - intros [Hx|(s0 & Hs0 & Hx)]; [tauto|].
          apply elem_of_cons in Hs0 as [Heq|Hs0]; [|eauto].
          injection Heq as ->. tauto.
        - intros [[Hx|Hx]|(s0 & Hs0 & Hx)]; [tauto| |].
          + right. exists s. split; [apply elem_of_cons; by left|done].
          + right. exists s0. split; [apply elem_of_cons; by right|done]. }
      split; [split; [|split]|done].
      * intros a. by rewrite Hmem', Hmem2.
      * intros a b Ha Hb Hbef. apply Hkeep'; [done|done|].
        apply Hkeep2; [| |done].
        -- intros Hx. apply Ha. apply HM'. right. exists s.
           split; [apply elem_of_cons; by left|done].
        -- intros Hx. apply Hb. apply HM'. right. exists s.
           split; [apply elem_of_cons; by left|done].
      * intros a b Ha Hna Hb. apply Hend'; [by apply Hmem2|done|done].
  - destruct (IH M T1 H1) as (T' & H' & Hrun' & Hind' & Hpost); try done.
    + intros s Hs. apply Hrs. apply elem_of_cons. by right.
    + exists T', H'. split; [exact Hrun'|]. split; [done|].
      intros M' HM'. apply Hpost. intros x. rewrite HM'.
      split; (intros [?|(s & Hs & Hx)]; [tauto|right; exists s; split; [|done]]).
      * apply elem_of_cons in Hs as [?|?]; [discriminate|done].
      * apply elem_of_cons. by right.
Qed.

Lemma keys_lookup_inv (T : list (list Z * Cell.t)) (i : nat) (k : string) :
  keys T !! i = Some k → ∃ e, T !! i = Some e ∧ uint8ArrayToText e.1 = k.
Proof.
  unfold keysOf. rewrite list_lookup_fmap.
  destruct (T !! i) as [e|]; simpl; [|done]. intros [= <-]. eauto.
Qed.

(** The entry listed under the key of a cell of the graph holds a cell of
    the graph with that key. *)
Lemma listed_entry T H (c : Cell.t) :
  Indexed T H → key c ∈ keys T →
  ∃ t data, H !! key c = Some t ∧ T !! t = Some data
            ∧ uint8ArrayToText data.1 = key c
            ∧ data.1 = hash data.2 ∧ data.2 ∈ subcells root
            ∧ key data.2 = key c.
Proof.
  intros Hind Hin.
  apply (key_listed T H _ Hind) in Hin as [t Ht].
  pose proof (proj1 (indexed_lookup _ _ _ _ _ Hind _ _) Ht) as Hk.
  apply keys_lookup_inv in Hk as (data & Hdata & Htext).
  destruct (indexed_entries _ _ _ _ _ Hind data) as [Hhash Hsub].
  { by apply list_elem_of_lookup_2 in Hdata. }
  exists t, data. repeat split; try done.
  unfold cellKey at 1. by rewrite <- Hhash.
Qed.

Lemma child_key_differs (d s : Cell.t) :
  d ∈ subcells root → s ∈ Cell.childCells d → key s ≠ key d.
Proof.
  intros Hd Hs Hkey.
  pose proof (rank_child d s Hs).
  assert (s ∈ subcells root)
    by (eapply subcells_trans; [exact Hd|by apply subcells_child]).
  pose proof (key_rank s d ltac:(done) Hd Hkey). lia.
Qed.

(** [moveToTheEnd] returns when its fuel exceeds the rank of the cell, and
    then it has put the cells under the target last, parents first. *)
Lemma moveToTheEnd_spec (fuel : nat) : MovesUnder fuel.
Proof.
  induction fuel as [|f IHf]; intros c T H Hc Hrank Hind Hin; [lia|].
  destruct (listed_entry T H c Hind (Hin _ (under_self c)))
    as (t & data & Ht & Hdata & Htext & Hhash & Hsub & Hkey).
  assert (H !! uint8ArrayToText data.1 = Some t) as Ht' by by rewrite Htext.
  destruct (move_step T H t data Hind Ht' Hdata)
    as (Hind1 & Hmem1 & Hkeep1 & Hend1).
  rewrite Htext in Hind1, Hkeep1, Hend1.
  pose proof (key_rank data.2 c Hsub Hc Hkey) as Hrk.
  set (T1 := delete t T ++ [data]) in *.
  set (H1 := <[key c:=length T - 1]> _) in *.
  destruct (moveToTheEnd_children f (Cell.refs data.2) IHf
              (λ x, x = key c) T1 H1)
    as (T' & H' & Hrun & Hind' & Hpost).
  - intros s Hs. apply elem_of_childCells in Hs.
    split; [eapply subcells_trans; [exact Hsub|by apply subcells_child]|].
    split; [pose proof (rank_child _ _ Hs); lia|].
    intros x Hx. apply Hmem1, Hin.
    apply (under_key c data.2); [done|done|done|].
    by apply (under_child data.2 s).
  - exact Hind1.
  - intros x ->. apply Hmem1, Hin, under_self.
  - intros a b Ha Hna ->. apply Hend1; [by apply Hmem1|done].
  - intros d Hd Hkd x Hx ->.
    apply list_elem_of_fmap in Hx as (s & Hks & Hs).
    destruct (child_key_differs d s Hd Hs). congruence.
  - exists T', H'. split.
    { simpl. unfold cellKey in Ht. rewrite Ht. simpl. rewrite Hdata.
      exact Hrun. }
    split; [done|].
    destruct (Hpost (λ x, x ∈ Under c)) as ((Hmem' & Hkeep' & Hend') & Hfwd').
    { intros x. split.
      - intros Hx. apply (under_key data.2 c) in Hx; [|done..].
        apply under_unfold in Hx as [->|(s & Hs & Hx)]; [by left|].
        right. exists s. split; [by apply elem_of_childCells|done].
      - intros [->|(s & Hs & Hx)]; [apply under_self|].
        apply (under_key c data.2); [done|done|done|].
        apply (under_child data.2 s); [by apply elem_of_childCells|done]. }
    split; [split; [|split]|done].
    + intros a. by rewrite Hmem', Hmem1.
    + intros a b Ha Hb Hbef. apply Hkeep'; [done|done|].
      apply Hkeep1; [| |done]; intros ->; [apply Ha|apply Hb]; apply under_self.
    + intros a b Ha Hna Hb. apply Hend'; [by apply Hmem1|done|done].
Qed.

(** *** [treeWalk] *)

Abbreviation Keeps := (keepsForward hash uint8ArrayToText root).
Abbreviation Pending := (pending hash uint8ArrayToText root).
Abbreviation Walks := (walks hash uint8ArrayToText root).

Lemma settled_mono T T' (d : Cell.t) :
  d ∈ subcells root →
  (∀ a, a ∈ keys T → a ∈ keys T') → Keeps T T' →
  Settled T d → Settled T' d.
Proof.
  intros Hd Hmem Hkeep Hset e He. destruct (Hset e He) as [Hin Hbef].
  split; [by apply Hmem|]. intros s Hs. apply Hkeep; [|done|by apply Hbef].
  eapply subcells_trans; [exact Hd|exact He].
Qed.

Lemma keeps_trans T1 T2 T3 : Keeps T1 T2 → Keeps T2 T3 → Keeps T1 T3.
Proof. intros H12 H23 d s Hd Hs Hbef. apply H23; [done..|]. by apply H12. Qed.

Lemma child_key_listed (c s : Cell.t) :
  s ∈ Cell.childCells c → key s ∈ map key (Cell.childCells c).
Proof. intros Hs. apply list_elem_of_fmap. eauto. Qed.

(** A first visit: the cell is pushed and indexed at the end. *)
Lemma append_step T H (c : Cell.t) :
  Indexed T H → H !! key c = None → c ∈ subcells root →
  let T' := T ++ [(hash c, c)] in
  let H' := <[key c := length T]> H in
  Indexed T' H'
  ∧ keys T' = keys T ++ [key c]
  ∧ (∀ a b, bef T a b → bef T' a b)
  ∧ (∀ a, a ∈ keys T → bef T' a (key c)).
Proof.
  intros Hind Hnone Hc T' H'.
  assert (keys T' = keys T ++ [key c]) as Hkeys
    by (unfold T', keysOf; by rewrite map_app).
  assert (length (keys T) = length T) as Hlen by apply length_map.
  assert (key c ∉ keys T) as Hfresh.
  { intros Hin. apply (key_listed T H _ Hind) in Hin as [i Hi]. congruence. }
  split; [split|split; [done|split]].
  - intros k i. unfold H'. rewrite Hkeys, lookup_insert_Some, lookup_snoc_Some.
    rewrite Hlen. split.
    + intros [[<- <-]|[Hne Hk]]; [by right|]. left.
      apply (indexed_lookup _ _ _ _ _ Hind) in Hk.
      split; [|done]. rewrite <- Hlen. by eapply lookup_lt_Some.
    + intros [[Hlt Hk]|[-> <-]]; [|by left]. right. split.
      * intros <-. apply Hfresh. by eapply list_elem_of_lookup_2.
      * by apply (indexed_lookup _ _ _ _ _ Hind).
  - intros e He. apply elem_of_app in He as [He|He].
    + by apply (indexed_entries _ _ _ _ _ Hind).
    + apply list_elem_of_singleton in He as ->. done.
  - intros a b (i & j & Hi & Hj & Hlt). exists i, j. rewrite Hkeys.
    rewrite !lookup_app_l by (by eapply lookup_lt_Some). done.
  - intros a Ha. apply list_elem_of_lookup in Ha as [i Hi].
    pose proof (lookup_lt_Some _ _ _ Hi).
    exists i, (length (keys T)). rewrite Hkeys.
    rewrite lookup_app_l by done. split; [done|]. split; [|done].
    rewrite lookup_app_r by lia. by rewrite Nat.sub_diag.
Qed.

(** The loop of [treeWalk] over the children of a cell [c] that is listed
    and still being walked. *)
Lemma treeWalk_children (f : nat) (c : Cell.t) :
  Walks f → c ∈ subcells root →
  ∀ (rs : list (Ref Cell.t)) T1 H1,
    (∀ s, RefCell s ∈ rs → s ∈ Cell.childCells c ∧ rank s < f) →
    Indexed T1 H1 → key c ∈ keys T1 → Pending (rank c) T1 →
    ∃ T' H',
      forEachM
        (λ '(topologicalOrderArray, indexHashmap) (subCell : Ref Cell.t),
           match subCell with
           | RefNum _ => Done (topologicalOrderArray, indexHashmap)
           | RefCell subCell =>
               treeWalk hash uint8ArrayToText f subCell topologicalOrderArray
                 indexHashmap (Some (hash c))
           end) rs (T1, H1) = Done (T', H')
      ∧ Indexed T' H'
      ∧ (∀ a, a ∈ keys T1 → a ∈ keys T')
      ∧ Keeps T1 T'
      ∧ (∀ s, RefCell s ∈ rs → Settled T' s ∧ bef T' (key c) (key s))
      ∧ (∀ d, d ∈ subcells root → key d ∈ keys T' →
              key d ∈ keys T1 ∨ Settled T' d).
Proof.
  intros Hwalk Hc.
  induction rs as [|[s|n] rs IH]; intros T1 H1 Hrs Hind Hin Hpend.
  - exists T1, H1. split; [done|]. split; [done|]. split; [done|].
    split; [by intros d s|]. split; [|by left].
    intros s Hs. by apply elem_of_nil in Hs.
  - destruct (Hrs s) as [Hs Hrank]; [apply elem_of_cons; by left|].
    pose proof (rank_child c s Hs) as Hlt.
    assert (s ∈ subcells root) as Hsr
      by (eapply subcells_trans; [exact Hc|by apply subcells_child]).
    destruct (Hwalk s T1 H1 (Some (hash c)))
      as (T2 & H2 & Hrun & Hind2 & Hmem2 & Hkeep2 & Hset2 & Hpar2 & Hnew2);
      try done.
    { intros d Hd Hk. destruct (Hpend d Hd Hk); [by left|right; lia]. }
    { intros ph [= <-]. exists c. done. }
    destruct (IH T2 H2)
      as (T' & H' & Hrun' & Hind' & Hmem' & Hkeep' & Hkids' & Hnew');
      try done.
    { intros s' Hs'. apply Hrs. apply elem_of_cons. by right. }
    { by apply Hmem2. }
    { intros d Hd Hk. destruct (Hnew2 d Hd Hk) as [Hold|Hdone]; [|by left].
      destruct (Hpend d Hd Hold) as [Hdone|?]; [left|by right].
      by apply (settled_mono T1 T2). }
    exists T', H'. split; [simpl; rewrite Hrun; exact Hrun'|].
    split; [done|]. split; [by intros a Ha; apply Hmem', Hmem2|].
    split; [by apply (keeps_trans T1 T2 T')|]. split.
    + intros s' Hs'. apply elem_of_cons in Hs' as [[= ->]|Hs']; [|by apply Hkids'].
      split; [by apply (settled_mono T2 T')|].
      apply Hkeep'; [done|by apply child_key_listed|].
      by apply (Hpar2 (hash c)).
    + intros d Hd Hk. destruct (Hnew' d Hd Hk) as [Hold|Hdone]; [|by right].
      destruct (Hnew2 d Hd Hold) as [Hold1|Hdone]; [by left|right].
      by apply (settled_mono T2 T').
  - destruct (IH T1 H1)
      as (T' & H' & Hrun' & Hind' & Hmem' & Hkeep' & Hkids' & Hnew');
      try done.
    { intros s Hs. apply Hrs. apply elem_of_cons. by right. }
    exists T', H'. split; [exact Hrun'|]. repeat (split; [done|]).
    split; [|done]. intros s Hs.
    apply elem_of_cons in Hs as [?|Hs]; [discriminate|by apply Hkids'].
Qed.

Lemma settled_under_listed T (c : Cell.t) (x : string) :
  Settled T c → x ∈ Under c → x ∈ keys T.
Proof.
  intros Hset Hx. apply list_elem_of_fmap in Hx as (d & -> & Hd).
  by apply Hset.
Qed.

Lemma child_key_under (c d : Cell.t) (s : string) :
  d ∈ subcells c → s ∈ map key (Cell.childCells d) → s ∈ Under c.
Proof.
  intros Hd Hs. apply list_elem_of_fmap in Hs as (s0 & -> & Hs0).
  apply list_elem_of_fmap. exists s0. split; [done|].
  eapply subcells_trans; [exact Hd|by apply subcells_child].
Qed.

Lemma treeWalk_unfold (f : nat) (c : Cell.t) T H (parentHash : option (list Z)) :
  treeWalk hash uint8ArrayToText (S f) c T H parentHash
  = match H !! key c with
    | Some cellIndex =>
        match parentHash with
        | Some parentHash =>
            match H !! uint8ArrayToText parentHash with
            | Some parentIndex =>
                if decide (cellIndex < parentIndex) then
                  '(H, T) ← moveToTheEnd hash uint8ArrayToText (S f) H T (hash c);
                  Done (T, H)
                else Done (T, H)
            | None => Done (T, H)
            end
        | None => Done (T, H)
        end
    | None =>
        forEachM
          (λ '(topologicalOrderArray, indexHashmap) (subCell : Ref Cell.t),
             match subCell with
             | RefNum _ => Done (topologicalOrderArray, indexHashmap)
             | RefCell subCell =>
                 treeWalk hash uint8ArrayToText f subCell topologicalOrderArray
                   indexHashmap (Some (hash c))
             end)
          (Cell.refs c) (T ++ [(hash c, c)], <[key c := length T]> H)
    end.
Proof. reflexivity. Qed.

(** [treeWalk] returns when its fuel exceeds the rank of the cell, and then
    the cell is settled and listed after its parent. *)
Lemma treeWalk_spec (fuel : nat) : Walks fuel.
Proof.
  induction fuel as [|f IHf];
    intros c T H parentHash Hc Hrank Hind Hpend Hparent; [lia|].
  rewrite treeWalk_unfold.
  destruct (H !! key c) as [ci|] eqn:Hci.
  - (* the cell is listed already *)
    assert (key c ∈ keys T) as Hin by (apply (key_listed T H); eauto).
    assert (Settled T c) as Hset.
    { destruct (Hpend c Hc Hin) as [?|?]; [done|lia]. }
    assert (Hstay : ∃ T' H', Done (T, H) = Done (T', H')
              ∧ Indexed T' H' ∧ (∀ a, a ∈ keys T → a ∈ keys T')
              ∧ Keeps T T' ∧ Settled T' c
              ∧ (∀ d, d ∈ subcells root → key d ∈ keys T' →
                      key d ∈ keys T ∨ Settled T' d)).
    { exists T, H. repeat (split; [done|]). split; [by intros d s|].
      split; [done|by left]. }
    destruct parentHash as [ph|].
    + destruct (Hparent ph eq_refl) as (pc & -> & Hpc & Hchild & Hpin).
      fold (key pc).
      pose proof Hpin as Hpin'.
      apply (key_listed T H _ Hind) in Hpin' as [pi Hpi]. rewrite Hpi.
      pose proof (proj1 (indexed_lookup _ _ _ _ _ Hind _ _) Hci) as Hkc.
      pose proof (proj1 (indexed_lookup _ _ _ _ _ Hind _ _) Hpi) as Hkp.
      destruct (decide (ci < pi)) as [Hlt|Hge].
      * (* listed before its parent: moved to the end *)
        destruct (moveToTheEnd_spec (S f) c T H Hc Hrank Hind)
          as (T' & H' & Hrun & Hind' & (Hmem & Hkeep & Hend) & Hfwd).
        { intros x. by apply settled_under_listed. }
        rewrite Hrun. exists T', H'. split; [done|].
        split; [done|]. split; [by intros a Ha; apply Hmem|].
        split; [|split; [|split]].
        -- intros d s Hd Hs Hbef.
           destruct (decide (key d ∈ Under c)) as [Hdu|Hdu].
           ++ apply Hfwd; [done|done|done|].
              destruct (under_cell c d Hc Hd Hdu) as (d' & Hd' & _ & Hkids).
              apply (child_key_under c d'); [done|by rewrite Hkids].
           ++ destruct (decide (s ∈ Under c)) as [Hsu|Hsu].
              ** apply Hend; [|done|done].
                 exact (proj1 (before_listed _ _ _ Hbef)).
              ** by apply Hkeep.
        -- intros d Hd. split.
           ++ apply Hmem. by apply Hset.
           ++ intros s Hs. apply Hfwd.
              ** eapply subcells_trans; [exact Hc|exact Hd].
              ** apply list_elem_of_fmap. eauto.
              ** done.
              ** by apply (child_key_under c d).
        -- intros ph [= <-]. fold (key pc). apply Hend; [done| |apply under_self].
           intros Hpu.
           destruct (under_cell c pc Hc Hpc Hpu) as (d' & Hd' & Hkd & Hkids).
           destruct (Hset d' Hd') as [_ Hbef].
           destruct (Hbef (key c)) as (i & j & Hi & Hj & Hij).
           { rewrite Hkids. by apply child_key_listed. }
           rewrite Hkd in Hi.
           pose proof (keys_unique T H _ _ _ Hind Hi Hkp).
           pose proof (keys_unique T H _ _ _ Hind Hj Hkc). lia.
        -- intros d Hd Hk. left. by apply Hmem.
      * (* listed after its parent already *)
        destruct Hstay as (T' & H' & [= <- <-] & Hrest).
        exists T, H. split; [done|].
        destruct Hrest as (? & ? & ? & ? & ?).
        repeat (split; [done|]). split; [|done].
        intros ph [= <-]. fold (key pc). exists pi, ci.
        split; [done|]. split; [done|].
        assert (pi ≠ ci); [|lia]. intros ->.
        apply (child_key_differs pc c Hpc Hchild). congruence.
    + destruct Hstay as (T' & H' & [= <- <-] & Hrest).
      exists T, H. split; [done|].
      destruct Hrest as (? & ? & ? & ? & Hnew).
      repeat (split; [done|]). exact Hnew.
  - (* first visit *)
    destruct (append_step T H c Hind Hci Hc)
      as (Hind1 & Hkeys1 & Hbef1 & Hlast1).
    set (T1 := T ++ [(hash c, c)]) in *.
    set (H1 := <[key c := length T]> H) in *.
    assert (∀ a, a ∈ keys T → a ∈ keys T1) as Hmem1.
    { intros a Ha. rewrite Hkeys1. apply elem_of_app. by left. }
    assert (Keeps T T1) as Hkeep1 by (intros d s _ _; apply Hbef1).
    destruct (treeWalk_children f c IHf Hc (Cell.refs c) T1 H1)
      as (T' & H' & Hrun & Hind' & Hmem' & Hkeep' & Hkids' & Hnew'); try done.
    + intros s Hs. apply elem_of_childCells in Hs. split; [done|].
      pose proof (rank_child c s Hs). lia.
    + rewrite Hkeys1. apply elem_of_app. right. by apply list_elem_of_singleton.
    + intros d Hd Hk. rewrite Hkeys1 in Hk.
      apply elem_of_app in Hk as [Hk|Hk].
      * destruct (Hpend d Hd Hk) as [Hdone|?]; [left|right; lia].
        by apply (settled_mono T T1).
      * apply list_elem_of_singleton in Hk. right.
        rewrite (key_rank d c Hd Hc Hk). done.
    + exists T', H'. split; [exact Hrun|]. split; [done|].
      split; [by intros a Ha; apply Hmem', Hmem1|].
      split; [by apply (keeps_trans T T1 T')|].
      assert (Settled T' c) as Hset.
      { intros d Hd. apply elem_of_subcells in Hd as [->|(s & Hs & Hd)].
        - split.
          + apply Hmem'. rewrite Hkeys1. apply elem_of_app. right.
            by apply list_elem_of_singleton.
          + intros x Hx. apply list_elem_of_fmap in Hx as (s & -> & Hs).
            apply Hkids'. by apply elem_of_childCells.
        - by apply (Hkids' s); [apply elem_of_childCells|]. }
      split; [done|]. split.
      * intros ph Hph. destruct (Hparent ph Hph) as (pc & -> & Hpc & Hchild & Hpin).
        fold (key pc). apply Hkeep'; [done|by apply child_key_listed|].
        by apply Hlast1.
      * intros d Hd Hk. destruct (Hnew' d Hd Hk) as [Hold|Hdone]; [|by right].
        rewrite Hkeys1 in Hold. apply elem_of_app in Hold as [Hold|Hold].
        -- by left.
        -- apply list_elem_of_singleton in Hold. right.
           by apply (settled_key T' c d).
Qed.

Lemma indexed_empty : Indexed [] ∅.
Proof.
  split.
  - intros k i. rewrite lookup_empty. simpl. rewrite lookup_nil. done.
  - intros e He. by apply elem_of_nil in He.
Qed.


End Walk.

Lemma exampleGraph_collisionFree :
  collisionFree exampleHash exampleText exampleGraph.
Proof.
  intros c1 c2 H1 H2 Hkey.
  unfold exampleGraph in H1, H2. cbn in H1, H2.
  repeat (apply elem_of_cons in H1 as [->|H1]);
    try (by apply elem_of_nil in H1);
    repeat (apply elem_of_cons in H2 as [->|H2]);
    try (by apply elem_of_nil in H2);
    first [reflexivity | vm_compute in Hkey; discriminate].
Qed.


(** The order [treeWalk] gives the example: the shared subtree, listed at
    its first visit right after the root, is moved behind its second
    parent. *)
Lemma treeWalk_example_order :
  (λ r, match r with
        | Done (T, H) => Some (map (λ e, e.1) T)
        | _ => None
        end) (treeWalk exampleHash exampleText 4 exampleGraph [] ∅ None)
  = Some [[0]; [24]; [8]; [16]].
Proof. vm_compute. reflexivity. Qed.

(** ** Calls that cannot run out of fuel *)

Lemma bind_no_timeout {A B} (m : result A) (f : A → result B) :
  m ≠ Timeout → (∀ a, f a ≠ Timeout) → m ≫= f ≠ Timeout.
Proof. destruct m; simpl; auto. Qed.

Lemma forEachM_no_timeout {A S} (f : S → A → result S) (l : list A) (s : S) :
  (∀ s x, f s x ≠ Timeout) → forEachM f l s ≠ Timeout.
Proof.
  intros Hf. revert s. induction l as [|x l IH]; intros s; [done|].
  simpl. apply bind_no_timeout; auto.
Qed.

Lemma writeBit_no_timeout (b : BitString.t) (v : bool) :
  BitString.writeBit b v ≠ Timeout.
Proof.
  unfold BitString.writeBit, BitString.on, BitString.off, BitString.checkRange.
  destruct v, (BitString.length b <? BitString.cursor b); done.
Qed.

Lemma writeBitArray_no_timeout (b : BitString.t) (ba : list bool) :
  BitString.writeBitArray b ba ≠ Timeout.
Proof. apply forEachM_no_timeout. apply writeBit_no_timeout. Qed.

Lemma writeUint_no_timeout (b : BitString.t) (n k : Z) :
  BitString.writeUint b n k ≠ Timeout.
Proof.
  unfold BitString.writeUint. repeat case_match; try done.
  apply forEachM_no_timeout. intros. apply writeBit_no_timeout.
Qed.

Lemma writeBytes_no_timeout (b : BitString.t) (ui8 : list Z) :
  BitString.writeBytes b ui8 ≠ Timeout.
Proof. apply forEachM_no_timeout. intros. apply writeUint_no_timeout. Qed.

Lemma getTopUppedArray_no_timeout (b : BitString.t) :
  BitString.getTopUppedArray b ≠ Timeout.
Proof.
  unfold BitString.getTopUppedArray. apply bind_no_timeout; [|done].
  case_match; [|done]. apply bind_no_timeout; [apply writeBit_no_timeout|].
  intros ret. rewrite writeZeros_writeBitArray. apply writeBitArray_no_timeout.
Qed.

Lemma hexPairs_no_timeout (s : list ascii) : Hex.pairs s ≠ Timeout.
Proof.
  remember (length s) as n eqn:Hn. revert s Hn.
  induction (lt_wf n) as [n _ IH]. intros s ->.
  destruct s as [|a [|b rest]]; simpl; try done.
  repeat case_match; try done.
  apply bind_no_timeout; [|done]. eapply IH; [|done]. simpl. lia.
Qed.

Section SerializerRuns.

Context (hash : Cell.t → list Z) (uint8ArrayToText : list Z → string).

Lemma serializeForBoc_no_timeout (cell : Cell.t) (cellsIndex : gmap string nat) :
  serializeForBoc hash uint8ArrayToText cell cellsIndex ≠ Timeout.
Proof.
  unfold serializeForBoc, Cell.getDataWithDescriptors.
  apply bind_no_timeout.
  { apply bind_no_timeout; [apply getTopUppedArray_no_timeout|done]. }
  intros dwd. apply bind_no_timeout; [|done].
  apply forEachM_no_timeout. intros reprArray [c|n]; [|done].
  case_match; [|done]. apply bind_no_timeout; [|done].
  unfold referenceBytes, Hex.hexToBytes.
  case_match; [apply hexPairs_no_timeout|done].
Qed.

Lemma bocSerializationSize_no_timeout (cell : Cell.t)
    (cellsIndex : gmap string nat) :
  bocSerializationSize hash uint8ArrayToText cell cellsIndex ≠ Timeout.
Proof.
  unfold bocSerializationSize. apply bind_no_timeout; [|done].
  apply serializeForBoc_no_timeout.
Qed.

End SerializerRuns.

(** ** The size fields of the envelope *)

Lemma length_posBits_lower (p : positive) (k : nat) :
  2 ^ Z.of_nat k ≤ Z.pos p → (k < length (BN.posBits p))%nat.
Proof.
  revert k. induction p as [p IH|p IH|]; intros k Hle; simpl.
  - rewrite length_app. simpl. destruct k as [|k]; [lia|].
    rewrite Nat2Z.inj_succ, Z.pow_succ_r in Hle by lia.
    specialize (IH k). lia.
  - rewrite length_app. simpl. destruct k as [|k]; [lia|].
    rewrite Nat2Z.inj_succ, Z.pow_succ_r in Hle by lia.
    specialize (IH k). lia.
  - destruct k as [|k]; [lia|].
    rewrite Nat2Z.inj_succ, Z.pow_succ_r in Hle by lia.
    assert (0 < 2 ^ Z.of_nat k) by (apply Z.pow_pos_nonneg; lia). lia.
Qed.

(** A number that needs more than [k] bits makes [writeUint] throw. *)
Lemma writeUint_too_wide (b : BitString.t) (n k : Z) :
  1 ≤ k → 2 ^ k ≤ n →
  BitString.writeUint b n k
  = Throw ("bitLength is too small for number, got number="
           +:+ pretty n +:+ ",bitLength=" +:+ pretty k).
Proof.
  intros Hk Hn. assert (0 < 2 ^ k) by (apply Z.pow_pos_nonneg; lia).
  unfold BitString.writeUint. destruct (Z.eqb_spec k 0); [lia|]. simpl.
  rewrite toString2_unpadded by lia.
  destruct n as [|p|p]; try lia. simpl.
  pose proof (length_posBits_lower p (Z.to_nat k)) as Hlen.
  rewrite Z2Nat.id in Hlen by lia. specialize (Hlen Hn).
  destruct (Z.ltb_spec k (Z.of_nat (length (BN.posBits p)))); [done|lia].
Qed.

Lemma s_bytes_of_one (cells_num : Z) : s_bytes_of cells_num = 1.
Proof.
  unfold s_bytes_of.
  assert (1 ≤ Z.of_nat (length (BN.toString2 cells_num 1))) as Hlen.
  { unfold BN.toString2. simpl. rewrite Z.mod_1_r. simpl.
    pose proof (length_magnitudeBits_pos cells_num).
    destruct (cells_num <? 0); simpl; lia. }
  rewrite ceilDiv_spec by lia.
  assert (0 ≤ Z.of_nat (length (BN.toString2 cells_num 1)) / 8)
    by (apply Z.div_pos; lia).
  destruct (Z.eqb_spec (Z.of_nat (length (BN.toString2 cells_num 1)) mod 8) 0)
    as [Hz|Hnz]; [|lia].
  pose proof (Z.div_mod (Z.of_nat (length (BN.toString2 cells_num 1))) 8).
  lia.
Qed.

(** ** Successful writes keep what is below the cursor *)

Lemma later_refl (b : BitString.t) : later b b.
Proof. unfold later. repeat split; done || lia. Qed.

Lemma later_trans (b1 b2 b3 : BitString.t) :
  later b1 b2 → later b2 b3 → later b1 b3.
Proof.
  intros (Hc1 & Hl1 & Ha1 & Hb1) (Hc2 & Hl2 & Ha2 & Hb2).
  unfold later. repeat split; try congruence; try lia.
  intros p Hp. rewrite Hb2 by lia. by apply Hb1.
Qed.

Lemma updateByte_range (arr : list Z) (i : Z) (f : Z → Z) :
  byteRange arr → byteRange (updateByte arr i f).
Proof.
  intros Hr. unfold updateByte. destruct (i <? 0); [done|].
  apply Forall_alter; [done|]. intros x _ _. unfold toUint8.
  apply Z.mod_pos_bound. lia.
Qed.

Lemma readByte_range (arr : list Z) (i : Z) :
  byteRange arr → 0 ≤ readByte arr i < 256.
Proof.
  intros Hr. unfold readByte. destruct (i <? 0); [lia|].
  destruct (arr !! Z.to_nat i) as [x|] eqn:Hx; simpl; [|lia].
  by eapply (Forall_lookup_1 _ _ _ _ Hr).
Qed.

Lemma bitAt_updateByte_other (arr : list Z) (c p : Z) (f : Z → Z) :
  0 ≤ c → 0 ≤ p → p ≠ c →
  (c < 8 * Z.of_nat (length arr) →
   ∀ q, 0 ≤ q → q ≠ c →
        bitAt (updateByte arr (BitString.byteIndex c) f) q = bitAt arr q) →
  bitAt (updateByte arr (BitString.byteIndex c) f) p = bitAt arr p.
Proof.
  intros Hc Hp Hne Hin.
  destruct (Z.lt_ge_cases c (8 * Z.of_nat (length arr))) as [Hlt|Hge];
    [by apply Hin|].
  unfold bitAt. rewrite byteIndex_nonneg by done.
  assert (0 ≤ c / 8) by (apply Z.div_pos; lia).
  assert (0 ≤ p / 8) by (apply Z.div_pos; lia).
  assert (Z.of_nat (length arr) ≤ c / 8) by (apply Z.div_le_lower_bound; lia).
  rewrite readByte_updateByte by done.
  rewrite decide_False by lia. done.
Qed.

Lemma writeBit_later (b b' : BitString.t) (v : bool) :
  sound b → BitString.writeBit b v = Done b' →
  sound b' ∧ later b b' ∧ BitString.cursor b' = BitString.cursor b + 1.
Proof.
  intros ((Hc0 & Hc1) & Harr & Hrange) Hw.
  assert (BitString.cursor b ≤ BitString.length b) as Hle.
  { destruct (Z.le_gt_cases (BitString.cursor b) (BitString.length b)); [done|].
    pose proof (proj2 (writeBit_throws_iff b v) ltac:(lia)) as Hthrow.
    rewrite Hw in Hthrow. done. }
  rewrite writeBit_Done in Hw by done. injection Hw as <-. simpl.
  unfold sound, later. simpl. rewrite length_updateByte.
  repeat split; try lia; try done.
  - by apply updateByte_range.
  - intros p Hp. apply bitAt_updateByte_other; [lia..|].
    intros Hin q Hq Hqc. rewrite bitAt_write by lia.
    by rewrite decide_False.
Qed.

(** A loop whose turns are successful writes. *)
Lemma forEachM_later {A} (f : BitString.t → A → result BitString.t)
    (l : list A) (b b' : BitString.t) :
  (∀ s x s', sound s → f s x = Done s' → sound s' ∧ later s s') →
  sound b → forEachM f l b = Done b' → sound b' ∧ later b b'.
Proof.
  intros Hf. revert b. induction l as [|x l IH]; intros b Hs Hrun.
  - injection Hrun as <-. split; [done|apply later_refl].
  - simpl in Hrun. apply bind_Done in Hrun as (b1 & H1 & Hrun).
    destruct (Hf b x b1 Hs H1) as [Hs1 Hl1].
    destruct (IH b1 Hs1 Hrun) as [Hs' Hl']. split; [done|].
    by apply (later_trans b b1 b').
Qed.

Lemma writeBitArray_later (ba : list bool) (b b' : BitString.t) :
  sound b → BitString.writeBitArray b ba = Done b' →
  sound b' ∧ later b b'
  ∧ BitString.cursor b' = BitString.cursor b + Z.of_nat (length ba).
Proof.
  revert b. induction ba as [|v ba IH]; intros b Hs Hrun.
  - injection Hrun as <-. split; [done|]. split; [apply later_refl|simpl; lia].
  - unfold BitString.writeBitArray in *. simpl in Hrun.
    apply bind_Done in Hrun as (b1 & H1 & Hrun).
    destruct (writeBit_later b b1 v Hs H1) as (Hs1 & Hl1 & Hc1).
    destruct (IH b1 Hs1 Hrun) as (Hs' & Hl' & Hc'). split; [done|].
    split; [by apply (later_trans b b1 b')|]. simpl length. lia.
Qed.

Lemma writeUint_later (b b' : BitString.t) (n k : Z) :
  sound b → 1 ≤ k → BitString.writeUint b n k = Done b' →
  sound b' ∧ later b b' ∧ BitString.cursor b' = BitString.cursor b + k.
Proof.
  intros Hs Hk Hrun. unfold BitString.writeUint in Hrun.
  destruct (Z.eqb_spec k 0); [lia|]. simpl in Hrun.
  destruct (k <? _) eqn:Hlen.
  - destruct (Z.eqb_spec n 0) as [->|]; [|done].
    apply Z.ltb_lt in Hlen. simpl in Hlen. lia.
  - rewrite forEachM_map in Hrun.
    destruct (writeBitArray_later _ b b' Hs Hrun) as (Hs' & Hl' & Hc').
    split; [done|]. split; [done|].
    rewrite length_map, length_seq in Hc'. lia.
Qed.

Lemma writeBytes_later (ui8 : list Z) (b b' : BitString.t) :
  sound b → BitString.writeBytes b ui8 = Done b' →
  sound b' ∧ later b b'
  ∧ BitString.cursor b' = BitString.cursor b + 8 * Z.of_nat (length ui8).
Proof.
  revert b. induction ui8 as [|x ui8 IH]; intros b Hs Hrun.
  - injection Hrun as <-. split; [done|]. split; [apply later_refl|simpl; lia].
  - unfold BitString.writeBytes in *. simpl in Hrun.
    apply bind_Done in Hrun as (b1 & H1 & Hrun).
    destruct (writeUint_later b b1 x 8 Hs ltac:(lia) H1) as (Hs1 & Hl1 & Hc1).
    destruct (IH b1 Hs1 Hrun) as (Hs' & Hl' & Hc'). split; [done|].
    split; [by apply (later_trans b b1 b')|]. simpl length. lia.
Qed.

(** Bytes that lie wholly below the cursor are kept too. *)
Lemma byte_eq_of_bits (x y : Z) :
  0 ≤ x < 256 → 0 ≤ y < 256 →
  (∀ i, 0 ≤ i < 8 → Z.testbit x i = Z.testbit y i) → x = y.
Proof.
  intros Hx Hy Hbits. apply Z.bits_inj'. intros i Hi.
  destruct (Z.lt_ge_cases i 8) as [Hlt|Hge]; [apply Hbits; lia|].
  rewrite <- (Z.mod_small x (2 ^ 8)), <- (Z.mod_small y (2 ^ 8)) by (simpl; lia).
  rewrite !Z.mod_pow2_bits_high by lia. done.
Qed.

Lemma bitAt_byte (arr : list Z) (q i : Z) :
  0 ≤ q → 0 ≤ i < 8 →
  bitAt arr (8 * q + i) = Z.testbit (readByte arr q) (7 - i).
Proof.
  intros Hq Hi. unfold bitAt.
  replace ((8 * q + i) / 8) with q
    by (symmetry; rewrite Z.mul_comm, Z.div_add_l by lia;
        rewrite Z.div_small by lia; lia).
  replace ((8 * q + i) mod 8) with i
    by (symmetry; rewrite Z.add_comm, Z.mul_comm, Z.mod_add by lia;
        apply Z.mod_small; lia).
  done.
Qed.

Lemma later_byte (b b' : BitString.t) (q : Z) :
  sound b → sound b' → later b b' →
  0 ≤ q → 8 * q + 8 ≤ BitString.cursor b →
  readByte (BitString.array b') q = readByte (BitString.array b) q.
Proof.
  intros (_ & _ & Hr) (_ & _ & Hr') (_ & _ & _ & Hbits) Hq Hcur.
  apply byte_eq_of_bits; [by apply readByte_range..|].
  intros i Hi. replace i with (7 - (7 - i)) by lia.
  rewrite <- !bitAt_byte by lia. apply Hbits. lia.
Qed.

(** The binary digits of a number, most significant first, read back. *)
Lemma ofString2_testbits (k : nat) (x : Z) :
  0 ≤ x < 2 ^ Z.of_nat k →
  BN.ofString2
    (map (λ j, digitChar (Z.testbit x (Z.of_nat k - 1 - Z.of_nat j))) (seq 0 k))
  = x.
Proof.
  revert x. induction k as [|k IH]; intros x Hx.
  - simpl in *. unfold BN.ofString2. simpl. lia.
  - rewrite seq_S, map_app. simpl (map _ [_]). rewrite ofString2_snoc.
    rewrite Nat2Z.inj_succ, Z.pow_succ_r in Hx by lia.
    assert (0 ≤ x / 2 < 2 ^ Z.of_nat k) as Hhalf.
    { split; [apply Z.div_pos; lia|apply Z.div_lt_upper_bound; lia]. }
    rewrite (map_ext_in _
               (λ j, digitChar
                       (Z.testbit (x / 2) (Z.of_nat k - 1 - Z.of_nat j)))).
    + rewrite (IH (x / 2) Hhalf).
      replace (Z.of_nat (S k) - 1 - Z.of_nat k) with 0 by lia.
      rewrite Z.bit0_odd. unfold BN.digitValue.
      pose proof (Zmod_odd x) as Hodd. pose proof (Z.div_mod x 2 ltac:(lia)).
      destruct (Z.odd x); simpl; lia.
    + intros j Hj. apply in_seq in Hj. f_equal.
      rewrite Z.div2_bits by lia. f_equal. lia.
Qed.

(** An 8-bit field written at a byte boundary is the byte there. *)
Lemma writeUint_field (b b' : BitString.t) (v q : Z) :
  sound b → 0 ≤ q → BitString.cursor b = 8 * q →
  0 ≤ v → BitString.writeUint b v 8 = Done b' →
  readByte (BitString.array b') q = v.
Proof.
  intros Hs Hq Hcur Hv Hrun.
  destruct (writeUint_later b b' v 8 Hs ltac:(lia) Hrun)
    as (Hs' & (_ & Hlen' & _) & Hcur').
  assert (BitString.cursor b + 8 ≤ BitString.length b + 1) as Hfree.
  { destruct Hs' as ((_ & Hcap) & _). lia. }
  assert (v < 2 ^ 8) as Hlt.
  { destruct (Z.lt_ge_cases v (2 ^ 8)) as [?|Hge]; [done|].
    rewrite writeUint_too_wide in Hrun by lia. done. }
  destruct Hs as ((Hc0 & _) & Harr & _).
  destruct (unsigned_round_trip b v 8) as (b'' & Hrun' & _ & Hlen & _ & Hload);
    try lia.
  rewrite Hrun in Hrun'. injection Hrun' as <-.
  specialize (Hload [] 0). unfold Slice.loadUint in Hload.
  replace (8 <? 1) with false in Hload by reflexivity.
  rewrite loadDigits_spec in Hload by (simpl; lia).
  cbn [mbind result_bind] in Hload. injection Hload as Hval.
  change (Z.to_nat 8) with 8%nat in Hval. cbn [app Slice.array Slice.readCursor] in Hval.
  etrans; [|exact Hval]. symmetry.
  etrans; [|apply (ofString2_testbits 8 (readByte (BitString.array b') q))].
  - f_equal. rewrite Hcur. rewrite !bitAt_byte by lia. reflexivity.
  - destruct Hs' as (_ & _ & Hr). by apply readByte_range.
Qed.

Lemma slice_lookup (arr : list Z) (n : Z) (q : nat) :
  Z.of_nat q < n → slice arr 0 n !! q = arr !! q.
Proof.
  intros Hq. unfold slice, relativeIndex. simpl.
  destruct (Z.ltb_spec n 0); [lia|].
  rewrite (Z.min_l 0) by lia. rewrite Z.sub_0_r. simpl.
  destruct (decide (q < length arr)%nat) as [Hlt|Hge].
  - rewrite lookup_take_lt by lia. done.
  - rewrite lookup_take_ge by lia. by rewrite lookup_ge_None_2 by lia.
Qed.

Lemma sound_new (len : Z) : 0 ≤ len → sound (BitString.new len).
Proof.
  intros Hlen. unfold sound, BitString.new. simpl.
  rewrite length_replicate.
  assert (0 ≤ len / 8) by (apply Z.div_pos; lia).
  pose proof (Z.div_mod len 8 ltac:(lia)).
  pose proof (Z.mod_pos_bound len 8 ltac:(lia)).
  rewrite Z2Nat.id; rewrite ceilDiv_spec by lia;
    destruct (Z.eqb_spec (len mod 8) 0); try lia.
  all: repeat split; try lia; apply Forall_replicate; lia.
Qed.

Lemma getTopUppedArray_later (b : BitString.t) (arr : list Z) :
  sound b → BitString.getTopUppedArray b = Done arr →
  ∃ ret, sound ret ∧ later b ret
         ∧ arr = slice (BitString.array ret) 0 (ceilDiv (BitString.cursor ret) 8).
Proof.
  intros Hs Hrun. unfold BitString.getTopUppedArray in Hrun.
  rewrite clone_id in Hrun.
  apply bind_Done in Hrun as (ret & Hret & Hrun). injection Hrun as <-.
  exists ret. split; [|split; [|done]].
  - destruct (0 <? _); [|by injection Hret as <-].
    apply bind_Done in Hret as (b1 & H1 & Hret).
    rewrite writeZeros_writeBitArray in Hret.
    destruct (writeBit_later b b1 true Hs H1) as (Hs1 & _ & _).
    by destruct (writeBitArray_later _ b1 ret Hs1 Hret) as (? & _ & _).
  - destruct (0 <? _); [|injection Hret as <-; apply later_refl].
    apply bind_Done in Hret as (b1 & H1 & Hret).
    rewrite writeZeros_writeBitArray in Hret.
    destruct (writeBit_later b b1 true Hs H1) as (Hs1 & Hl1 & _).
    destruct (writeBitArray_later _ b1 ret Hs1 Hret) as (_ & Hl2 & _).
    by apply (later_trans b b1 ret).
Qed.

(** A byte written below the cursor of [b] is found in the top-upped array
    of any later buffer. *)
Lemma topUpped_byte (b ret : BitString.t) (q : Z) :
  sound b → sound ret → later b ret →
  0 ≤ q → 8 * q + 8 ≤ BitString.cursor b →
  slice (BitString.array ret) 0 (ceilDiv (BitString.cursor ret) 8) !! Z.to_nat q
  = Some (readByte (BitString.array b) q).
Proof.
  intros Hs Hs' Hl Hq Hcur.
  rewrite <- (later_byte b ret q Hs Hs' Hl Hq Hcur).
  destruct Hl as (Hc & _ & _ & _).
  destruct Hs' as ((_ & Hcap) & Harr & _).
  assert (q + 1 ≤ ceilDiv (BitString.cursor ret) 8).
  { rewrite ceilDiv_spec by lia.
    assert (q + 1 ≤ BitString.cursor ret / 8)
      by (apply Z.div_le_lower_bound; lia).
    destruct (_ =? 0); lia. }
  rewrite slice_lookup by lia.
  unfold readByte. destruct (Z.ltb_spec q 0); [lia|].
  destruct (lookup_lt_is_Some_2 (BitString.array ret) (Z.to_nat q)) as [x Hx];
    [lia|]. by rewrite Hx.
Qed.

Section Envelope.

Context (hash : Cell.t → list Z) (uint8ArrayToText : list Z → string).

Lemma offset_bytes_of_pos (full_size : Z) : 1 ≤ offset_bytes_of full_size.
Proof. unfold offset_bytes_of. lia. Qed.

Lemma toBoc_no_timeout (fuel : nat) (cell : Cell.t)
    (has_idx hash_crc32 has_cache_bits : bool) (flags : Z) T H :
  treeWalk hash uint8ArrayToText fuel cell [] ∅ None = Done (T, H) →
  toBoc hash uint8ArrayToText fuel cell has_idx hash_crc32 has_cache_bits flags
  ≠ Timeout.
Proof.
  intros Htw. unfold toBoc. rewrite Htw. cbn [mbind result_bind].
  apply bind_no_timeout.
  { apply forEachM_no_timeout. intros [sizeIndex full_size] cell_info.
    apply bind_no_timeout; [apply bocSerializationSize_no_timeout|done]. }
  intros [sizeIndex full_size].
  repeat (apply bind_no_timeout;
          [first [apply writeBytes_no_timeout | apply writeBitArray_no_timeout
                 | apply writeUint_no_timeout]|intros ?]).
  apply bind_no_timeout.
  { destruct has_idx; [|done]. apply forEachM_no_timeout. intros s i.
    case_match; [apply writeUint_no_timeout|done]. }
  intros ?. apply bind_no_timeout.
  { apply forEachM_no_timeout. intros s cell_info.
    apply bind_no_timeout; [apply serializeForBoc_no_timeout|].
    intros ?. apply writeBytes_no_timeout. }
  intros ?. apply bind_no_timeout; [apply getTopUppedArray_no_timeout|done].
Qed.

(** What a successful [toBoc] has put in the header. *)
Lemma toBoc_header (fuel : nat) (cell : Cell.t)
    (has_idx hash_crc32 has_cache_bits : bool) (flags : Z) T H (out : list Z) :
  treeWalk hash uint8ArrayToText fuel cell [] ∅ None = Done (T, H) →
  toBoc hash uint8ArrayToText fuel cell has_idx hash_crc32 has_cache_bits flags
  = Done out →
  Z.of_nat (length T) ≤ 255
  ∧ ∃ offset_bytes,
      1 ≤ offset_bytes
      ∧ out !! 5%nat = Some offset_bytes
      ∧ out !! 6%nat = Some (Z.of_nat (length T))
      ∧ out !! 7%nat = Some 1
      ∧ out !! 8%nat = Some 0
      ∧ out !! Z.to_nat (9 + offset_bytes) = Some 0.
Proof.
  intros Htw Hout. unfold toBoc in Hout. rewrite Htw in Hout.
  cbn [mbind result_bind] in Hout. cbv beta iota zeta in Hout.
  rewrite !s_bytes_of_one in Hout. change (1 * 8) with 8 in Hout.
  set (n := Z.of_nat (length T)) in *.
  apply bind_Done in Hout as ([sizeIndex full_size] & _ & Hout).
  cbv beta iota zeta in Hout.
  pose proof (offset_bytes_of_pos full_size) as Hob.
  set (ob := offset_bytes_of full_size) in *.
  set (ser0 := BitString.new _) in Hout.
  assert (sound ser0) as S0 by (apply sound_new; lia).
  apply bind_Done in Hout as (ser1 & W1 & Hout).
  destruct (writeBytes_later _ _ _ S0 W1) as (S1 & L1 & C1).
  apply bind_Done in Hout as (ser2 & W2 & Hout).
  destruct (writeBitArray_later _ _ _ S1 W2) as (S2 & L2 & C2).
  apply bind_Done in Hout as (ser3 & W3 & Hout).
  destruct (writeUint_later _ _ _ 2 S2 ltac:(lia) W3) as (S3 & L3 & C3).
  apply bind_Done in Hout as (ser4 & W4 & Hout).
  destruct (writeUint_later _ _ _ 3 S3 ltac:(lia) W4) as (S4 & L4 & C4).
  apply bind_Done in Hout as (ser5 & W5 & Hout).
  destruct (writeUint_later _ _ _ 8 S4 ltac:(lia) W5) as (S5 & L5 & C5).
  apply bind_Done in Hout as (ser6 & W6 & Hout).
  destruct (writeUint_later _ _ _ 8 S5 ltac:(lia) W6) as (S6 & L6 & C6).
  apply bind_Done in Hout as (ser7 & W7 & Hout).
  destruct (writeUint_later _ _ _ 8 S6 ltac:(lia) W7) as (S7 & L7 & C7).
  apply bind_Done in Hout as (ser8 & W8 & Hout).
  destruct (writeUint_later _ _ _ 8 S7 ltac:(lia) W8) as (S8 & L8 & C8).
  apply bind_Done in Hout as (ser9 & W9 & Hout).
  destruct (writeUint_later _ _ _ (ob * 8) S8 ltac:(lia) W9) as (S9 & L9 & C9).
  apply bind_Done in Hout as (ser10 & W10 & Hout).
  destruct (writeUint_later _ _ _ 8 S9 ltac:(lia) W10) as (S10 & L10 & C10).
  apply bind_Done in Hout as (ser11 & W11 & Hout).
  assert (sound ser11 ∧ later ser10 ser11) as [S11 L11].
  { destruct has_idx; [|injection W11 as <-; split; [done|apply later_refl]].
    eapply forEachM_later; [|exact S10|exact W11].
    intros s i s' Hs Hw. cbv beta in Hw.
    destruct (sizeIndex !! i); [|done].
    by destruct (writeUint_later _ _ _ (ob * 8) Hs ltac:(lia) Hw) as (? & ? & _). }
  apply bind_Done in Hout as (ser12 & W12 & Hout).
  assert (sound ser12 ∧ later ser11 ser12) as [S12 L12].
  { eapply forEachM_later; [|exact S11|exact W12].
    intros s cell_info s' Hs Hw. cbv beta in Hw.
    apply bind_Done in Hw as (refcell_ser & _ & Hw).
    by destruct (writeBytes_later _ _ _ Hs Hw) as (? & ? & _). }
  apply bind_Done in Hout as (ser_arr & W13 & Hout).
  destruct (getTopUppedArray_later _ _ S12 W13) as (ret & Sret & Lret & ->).
  simpl in C1, C2. unfold BitString.writeUint8 in W5.
  assert (later ser10 ret) as L10r
    by (eapply later_trans; [|exact Lret]; eapply later_trans; eauto).
  assert (later ser8 ret) as L8r
    by (eapply later_trans; [|exact L10r]; eapply later_trans; eauto).
  assert (later ser7 ret) as L7r by (eapply later_trans; eauto).
  assert (later ser6 ret) as L6r by (eapply later_trans; eauto).
  assert (later ser5 ret) as L5r by (eapply later_trans; eauto).
  assert (n < 2 ^ 8) as Hn.
  { destruct (Z.lt_ge_cases n (2 ^ 8)) as [?|Hge]; [done|].
    rewrite writeUint_too_wide in W6 by lia. done. }
  split; [lia|]. exists ob. split; [done|].
  assert (Hbyte : ∀ q v, (Z.to_nat q < length
              (slice (BitString.array ret) 0 (ceilDiv (BitString.cursor ret) 8)))%nat
            → slice (BitString.array ret) 0 (ceilDiv (BitString.cursor ret) 8)
              !! Z.to_nat q = Some v → out !! Z.to_nat q = Some v).
  { intros q v Hlt Hq. injection Hout as <-.
    destruct hash_crc32; [|done]. unfold Utils.concatBytes.
    by rewrite lookup_app_l. }
  assert (Hfield : ∀ (b b' : BitString.t) (q v : Z),
            sound b → sound b' → later b' ret → 0 ≤ q → 0 ≤ v →
            BitString.cursor b = 8 * q → BitString.cursor b' = 8 * q + 8 →
            BitString.writeUint b v 8 = Done b' →
            out !! Z.to_nat q = Some v).
  { intros b b' q v Hs Hs' Hl Hq Hv Hc Hc' Hw.
    pose proof (topUpped_byte b' ret q Hs' Sret Hl Hq ltac:(lia)) as Hlk.
    rewrite (writeUint_field b b' v q Hs Hq Hc Hv Hw) in Hlk.
    apply Hbyte; [|done]. by eapply lookup_lt_Some. }
  split; [apply (Hfield ser4 ser5 5 ob); (done || lia)|].
  split; [apply (Hfield ser5 ser6 6 n); (done || lia)|].
  split; [apply (Hfield ser6 ser7 7 1); (done || lia)|].
  split; [apply (Hfield ser7 ser8 8 0); (done || lia)|].
  apply (Hfield ser9 ser10 (9 + ob) 0); (done || lia).
Qed.

End Envelope.

(** C8: for a graph without hash collisions walked with enough fuel, the
    topological order lists each distinct cell of the graph once (its
    length is the number of distinct keys), [s_bytes] is 1 whatever the
    number of cells; a successful [toBoc] has at most 255 cells and holds
    [cells_num], [roots_num = 1], [absent_num = 0] and the root index 0 in
    one byte each (bytes 6, 7, 8 and, after the [offset_bytes] bytes of the
    total size, byte [9 + offset_bytes]); with more than 255 distinct cells
    [toBoc] throws. *)
Theorem toBoc_size_clamp (hash : Cell.t → list Z)
    (uint8ArrayToText : list Z → string) (fuel : nat) (root : Cell.t)
    (has_idx hash_crc32 has_cache_bits : bool) (flags : Z) :
  collisionFree hash uint8ArrayToText root →
  (rank root < fuel)%nat →
  let result :=
    toBoc hash uint8ArrayToText fuel root has_idx hash_crc32 has_cache_bits
      flags in
  ∃ (T : list (list Z * Cell.t)) (H : gmap string nat),
    treeWalk hash uint8ArrayToText fuel root [] ∅ None = Done (T, H)
    ∧ length T
      = size (list_to_set (C := gset string)
                (keysUnder hash uint8ArrayToText root))
    ∧ (∀ cells_num, s_bytes_of cells_num = 1)
    ∧ (∀ out, result = Done out →
              Z.of_nat (length T) ≤ 255
              ∧ ∃ offset_bytes,
                  1 ≤ offset_bytes
                  ∧ out !! 5%nat = Some offset_bytes
                  ∧ out !! 6%nat = Some (Z.of_nat (length T))
                  ∧ out !! 7%nat = Some 1
                  ∧ out !! 8%nat = Some 0
                  ∧ out !! Z.to_nat (9 + offset_bytes) = Some 0)
    ∧ (255 < Z.of_nat (length T) → ∃ msg, result = Throw msg).
Proof.
  intros Hfree Hfuel result.
  destruct (treeWalk_spec hash uint8ArrayToText root Hfree fuel root [] ∅ None)
    as (T & H & Htw & Hind & _ & _ & Hset & _ & _).
  { apply subcells_self. }
  { done. }
  { apply indexed_empty. }
  { intros d _ Hd. by apply elem_of_nil in Hd. }
  { intros ph [=]. }
  exists T, H. split; [exact Htw|]. split.
  { rewrite <- (length_map (λ e : list Z * Cell.t, uint8ArrayToText e.1) T).
    fold (keysOf uint8ArrayToText T).
    rewrite <- (size_list_to_set (C := gset string))
      by apply (keys_NoDup hash uint8ArrayToText root T H Hind).
    f_equal. apply set_eq. intros k. rewrite !elem_of_list_to_set. split.
    - intros Hk. apply list_elem_of_lookup in Hk as [i Hi].
      apply (keys_lookup_inv uint8ArrayToText) in Hi as (e & He & <-).
      destruct (indexed_entries _ _ _ _ _ Hind e) as [Hhash Hsub].
      { by apply list_elem_of_lookup_2 in He. }
      rewrite Hhash. unfold keysUnder. apply list_elem_of_fmap.
      exists e.2. split; [done|exact Hsub].
    - intros Hk. unfold keysUnder in Hk.
      apply list_elem_of_fmap in Hk as (d & -> & Hd).
      by destruct (Hset d Hd). }
  split; [apply s_bytes_of_one|]. split.
  - intros out Hout. by apply (toBoc_header hash uint8ArrayToText fuel root
                                 has_idx hash_crc32 has_cache_bits flags T H).
  - intros Hmany. subst result.
    destruct (toBoc hash uint8ArrayToText fuel root has_idx hash_crc32
                has_cache_bits flags) as [out|msg|] eqn:Hrun.
    + destruct (toBoc_header hash uint8ArrayToText fuel root has_idx hash_crc32
                  has_cache_bits flags T H out Htw Hrun) as [Hle _]. lia.
    + by exists msg.
    + by destruct (toBoc_no_timeout hash uint8ArrayToText fuel root has_idx
                     hash_crc32 has_cache_bits flags T H Htw).
Qed.

(** The envelope of the example graph, with the index and without the
    CRC: four cells, one byte for each count. *)
Lemma toBoc_example :
  toBoc exampleHash exampleText 4 exampleGraph true false false 0
  = Done [181; 238; 156; 114; 129; 1; 4; 1; 0; 19; 0; 0; 5; 11; 15; 3; 0; 2;
          3; 1; 1; 6; 0; 0; 0; 2; 1; 2; 0; 3; 0; 4; 0; 0].
Proof. vm_compute. reflexivity. Qed.

(** A chain of 256 cells is walked, and its envelope is refused: the
    count does not fit the single byte reserved for it. *)
Lemma toBoc_chain_256_throws :
  match treeWalk exampleHash exampleText 256 (exampleChain 255) [] ∅ None with
  | Done (T, _) => length T
  | _ => 0%nat
  end = 256%nat
  ∧ toBoc exampleHash exampleText 256 (exampleChain 255) true true false 0
    = Throw "bitLength is too small for number, got number=256,bitLength=8".
Proof. split; vm_compute; reflexivity. Qed.

(** * Further properties of the codec *)

(** ** Levels and depths of cells *)

Lemma cell_induction (P : Cell.t → Prop) :
  (∀ c, (∀ s, s ∈ Cell.childCells c → P s) → P c) → ∀ c, P c.
Proof.
  intros step c.
  remember (rank c) as n eqn:Hn.
  revert c Hn. induction (lt_wf n) as [n _ IH]. intros c ->.
  apply step. intros s Hs. apply (IH (rank s)); [by apply rank_child|done].
Qed.

Lemma getMaxLevel_unfold (c : Cell.t) :
  Cell.getMaxLevel c
  = fold_left (λ maxLevel s, if maxLevel <? Cell.getMaxLevel s
                             then Cell.getMaxLevel s else maxLevel)
      (Cell.childCells c) 0.
Proof.
  destruct c as [b rs e]. unfold Cell.childCells. cbn [Cell.refs].
  cbn [Cell.getMaxLevel]. generalize 0.
  induction rs as [|[s|n] rs IH]; intros m; cbn; [done|apply IH|apply IH].
Qed.

(** X1: [getMaxLevel] is [0] for every cell, whatever its references, so
    the references descriptor is the number of references plus [8] for an
    exotic cell, modulo [256]. *)
Theorem getMaxLevel_zero (c : Cell.t) :
  Cell.getMaxLevel c = 0
  ∧ Cell.getRefsDescriptor c
    = [(Z.of_nat (length (Cell.refs c)) + (if Cell.isExotic c then 8 else 0))
       mod 256].
Proof.
  assert (H : ∀ c, Cell.getMaxLevel c = 0).
  { clear c. intros c. induction c as [c IH] using cell_induction.
    rewrite getMaxLevel_unfold.
    revert IH. generalize (Cell.childCells c). intros l.
    induction l as [|s l IHl]; intros IH; [done|].
    cbn [fold_left]. rewrite (IH s) by left. cbn.
    apply IHl. intros s' Hs'. apply IH. by right. }
  split; [apply H|].
  unfold Cell.getRefsDescriptor, toUint8. rewrite H.
  do 2 f_equal. destruct (Cell.isExotic c); lia.
Qed.

Lemma getMaxDepth_unfold (c : Cell.t) :
  Cell.getMaxDepth c
  = match Cell.refs c with
    | [] => 0
    | _ => fold_left (λ maxDepth s, if maxDepth <? Cell.getMaxDepth s
                                    then Cell.getMaxDepth s else maxDepth)
             (Cell.childCells c) 0 + 1
    end.
Proof.
  destruct c as [b rs e]. unfold Cell.childCells. cbn [Cell.refs].
  destruct rs as [|r rs]; [done|].
  remember (r :: rs) as l eqn:Hl. unfold Cell.getMaxDepth. fold Cell.getMaxDepth.
  rewrite Hl at 1. clear Hl r rs.
  f_equal. generalize 0.
  induction l as [|[s|n] rs IH]; intros m; cbn; [done|apply IH|apply IH].
Qed.

Lemma fold_left_max_spec (f : Cell.t → Z) (l : list Cell.t) (m : Z) :
  let r := fold_left (λ acc s, if acc <? f s then f s else acc) l m in
  m ≤ r ∧ (∀ s, s ∈ l → f s ≤ r) ∧ (r = m ∨ ∃ s, s ∈ l ∧ r = f s).
Proof.
  revert m. induction l as [|x l IH]; intros m; cbn.
  - split; [lia|]. split; [|by left]. intros s Hs. by apply elem_of_nil in Hs.
  - specialize (IH (if m <? f x then f x else m)). cbn in IH.
    destruct IH as (Hle & Hall & Hex).
    split; [destruct (Z.ltb_spec m (f x)); lia|].
    split.
    + intros s [->|Hs]%elem_of_cons; [|by apply Hall].
      destruct (Z.ltb_spec m (f x)); lia.
    + destruct Hex as [Hex|(s & Hs & Hex)].
      * destruct (Z.ltb_spec m (f x)); [|by left].
        right. exists x. split; [by left|done].
      * right. exists s. split; [by right|done].
Qed.

(** X2: The depth of a cell: zero exactly for a cell without references, above
    the depth of every child cell, one more than the deepest of them; and
    the two bytes of [getMaxDepthAsArray] are the depth, big-endian, modulo
    [65536]. *)
Theorem getMaxDepth_children (c : Cell.t) :
  0 ≤ Cell.getMaxDepth c
  ∧ (Cell.getMaxDepth c = 0 ↔ Cell.refs c = [])
  ∧ (∀ s, s ∈ Cell.childCells c → Cell.getMaxDepth s < Cell.getMaxDepth c)
  ∧ (Cell.refs c ≠ [] →
     Cell.getMaxDepth c = 1
     ∨ ∃ s, s ∈ Cell.childCells c ∧ Cell.getMaxDepth c = Cell.getMaxDepth s + 1)
  ∧ Utils.readNBytesUIntFromArray 2 (Cell.getMaxDepthAsArray c)
    = Cell.getMaxDepth c mod 65536.
Proof.
  assert (Hpos : ∀ c, 0 ≤ Cell.getMaxDepth c).
  { clear c. intros c. rewrite getMaxDepth_unfold.
    destruct (Cell.refs c); [lia|].
    pose proof (fold_left_max_spec Cell.getMaxDepth (Cell.childCells c) 0) as H.
    cbn in H. lia. }
  split; [apply Hpos|].
  pose proof (fold_left_max_spec Cell.getMaxDepth (Cell.childCells c) 0) as H.
  cbn in H. destruct H as (Hle & Hall & Hex).
  pose proof (getMaxDepth_unfold c) as Hu.
  split; [|split; [|split]].
  - destruct (Cell.refs c); [done|]. split; [lia|done].
  - intros s Hs. specialize (Hall s Hs).
    destruct (Cell.refs c) eqn:Hrefs; [|lia].
    unfold Cell.childCells in Hs. rewrite Hrefs in Hs. by apply elem_of_nil in Hs.
  - intros Hne. destruct (Cell.refs c); [done|].
    destruct Hex as [Hex|(s & Hs & Hex)]; [left; lia|].
    right. exists s. split; [done|lia].
  - unfold Cell.getMaxDepthAsArray, Utils.readNBytesUIntFromArray, toUint8, floorDiv.
    cbn. pose proof (Hpos c) as Hc.
    set (d := Cell.getMaxDepth c) in *.
    rewrite Z.rem_mod_nonneg by lia.
    rewrite Z.mod_mod by lia.
    change 65536 with (256 * 256).
    change (Z.to_nat 2) with 2%nat. cbn.
    rewrite Z.rem_mul_r by lia. lia.
Qed.

(** ** Single bits: [on], [off] and [toggle] *)





(** ** Reading integers: [loadUint] and [loadInt] *)

Lemma ofString2_app (l1 l2 : list ascii) :
  BN.ofString2 (l1 ++ l2)
  = BN.ofString2 l1 * 2 ^ Z.of_nat (length l2) + BN.ofString2 l2.
Proof.
  induction l2 as [|c l2 IH] using rev_ind.
  - rewrite app_nil_r. cbn. lia.
  - rewrite app_assoc, !ofString2_snoc, IH, length_app. cbn [length].
    replace (Z.of_nat (length l2 + 1)) with (Z.succ (Z.of_nat (length l2))) by lia.
    rewrite Z.pow_succ_r by lia. lia.
Qed.

Lemma digitValue_digitChar (v : bool) : BN.digitValue (digitChar v) = Z.b2z v.
Proof. by destruct v. Qed.

(** The number a run of [k] bits stands for, most significant bit first. *)
Lemma ofString2_bits (f : nat → bool) (k : nat) :
  let v := BN.ofString2 (map (λ j, digitChar (f j)) (seq 0 k)) in
  0 ≤ v < 2 ^ Z.of_nat k
  ∧ ∀ i, (i < k)%nat → Z.testbit v (Z.of_nat i) = f (k - 1 - i)%nat.
Proof.
  induction k as [|k IH]; cbn zeta.
  - split; [cbn; lia|]. intros i Hi. lia.
  - rewrite seq_S, map_app. cbn [map plus]. rewrite ofString2_snoc.
    rewrite digitValue_digitChar.
    cbn zeta in IH. destruct IH as (Hrange & Hbits).
    set (a := BN.ofString2 _) in *.
    split.
    + rewrite Nat2Z.inj_succ, Z.pow_succ_r by lia. destruct (f k); cbn; lia.
    + intros [|i] Hi.
      * rewrite Z.testbit_0_r. f_equal. lia.
      * rewrite Nat2Z.inj_succ, Z.testbit_succ_r by lia.
        rewrite Hbits by lia. f_equal. lia.
Qed.


(** [loadUint(k)] inside the slice: the number the bits stand for. *)
Lemma loadUint_value (s : Slice.t) (k : Z) :
  1 ≤ k → 0 ≤ Slice.readCursor s →
  Slice.readCursor s + k ≤ Slice.length s + 1 →
  ∃ v, Slice.loadUint s k
       = Done (v, Slice.withReadCursor s (Slice.readCursor s + k))
       ∧ 0 ≤ v < 2 ^ k
       ∧ ∀ i, 0 ≤ i < k →
              Z.testbit v i
              = bitAt (Slice.array s) (Slice.readCursor s + k - 1 - i).
Proof.
  intros Hk Hrc Hfit. unfold Slice.loadUint.
  destruct (Z.ltb_spec k 1); [lia|].
  rewrite loadDigits_spec by lia.
  cbn [mbind result_bind app]. rewrite Z2Nat.id by lia.
  eexists. split; [reflexivity|].
  pose proof (ofString2_bits
                (λ j, bitAt (Slice.array s) (Slice.readCursor s + Z.of_nat j))
                (Z.to_nat k)) as H'.
  cbn zeta in H'. rewrite Z2Nat.id in H' by lia.
  destruct H' as (Hrange & Hbits). split; [exact Hrange|].
  intros i Hi. specialize (Hbits (Z.to_nat i) ltac:(lia)).
  rewrite Z2Nat.id in Hbits by lia. rewrite Hbits. f_equal. lia.
Qed.



(** X5: [loadInt(k)] is [loadUint(k)] read as a two's-complement number: the
    same bits, the same cursor, and [2^k] less when the first bit is set. *)
Theorem loadInt_twos_complement (s : Slice.t) (k : Z) :
  1 ≤ k → 0 ≤ Slice.readCursor s →
  Slice.readCursor s + k ≤ Slice.length s + 1 →
  ∃ u s', Slice.loadUint s k = Done (u, s')
          ∧ Slice.loadInt s k
            = Done (if u <? 2 ^ (k - 1) then u else u - 2 ^ k, s')
          ∧ - 2 ^ (k - 1) ≤ (if u <? 2 ^ (k - 1) then u else u - 2 ^ k)
            < 2 ^ (k - 1).
Proof.
  intros Hk Hrc Hfit.
  unfold Slice.loadUint, Slice.loadInt.
  destruct (Z.ltb_spec k 1); [lia|].
  rewrite loadDigits_spec by lia. cbn [mbind result_bind app].
  eexists _, _. split; [reflexivity|].
  unfold Slice.loadBit. rewrite slice_get_bitAt by lia.
  cbn [mbind result_bind].
  set (rc := Slice.readCursor s) in *.
  set (bit := bitAt (Slice.array s) rc).
  destruct (Z.to_nat k) as [|n] eqn:Hn; [lia|].
  cbn [seq map]. rewrite <- seq_shift, map_map.
  change (digitChar (bitAt (Slice.array s) (rc + Z.of_nat 0)) :: ?l)
    with ([digitChar (bitAt (Slice.array s) (rc + Z.of_nat 0))] ++ l).
  rewrite ofString2_app, length_map, length_seq.
  replace (rc + Z.of_nat 0) with rc by lia. fold bit.
  change (BN.ofString2 [digitChar bit]) with (2 * 0 + BN.digitValue (digitChar bit)).
  rewrite digitValue_digitChar.
  assert (Hkn : Z.of_nat n = k - 1) by lia. rewrite Hkn.
  pose proof (ofString2_bits
                (λ j, bitAt (Slice.array s) (rc + Z.of_nat (S j))) n) as Hrest.
  cbn zeta in Hrest. destruct Hrest as (Hrange & _). rewrite Hkn in Hrange.
  set (rest := BN.ofString2 _) in *.
  assert (Hpow : 2 ^ k = 2 * 2 ^ (k - 1)).
  { rewrite <- Z.pow_succ_r by lia. f_equal. lia. }
  destruct (Z.eqb_spec k 1) as [->|Hk1].
  - assert (n = 0%nat) as -> by lia. cbn in rest. subst rest.
    clearbody bit. destruct bit; (split; [reflexivity|by vm_compute]).
  - unfold Slice.loadUint.
    destruct (Z.ltb_spec (k - 1) 1); [lia|].
    rewrite loadDigits_spec by (cbn; lia). cbn [mbind result_bind app].
    replace (Z.to_nat (k - 1)) with n by lia.
    cbn [Slice.readCursor Slice.withReadCursor Slice.array].
    assert (Hrest :
      BN.ofString2
        (map (λ i, digitChar (bitAt (Slice.array s) (rc + 1 + Z.of_nat i)))
           (seq 0 n)) = rest).
    { unfold rest. f_equal. apply map_ext. intros i. do 2 f_equal. lia. }
    rewrite Hrest.
    replace (rc + 1 + Z.of_nat n) with (rc + k) by lia.
    replace (rc + Z.of_nat (S n)) with (rc + k) by lia.
    clearbody bit rest.
    assert (Hw : Slice.withReadCursor (Slice.withReadCursor s (rc + 1)) (rc + k)
                 = Slice.withReadCursor s (rc + k)) by done.
    rewrite Hw.
    set (p := 2 ^ (k - 1)) in *. set (q := 2 ^ k) in *. clearbody p q.
    destruct bit; cbn [Z.b2z];
      (destruct (_ <? p) eqn:E; [apply Z.ltb_lt in E|apply Z.ltb_ge in E]);
      try lia; (split; [|lia]); do 2 f_equal; lia.
Qed.

Lemma loadInt_twos_complement_witness :
  ∃ u s', Slice.loadUint (Slice.mk [165; 90] 16 0 [] 0) 8 = Done (u, s')
          ∧ Slice.loadInt (Slice.mk [165; 90] 16 0 [] 0) 8
            = Done (if u <? 2 ^ (8 - 1) then u else u - 2 ^ 8, s')
          ∧ - 2 ^ (8 - 1) ≤ (if u <? 2 ^ (8 - 1) then u else u - 2 ^ 8)
            < 2 ^ (8 - 1).
Proof.
  apply (loadInt_twos_complement (Slice.mk [165; 90] 16 0 [] 0) 8);
    vm_compute; congruence.
Defined.

(** ** Copying a buffer: [forEach], [writeBitString], [writeCell] *)


(** Writing more bits than fit: the write that finds the cursor past the
    capacity throws. *)
Lemma writeBitArray_overflow (ba : list bool) (b : BitString.t) :
  ba ≠ [] →
  BitString.length b + 1 < BitString.cursor b + Z.of_nat (length ba) →
  BitString.writeBitArray b ba = Throw "BitString overflow".
Proof.
  revert b. induction ba as [|v ba IH]; intros b Hne Hlen; [done|].
  unfold BitString.writeBitArray. cbn [forEachM].
  destruct (Z.lt_ge_cases (BitString.length b) (BitString.cursor b)) as [Hlt|Hge].
  - unfold BitString.writeBit, BitString.on, BitString.off, BitString.checkRange.
    replace (BitString.length b <? BitString.cursor b) with true
      by (symmetry; apply Z.ltb_lt; lia).
    by destruct v.
  - rewrite writeBit_Done by done. cbn [mbind result_bind].
    apply IH.
    + intros ->. cbn in Hlen. lia.
    + cbn [BitString.length BitString.cursor]. cbn [length] in Hlen. lia.
Qed.



(** ** Writing integers: [writeUint] and [writeInt] *)

(** The bits [writeUint(m, k)] writes. *)
Lemma writeUint_bits (b : BitString.t) (m k : Z) :
  1 ≤ k → 0 ≤ m < 2 ^ k →
  0 ≤ BitString.cursor b →
  BitString.cursor b + k ≤ BitString.length b + 1 →
  BitString.cursor b + k ≤ 8 * Z.of_nat (length (BitString.array b)) →
  ∃ b', BitString.writeUint b m k = Done b'
        ∧ BitString.cursor b' = BitString.cursor b + k
        ∧ BitString.length b' = BitString.length b
        ∧ (∀ i, 0 ≤ i < k →
                BitString.get b' (BitString.cursor b + i) = Z.testbit m (k - 1 - i))
        ∧ (∀ p, 0 ≤ p < BitString.cursor b →
                BitString.get b' p = BitString.get b p).
Proof.
  intros Hk Hm Hc Hfree Harr.
  destruct (unsigned_round_trip b m k Hk Hm Hc Hfree Harr)
    as (b' & Hw & Hc' & Hl' & Hkeep & Hload).
  exists b'. repeat (split; [done|]).
  specialize (Hload [] 0).
  destruct (loadUint_value
              (Slice.mk (BitString.array b') (BitString.length b')
                 (BitString.cursor b) [] 0) k Hk Hc) as (v & Hv & _ & Hbits).
  { cbn [Slice.readCursor Slice.length]. lia. }
  cbn [Slice.readCursor Slice.length Slice.array] in Hv, Hbits.
  rewrite Hload in Hv. injection Hv as <-.
  split.
  - intros i Hi. rewrite get_bitAt by lia.
    rewrite (Hbits (k - 1 - i)) by lia. f_equal. lia.
  - intros p Hp. rewrite !get_bitAt by lia. by apply Hkeep.
Qed.



(** X8: What [writeUint] and [writeInt] refuse: a number with more binary digits
    than the width (the exception names the number and the width), a
    width-one integer other than [0] and [-1], and bits that go more than
    one place past the capacity. *)
Theorem write_integer_failures (b : BitString.t) (n k : Z) :
  1 ≤ k →
  (2 ^ k ≤ n →
   BitString.writeUint b n k
   = Throw ("bitLength is too small for number, got number="
            +:+ pretty n +:+ ",bitLength=" +:+ pretty k))
  ∧ (0 ≤ n < 2 ^ k →
     BitString.length b + 1 < BitString.cursor b + k →
     BitString.writeUint b n k = Throw "BitString overflow")
  ∧ (k = 1 → n ≠ 0 → n ≠ -1 →
     BitString.writeInt b n k = Throw "Bitlength is too small for number")
  ∧ (2 ≤ k → 2 ^ (k - 1) ≤ n →
     BitString.cursor b ≤ BitString.length b →
     BitString.writeInt b n k
     = Throw ("bitLength is too small for number, got number="
              +:+ pretty n +:+ ",bitLength=" +:+ pretty (k - 1))).
Proof.
  intros Hk. split; [|split; [|split]].
  - intros Hn. by apply writeUint_too_wide.
  - intros Hn Hover. rewrite writeUint_digits by done.
    destruct (toString2_padded n k Hk Hn) as (Hlen & _ & _).
    apply writeBitArray_overflow.
    + intros Hnil. apply (f_equal length) in Hnil.
      rewrite length_map in Hnil. cbn in Hnil. lia.
    + rewrite length_map. lia.
  - intros -> H0 H1. unfold BitString.writeInt. cbn.
    destruct (Z.eqb_spec n (-1)); [done|]. by destruct (Z.eqb_spec n 0).
  - intros Hk2 Hn Hcur. unfold BitString.writeInt.
    destruct (Z.eqb_spec k 0); [lia|]. destruct (Z.eqb_spec k 1); [lia|].
    assert (0 < 2 ^ (k - 1)) by (apply Z.pow_pos_nonneg; lia).
    destruct (Z.ltb_spec n 0); [lia|].
    rewrite writeBit_Done by done. cbn [mbind result_bind].
    apply writeUint_too_wide; lia.
Qed.

Lemma write_integer_failures_witness :
  BitString.writeUint (BitString.new 16) 256 8
  = Throw "bitLength is too small for number, got number=256,bitLength=8"
  ∧ BitString.writeUint (BitString.mk [0; 0] 10 16) 255 8
    = Throw "BitString overflow"
  ∧ BitString.writeInt (BitString.new 16) 5 1
    = Throw "Bitlength is too small for number"
  ∧ BitString.writeInt (BitString.new 16) 128 8
    = Throw "bitLength is too small for number, got number=128,bitLength=7".
Proof.
  split; [|split; [|split]].
  - apply (proj1 (write_integer_failures (BitString.new 16) 256 8 ltac:(lia))).
    vm_compute. congruence.
  - apply (proj1 (proj2 (write_integer_failures (BitString.mk [0; 0] 10 16) 255 8
                           ltac:(lia)))).
    + vm_compute. split; congruence.
    + vm_compute. reflexivity.
  - apply (proj1 (proj2 (proj2 (write_integer_failures (BitString.new 16) 5 1
                                  ltac:(lia))))); lia.
  - apply (proj2 (proj2 (proj2 (write_integer_failures (BitString.new 16) 128 8
                                  ltac:(lia))))).
    + lia.
    + vm_compute. congruence.
    + vm_compute. congruence.
Defined.

(** ** Amounts: [writeGrams], [writeCoins], [loadVarUint], [loadCoins] *)











(** ** The end bit of a top-upped array *)






(** ** Hexadecimal text: [bytesToHex] and [hexToBytes] *)

Lemma hexChar_value (n : Z) :
  0 ≤ n < 16 →
  Hex.lowerChar (Utils.hexChar n) = Utils.hexChar n
  ∧ Hex.digitValue (Utils.hexChar n) = Some n.
Proof.
  intros Hn.
  assert (n = Z.of_nat (Z.to_nat n)) as -> by lia.
  assert (Z.to_nat n < 16)%nat as Hlt by lia. revert Hlt.
  generalize (Z.to_nat n). intros k Hk.
  do 16 (destruct k as [|k]; [by vm_compute|]). lia.
Qed.

Lemma hexChar_of_digit (c : ascii) (v : Z) :
  Hex.digitValue c = Some v → 0 ≤ v < 16 ∧ Utils.hexChar v = c.
Proof.
  unfold Hex.digitValue. intros Hv.
  assert (Hc : c = ascii_of_nat (nat_of_ascii c)) by (by rewrite ascii_nat_embedding).
  revert Hv Hc. generalize (nat_of_ascii c). intros n Hv Hc.
  destruct ((48 <=? Z.of_nat n) && (Z.of_nat n <=? 57)) eqn:Hd.
  - apply andb_prop in Hd as [H1%Z.leb_le H2%Z.leb_le]. injection Hv as <-.
    split; [lia|]. rewrite Hc.
    assert (∃ k, n = (48 + k)%nat ∧ (k < 10)%nat) as (k & -> & Hk)
      by (exists (n - 48)%nat; lia).
    do 10 (destruct k as [|k]; [by vm_compute|]). lia.
  - destruct ((97 <=? Z.of_nat n) && (Z.of_nat n <=? 102)) eqn:Hl; [|done].
    apply andb_prop in Hl as [H1%Z.leb_le H2%Z.leb_le]. injection Hv as <-.
    split; [lia|]. rewrite Hc.
    assert (∃ k, n = (97 + k)%nat ∧ (k < 6)%nat) as (k & -> & Hk)
      by (exists (n - 97)%nat; lia).
    do 6 (destruct k as [|k]; [by vm_compute|]). lia.
Qed.

Lemma lowerChar_idemp (c : ascii) : Hex.lowerChar (Hex.lowerChar c) = Hex.lowerChar c.
Proof. by destruct c as [[] [] [] [] [] [] [] []]; vm_compute. Qed.

Lemma list_ascii_bytesToHex (b : Z) (bytes : list Z) :
  list_ascii_of_string (Utils.bytesToHex (b :: bytes))
  = Utils.hexChar (b / 16) :: Utils.hexChar (b mod 16)
      :: list_ascii_of_string (Utils.bytesToHex bytes).
Proof. reflexivity. Qed.

Lemma length_bytesToHex (bytes : list Z) :
  length (list_ascii_of_string (Utils.bytesToHex bytes)) = (2 * length bytes)%nat.
Proof.
  induction bytes as [|b bytes IH]; [done|].
  rewrite list_ascii_bytesToHex. cbn [length]. rewrite IH. lia.
Qed.

Lemma nibbles (b : Z) :
  0 ≤ b < 256 → 0 ≤ b / 16 < 16 ∧ 0 ≤ b mod 16 < 16 ∧ 16 * (b / 16) + b mod 16 = b.
Proof.
  intros Hb. split; [|split].
  - split; [apply Z.div_pos; lia|apply Z.div_lt_upper_bound; lia].
  - apply Z.mod_pos_bound. lia.
  - symmetry. apply Z.div_mod. lia.
Qed.

Lemma lowerChar_bytesToHex (bytes : list Z) :
  byteRange bytes →
  map Hex.lowerChar (list_ascii_of_string (Utils.bytesToHex bytes))
  = list_ascii_of_string (Utils.bytesToHex bytes).
Proof.
  intros Hrange. induction Hrange as [|b l Hb Hl IH]; [done|].
  rewrite list_ascii_bytesToHex. cbn [map]. rewrite IH.
  destruct (nibbles b Hb) as (Hhi & Hlo & _).
  by rewrite (proj1 (hexChar_value _ Hhi)), (proj1 (hexChar_value _ Hlo)).
Qed.

Lemma pairs_bytesToHex (bytes : list Z) :
  byteRange bytes →
  Hex.pairs (list_ascii_of_string (Utils.bytesToHex bytes)) = Done bytes.
Proof.
  intros Hrange. induction Hrange as [|b l Hb Hl IH]; [done|].
  rewrite list_ascii_bytesToHex. cbn [Hex.pairs]. rewrite IH.
  destruct (nibbles b Hb) as (Hhi & Hlo & Hsum).
  rewrite (proj2 (hexChar_value _ Hhi)), (proj2 (hexChar_value _ Hlo)).
  cbn [mbind result_bind]. by rewrite Hsum.
Qed.

Lemma string_length_bytesToHex (bytes : list Z) :
  String.length (Utils.bytesToHex bytes) = (2 * length bytes)%nat.
Proof.
  rewrite <- length_bytesToHex.
  induction (Utils.bytesToHex bytes) as [|c s IH]; [done|]. cbn. by rewrite IH.
Qed.

Lemma hexToBytes_bytesToHex (bytes : list Z) :
  byteRange bytes →
  Hex.hexToBytes (list_ascii_of_string (Utils.bytesToHex bytes)) = Done bytes.
Proof.
  intros Hrange.
  unfold Hex.hexToBytes. rewrite lowerChar_bytesToHex by done.
  rewrite length_bytesToHex.
  replace (Z.rem (Z.of_nat (2 * length bytes)) 2) with 0.
  - by apply pairs_bytesToHex.
  - rewrite Z.rem_mod_nonneg by lia.
    replace (Z.of_nat (2 * length bytes)) with (0 + Z.of_nat (length bytes) * 2) by lia.
    by rewrite Z.mod_add by lia.
Qed.

(** X11: [hexToBytes] reads back the text [bytesToHex] gives for a byte array,
    which has two characters for each byte. *)
Theorem bytesToHex_hexToBytes (bytes : list Z) :
  byteRange bytes →
  String.length (Utils.bytesToHex bytes) = (2 * length bytes)%nat
  ∧ Hex.hexToBytes (list_ascii_of_string (Utils.bytesToHex bytes)) = Done bytes.
Proof.
  intros Hrange. split.
  - apply string_length_bytesToHex.
  - by apply hexToBytes_bytesToHex.
Qed.

Lemma bytesToHex_hexToBytes_witness :
  String.length (Utils.bytesToHex [0; 181; 255]) = (2 * length [0; 181; 255])%nat
  ∧ Hex.hexToBytes (list_ascii_of_string (Utils.bytesToHex [0; 181; 255]))
    = Done [0; 181; 255].
Proof.
  apply (bytesToHex_hexToBytes [0; 181; 255]).
  repeat constructor; lia.
Defined.

Lemma pair_induction {A} (P : list A → Prop) :
  P [] → (∀ a, P [a]) → (∀ a b l, P l → P (a :: b :: l)) → ∀ l, P l.
Proof.
  intros Hnil Hone Hstep.
  assert (H : ∀ l, P l ∧ ∀ a, P (a :: l)).
  { induction l as [|b l [IH1 IH2]]; [by split|]. split; [apply IH2|].
    intros a. by apply Hstep. }
  intros l. apply H.
Qed.

Lemma even_length_cons2 {A} (a b : A) (l : list A) :
  Z.of_nat (length (a :: b :: l)) mod 2 = Z.of_nat (length l) mod 2.
Proof.
  cbn [length].
  replace (Z.of_nat (S (S (length l)))) with (Z.of_nat (length l) + 1 * 2) by lia.
  by rewrite Z.mod_add by lia.
Qed.

(** [pairs] on text of even length: bytes for hexadecimal digits, an
    exception for anything else. *)
Lemma pairs_spec (l : list ascii) :
  Z.of_nat (length l) mod 2 = 0 →
  (Forall (λ c, is_Some (Hex.digitValue c)) l →
   ∃ bytes, Hex.pairs l = Done bytes ∧ byteRange bytes
            ∧ length l = (2 * length bytes)%nat
            ∧ list_ascii_of_string (Utils.bytesToHex bytes) = l)
  ∧ (¬ Forall (λ c, is_Some (Hex.digitValue c)) l →
     ∃ msg, Hex.pairs l = Throw msg).
Proof.
  induction l as [|a|a b l IH] using pair_induction; intros Heven.
  - split; [|intros Hbad; exfalso; apply Hbad; constructor].
    intros _. exists []. split; [done|]. split; [constructor|]. by split.
  - cbn in Heven. done.
  - rewrite even_length_cons2 in Heven. destruct (IH Heven) as [IHok IHbad].
    cbn [Hex.pairs]. split.
    + intros Hall.
      apply Forall_cons in Hall as [[x Hx] Hall].
      apply Forall_cons in Hall as [[y Hy] Hall].
      destruct (IHok Hall) as (bytes & -> & Hrange & Hlen & Htext).
      rewrite Hx, Hy. cbn [mbind result_bind].
      destruct (hexChar_of_digit a x Hx) as [Hxr Hxc].
      destruct (hexChar_of_digit b y Hy) as [Hyr Hyc].
      exists (16 * x + y :: bytes). split; [done|]. split; [|split].
      * constructor; [lia|done].
      * cbn [length]. lia.
      * rewrite list_ascii_bytesToHex, Htext.
        replace ((16 * x + y) / 16) with x by (Z.div_mod_to_equations; lia).
        replace ((16 * x + y) mod 16) with y by (Z.div_mod_to_equations; lia).
        by rewrite Hxc, Hyc.
    + intros Hbad.
      destruct (Hex.digitValue a) as [x|] eqn:Hx; [|by eexists].
      destruct (Hex.digitValue b) as [y|] eqn:Hy; [|by eexists].
      destruct IHbad as [msg ->]; [|by eexists].
      intros Hall. apply Hbad.
      constructor; [by rewrite Hx|]. constructor; [by rewrite Hy|]. done.
Qed.

(** [hexToBytes] on text of even length. *)
Lemma hexToBytes_even (s : list ascii) :
  Z.of_nat (length s) mod 2 = 0 →
  (Forall (λ c, is_Some (Hex.digitValue (Hex.lowerChar c))) s →
   ∃ bytes, Hex.hexToBytes s = Done bytes ∧ byteRange bytes
            ∧ length s = (2 * length bytes)%nat
            ∧ list_ascii_of_string (Utils.bytesToHex bytes)
              = map Hex.lowerChar s)
  ∧ (¬ Forall (λ c, is_Some (Hex.digitValue (Hex.lowerChar c))) s →
     ∃ msg, Hex.hexToBytes s = Throw msg).
Proof.
  intros Heven. unfold Hex.hexToBytes. rewrite length_map.
  rewrite Z.rem_mod_nonneg by lia. rewrite Heven. cbn [Z.eqb].
  destruct (pairs_spec (map Hex.lowerChar s)) as [Hok Hbad];
    [by rewrite length_map|].
  rewrite Forall_fmap in Hok, Hbad. rewrite length_map in Hok.
  split; [exact Hok|exact Hbad].
Qed.

(** X12: [hexToBytes] lower-cases the text and then looks at its length
    (for a text of characters below U+0100 this is the length of the text
    given): an odd length is refused; with an even length the text is
    accepted exactly when it is made of hexadecimal digits, in either case,
    and the bytes returned give the text back in lower case through
    [bytesToHex]. *)
Theorem hexToBytes_accepts (s : list ascii) :
  let lower := map Hex.lowerChar s in
  (Z.of_nat (length lower) mod 2 ≠ 0 →
   Hex.hexToBytes s = Throw "hex string must have length a multiple of 2")
  ∧ (Z.of_nat (length lower) mod 2 = 0 →
     (Forall (λ c, is_Some (Hex.digitValue c)) lower →
      ∃ bytes, Hex.hexToBytes s = Done bytes ∧ byteRange bytes
               ∧ length lower = (2 * length bytes)%nat
               ∧ list_ascii_of_string (Utils.bytesToHex bytes) = lower)
     ∧ (¬ Forall (λ c, is_Some (Hex.digitValue c)) lower →
        ∃ msg, Hex.hexToBytes s = Throw msg)).
Proof.
  cbv zeta. rewrite Forall_fmap, length_map. split.
  - intros Hodd. unfold Hex.hexToBytes. rewrite length_map.
    rewrite Z.rem_mod_nonneg by lia.
    by destruct (Z.eqb_spec (Z.of_nat (length s) mod 2) 0).
  - apply hexToBytes_even.
Qed.

Lemma hexToBytes_accepts_witness :
  Hex.hexToBytes (list_ascii_of_string "abc")
  = Throw "hex string must have length a multiple of 2"
  ∧ (∃ bytes, Hex.hexToBytes (list_ascii_of_string "0aFF") = Done bytes
              ∧ byteRange bytes
              ∧ length (map Hex.lowerChar (list_ascii_of_string "0aFF"))
                = (2 * length bytes)%nat
              ∧ list_ascii_of_string (Utils.bytesToHex bytes)
                = map Hex.lowerChar (list_ascii_of_string "0aFF"))
  ∧ ∃ msg, Hex.hexToBytes (list_ascii_of_string "0g") = Throw msg.
Proof.
  split; [|split].
  - apply (proj1 (hexToBytes_accepts (list_ascii_of_string "abc"))).
    vm_compute. congruence.
  - apply (proj1 (proj2 (hexToBytes_accepts (list_ascii_of_string "0aFF"))
                    ltac:(reflexivity))).
    repeat (apply Forall_cons_2; [by eexists|]). apply Forall_nil_2.
  - apply (proj2 (proj2 (hexToBytes_accepts (list_ascii_of_string "0g"))
                    ltac:(reflexivity))).
    intros Hall. apply Forall_cons_1 in Hall as [_ Hall].
    apply Forall_cons_1 in Hall as [[v Hv] _]. vm_compute in Hv. congruence.
Defined.

(** ** Addresses given as bytes or text: [AdnlAddress], [StorageBagId] *)

Lemma length_list_ascii (s : string) :
  length (list_ascii_of_string s) = String.length s.
Proof. induction s as [|c s IH]; [done|]. cbn. by rewrite IH. Qed.

Lemma padHex_full (fuel : nat) (hex : string) :
  String.length hex = 64%nat → padHex (S fuel) hex = Done hex.
Proof. intros Hlen. cbn [padHex]. by rewrite Hlen. Qed.

(** X13: The forms the two constructors accept: an address, 32 bytes, or 64
    hexadecimal digits; nothing else. *)
Theorem address_isValid (b : list Z) (s : string) :
  let hexText :=
    String.length s = 64%nat
    ∧ Forall (λ c, is_Some (Hex.digitValue (Hex.lowerChar c)))
        (list_ascii_of_string s) in
  (AdnlAddress.isValid (FormBytes b) = true ↔ length b = 32%nat)
  ∧ (AdnlAddress.isValid (FormString s) = true ↔ hexText)
  ∧ AdnlAddress.isValid FormNull = false
  ∧ AdnlAddress.isValid FormOther = false
  ∧ (∀ a, AdnlAddress.isValid (FormSelf a) = true)
  ∧ (StorageBagId.isValid (FormBytes b) = true ↔ length b = 32%nat)
  ∧ (StorageBagId.isValid (FormString s) = true ↔ hexText)
  ∧ StorageBagId.isValid FormNull = false
  ∧ StorageBagId.isValid FormOther = false
  ∧ (∀ a, StorageBagId.isValid (FormSelf a) = true).
Proof.
  intros hexText.
  assert (Hbytes : ∀ (A : Type) (x : A) (msg : string),
    isDone (if bool_decide (length b = 32%nat) then Done x else Throw msg) = true
    ↔ length b = 32%nat).
  { intros A x msg. destruct (decide (length b = 32%nat)) as [Hlen|Hlen];
      [by rewrite bool_decide_true|rewrite bool_decide_false by done].
    cbn. by split. }
  assert (Htext : ∀ (A : Type) (f : list Z → A) (msg : string),
    isDone (if bool_decide (String.length s = 64%nat)
            then b ← Hex.hexToBytes (list_ascii_of_string s); Done (f b)
            else Throw msg) = true
    ↔ hexText).
  { intros A f msg. unfold hexText.
    destruct (decide (String.length s = 64%nat)) as [Hlen|Hlen];
      [rewrite bool_decide_true by done
      |rewrite bool_decide_false by done; cbn; split;
         [discriminate|intros [Hl _]; exfalso; exact (Hlen Hl)]].
    destruct (hexToBytes_even (list_ascii_of_string s)) as [Hok Hbad];
      [by rewrite length_list_ascii, Hlen|].
    split.
    - intros Hdone. split; [done|].
      destruct (decide (Forall (λ c, is_Some (Hex.digitValue (Hex.lowerChar c)))
                          (list_ascii_of_string s))) as [|Hno]; [done|].
      destruct (Hbad Hno) as [m Hm]. by rewrite Hm in Hdone.
    - intros [_ Hall]. by destruct (Hok Hall) as (bytes & -> & _). }
  unfold AdnlAddress.isValid, StorageBagId.isValid, AdnlAddress.new, StorageBagId.new.
  split; [apply Hbytes|]. split; [apply (Htext _ AdnlAddress.mk)|].
  do 3 (split; [done|]).
  split; [apply Hbytes|]. split; [apply (Htext _ StorageBagId.mk)|].
  by do 2 (split; [done|]).
Qed.

(** X14: An address made of 32 bytes prints as 64 characters, with no padding,
    and the text makes the same address again. *)
Theorem address_hex_round_trip (b : list Z) (fuel : nat) :
  length b = 32%nat → byteRange b →
  ∃ hex,
    String.length hex = 64%nat
    ∧ AdnlAddress.new (FormBytes b) = Done (AdnlAddress.mk b)
    ∧ AdnlAddress.toHex (S fuel) (AdnlAddress.mk b) = Done hex
    ∧ AdnlAddress.new (FormString hex) = Done (AdnlAddress.mk b)
    ∧ StorageBagId.new (FormBytes b) = Done (StorageBagId.mk b)
    ∧ StorageBagId.toHex (S fuel) (StorageBagId.mk b) = Done hex
    ∧ StorageBagId.new (FormString hex) = Done (StorageBagId.mk b).
Proof.
  intros Hlen Hrange.
  pose proof (string_length_bytesToHex b) as Hhex.
  pose proof (hexToBytes_bytesToHex b Hrange) as Hback.
  rewrite Hlen in Hhex.
  exists (Utils.bytesToHex b).
  unfold AdnlAddress.new, AdnlAddress.toHex, StorageBagId.new, StorageBagId.toHex.
  cbn [AdnlAddress.bytes StorageBagId.bytes].
  rewrite !bool_decide_true by done. rewrite padHex_full by done.
  rewrite Hback. done.
Qed.

Lemma address_hex_round_trip_witness :
  ∃ hex,
    String.length hex = 64%nat
    ∧ AdnlAddress.new (FormBytes (replicate 32 171))
      = Done (AdnlAddress.mk (replicate 32 171))
    ∧ AdnlAddress.toHex 1 (AdnlAddress.mk (replicate 32 171)) = Done hex
    ∧ AdnlAddress.new (FormString hex) = Done (AdnlAddress.mk (replicate 32 171))
    ∧ StorageBagId.new (FormBytes (replicate 32 171))
      = Done (StorageBagId.mk (replicate 32 171))
    ∧ StorageBagId.toHex 1 (StorageBagId.mk (replicate 32 171)) = Done hex
    ∧ StorageBagId.new (FormString hex) = Done (StorageBagId.mk (replicate 32 171)).
Proof.
  apply (address_hex_round_trip (replicate 32 171) 0); [reflexivity|].
  apply Forall_replicate. lia.
Defined.

(** ** From a cell to a slice: [beginParse] *)

Lemma beginParse_unfold (c : Cell.t) :
  Cell.beginParse c
  = Slice.mk (BitString.array (Cell.bits c)) (BitString.length (Cell.bits c)) 0
      (map Cell.beginParse (Cell.childCells c)) 0.
Proof.
  destruct c as [b rs e]. unfold Cell.childCells. cbn [Cell.refs Cell.bits].
  cbn [Cell.beginParse]. f_equal.
  induction rs as [|[s|n] rs IH]; cbn; [done| |done]. by rewrite IH.
Qed.

(** X15: The slice of a cell reads the bits of the cell over its whole
    capacity, written or not, and has one child slice for each child cell,
    in order, the references that are numbers left out: the first four calls
    of [loadRef] give the slices of the first four child cells, [undefined]
    where there is no such child. *)
Theorem beginParse_reads_cell (c : Cell.t) :
  let s := Cell.beginParse c in
  Slice.getFreeBits s = BitString.length (Cell.bits c)
  ∧ (∀ p, 0 ≤ p ≤ BitString.length (Cell.bits c) →
          Slice.get s p = Done (BitString.get (Cell.bits c) p))
  ∧ (∀ p, BitString.length (Cell.bits c) < p →
          Slice.get s p = Throw "BitString overflow")
  ∧ Slice.refs s = map Cell.beginParse (Cell.childCells c)
  ∧ ∀ k, 0 ≤ k < 4 →
         Slice.loadRef (Slice.withRefCursor s k)
         = Done (Cell.beginParse <$> Cell.childCells c !! Z.to_nat k,
                 Slice.withRefCursor s (k + 1)).
Proof.
  cbn zeta. rewrite beginParse_unfold.
  unfold Slice.getFreeBits, Slice.loadRef, Slice.at_, Slice.withRefCursor.
  cbn [Slice.length Slice.readCursor Slice.refs Slice.refCursor Slice.array].
  split; [lia|]. split; [|split; [|split; [done|]]].
  - intros p Hp. rewrite slice_get_bitAt by (cbn; lia). cbn [Slice.array].
    by rewrite get_bitAt by lia.
  - intros p Hp. unfold Slice.get, Slice.checkRange. cbn [Slice.length].
    by destruct (Z.ltb_spec (BitString.length (Cell.bits c)) p); [|lia].
  - intros k Hk. destruct (Z.leb_spec 4 k); [lia|].
    destruct (Z.ltb_spec k 0) as [|_]; [lia|].
    destruct (Z.ltb_spec k 0) as [|_]; [lia|].
    do 2 f_equal. apply (list_lookup_fmap Cell.beginParse).
Qed.

(** ** Reading bits as bytes: [loadBits] *)



Lemma ceilDiv_bounds (x d : Z) :
  0 < d → d * ceilDiv x d - d < x ≤ d * ceilDiv x d.
Proof.
  intros Hd. rewrite ceilDiv_spec by done.
  destruct (Z.eqb_spec (x mod d) 0); Z.div_mod_to_equations; nia.
Qed.



(** ** Whole bytes in a buffer *)

Lemma readByte_lookup (arr : list Z) (i : nat) :
  readByte arr (Z.of_nat i) = default 0 (arr !! i).
Proof.
  unfold readByte. destruct (Z.ltb_spec (Z.of_nat i) 0); [lia|].
  by rewrite Nat2Z.id.
Qed.

Lemma written_range (b : BitString.t) (bs : list Z) : written b bs → byteRange bs.
Proof.
  intros ((_ & _ & Hr) & _ & <-). by apply Forall_take.
Qed.

Lemma written_new (len : Z) : 0 ≤ len → written (BitString.new len) [].
Proof.
  intros Hlen. split; [by apply sound_new|]. split; [done|]. by rewrite take_0.
Qed.

(** Writes after the cursor that move it by whole bytes add bytes. *)
Lemma written_extend (b b' : BitString.t) (bs new : list Z) :
  written b bs → sound b' → later b b' →
  BitString.cursor b' = BitString.cursor b + 8 * Z.of_nat (length new) →
  (∀ j x, new !! j = Some x →
          readByte (BitString.array b') (Z.of_nat (length bs + j)) = x) →
  written b' (bs ++ new).
Proof.
  intros (Hs & Hcur & Htake) Hs' Hlater Hcur' Hnew.
  split; [done|]. split; [rewrite length_app; lia|].
  assert (Hroom : (length bs + length new ≤ length (BitString.array b'))%nat).
  { destruct Hs' as ((_ & Hc) & Hcap & _). lia. }
  apply list_eq. intros i. rewrite length_app.
  destruct (decide (i < length bs + length new)%nat) as [Hi|Hi].
  - rewrite lookup_take_lt by done.
    destruct (lookup_lt_is_Some_2 (BitString.array b') i ltac:(lia)) as [y Hy].
    rewrite Hy. symmetry.
    destruct (decide (i < length bs)%nat) as [Hold|Hnw].
    + rewrite lookup_app_l by done.
      pose proof (later_byte b b' (Z.of_nat i) Hs Hs' Hlater ltac:(lia) ltac:(lia))
        as Hb.
      rewrite !readByte_lookup, Hy in Hb. cbn in Hb.
      rewrite <- Htake. rewrite lookup_take_lt by done.
      destruct (lookup_lt_is_Some_2 (BitString.array b) i) as [z Hz].
      { destruct Hlater as (_ & _ & <- & _). lia. }
      rewrite Hz in Hb |- *. cbn in Hb. by rewrite Hb.
    + rewrite lookup_app_r by lia.
      destruct (lookup_lt_is_Some_2 new (i - length bs) ltac:(lia)) as [x Hx].
      rewrite Hx. f_equal.
      pose proof (Hnew _ _ Hx) as Hb.
      replace (length bs + (i - length bs))%nat with i in Hb by lia.
      rewrite readByte_lookup, Hy in Hb. by cbn in Hb.
  - rewrite lookup_take_ge by lia. symmetry. apply lookup_ge_None_2.
    rewrite length_app. lia.
Qed.

Lemma written_byte (b b' : BitString.t) (bs : list Z) (v : Z) :
  written b bs → 0 ≤ v → BitString.writeUint b v 8 = Done b' →
  written b' (bs ++ [v]).
Proof.
  intros Hw Hv Hrun. pose proof Hw as (Hs & Hcur & _).
  destruct (writeUint_later b b' v 8 Hs ltac:(lia) Hrun) as (Hs' & Hl & Hc').
  apply (written_extend b b' bs [v] Hw Hs' Hl); [cbn; lia|].
  intros [|j] x Hx; [|done]. injection Hx as <-.
  rewrite Nat.add_0_r. apply (writeUint_field b b' v); [done|lia|done..].
Qed.

Lemma written_bytes (bytes : list Z) : ∀ (b b' : BitString.t) (bs : list Z),
  written b bs → Forall (λ v, 0 ≤ v) bytes →
  BitString.writeBytes b bytes = Done b' →
  written b' (bs ++ bytes).
Proof.
  induction bytes as [|v bytes IH]; intros b b' bs Hw Hpos Hrun.
  - cbn in Hrun. injection Hrun as <-. by rewrite app_nil_r.
  - unfold BitString.writeBytes in Hrun. cbn [forEachM] in Hrun.
    apply bind_Done in Hrun as (b1 & H1 & Hrun).
    apply Forall_cons in Hpos as [Hv Hpos].
    rewrite (cons_middle v bs bytes), app_assoc.
    apply (IH b1 b'); [|done|done].
    by apply (written_byte b b1).
Qed.


Lemma ceilDiv_mul (q : Z) : ceilDiv (8 * q) 8 = q.
Proof.
  rewrite ceilDiv_spec by lia.
  rewrite (Z.mul_comm 8 q), Z.mod_mul, Z.div_mul by lia. done.
Qed.

(** A buffer written in whole bytes tops up to those bytes. *)
Lemma written_topUpped (b : BitString.t) (bs : list Z) :
  written b bs → BitString.getTopUppedArray b = Done bs.
Proof.
  intros (((_ & Hc) & Hcap & _) & Hcur & Htake).
  unfold BitString.getTopUppedArray, BitString.clone.
  cbn [BitString.cursor BitString.array]. rewrite Hcur, ceilDiv_mul.
  replace (Z.of_nat (length bs) * 8 - 8 * Z.of_nat (length bs)) with 0 by lia.
  cbn [Z.ltb Z.compare mbind result_bind BitString.array BitString.cursor].
  rewrite ceilDiv_mul, slice_prefix by lia.
  by rewrite Nat2Z.id, Htake.
Qed.




(** ** Numbers on whole bytes: [writeUint] of a width [8k] and
    [readNBytesUIntFromArray] *)

Lemma length_bigEndian (k : nat) (v : Z) : length (bigEndian k v) = k.
Proof. unfold bigEndian. by rewrite length_map, length_seq. Qed.

Lemma bigEndian_lookup (k : nat) (v : Z) (j : nat) (x : Z) :
  bigEndian k v !! j = Some x →
  (j < k)%nat ∧ x = (v / 256 ^ Z.of_nat (k - 1 - j)) mod 256.
Proof.
  unfold bigEndian. rewrite list_lookup_fmap. intros Hx.
  destruct (seq 0 k !! j) as [i|] eqn:Hi; [|done].
  apply lookup_seq in Hi as [-> Hj]. cbn in Hx. injection Hx as <-. done.
Qed.

Lemma bigEndian_range (k : nat) (v : Z) : byteRange (bigEndian k v).
Proof.
  apply Forall_lookup. intros j x Hx.
  apply bigEndian_lookup in Hx as [_ ->]. apply Z.mod_pos_bound. lia.
Qed.

Lemma pow256 (m : Z) : 0 ≤ m → 256 ^ m = 2 ^ (8 * m).
Proof. intros Hm. by rewrite Z.pow_mul_r by lia. Qed.

Lemma bigEndian_S (k : nat) (v : Z) :
  0 ≤ v →
  bigEndian (S k) v = bigEndian k (v / 256) ++ [v mod 256].
Proof.
  intros Hv. unfold bigEndian. rewrite seq_S, map_app. cbn [map plus]. f_equal.
  - apply map_ext_in. intros j Hj%in_seq.
    replace (S k - 1 - j)%nat with (S (k - 1 - j)) by lia.
    rewrite Nat2Z.inj_succ, Z.pow_succ_r by lia.
    rewrite Z.div_div by (try apply Z.pow_pos_nonneg; lia). done.
  - replace (S k - 1 - k)%nat with 0%nat by lia. by rewrite Z.div_1_r.
Qed.

Lemma readNBytes_from_app (n : nat) : ∀ (l rest : list Z) (res : Z),
  length l = n →
  Utils.readNBytesUIntFromArray_from n (l ++ rest) res
  = fold_left (λ acc x, acc * 256 + x) l res.
Proof.
  induction n as [|n IH]; intros l rest res Hl.
  - by destruct l.
  - destruct l as [|x l]; [done|]. cbn [Utils.readNBytesUIntFromArray_from].
    cbn [app head default drop fold_left]. rewrite drop_0.
    apply IH. by injection Hl.
Qed.

(** [readNBytesUIntFromArray(k, ·)] reads back the [k] bytes of a number. *)
Lemma readNBytes_bigEndian (k : nat) (v : Z) (rest : list Z) :
  0 ≤ v < 256 ^ Z.of_nat k →
  Utils.readNBytesUIntFromArray (Z.of_nat k) (bigEndian k v ++ rest) = v.
Proof.
  intros Hv. unfold Utils.readNBytesUIntFromArray. rewrite Nat2Z.id.
  rewrite readNBytes_from_app by apply length_bigEndian. clear rest.
  revert v Hv. induction k as [|k IH]; intros v Hv.
  - cbn in *. lia.
  - rewrite bigEndian_S by lia. rewrite fold_left_app. cbn [fold_left].
    rewrite Nat2Z.inj_succ, Z.pow_succ_r in Hv by lia.
    rewrite IH.
    + pose proof (Z.div_mod v 256 ltac:(lia)). lia.
    + split; [apply Z.div_pos; lia|apply Z.div_lt_upper_bound; lia].
Qed.

Lemma written_sound_room (b b' : BitString.t) (bs : list Z) (k : Z) :
  written b bs → sound b' → later b b' →
  BitString.cursor b' = BitString.cursor b + 8 * k → 0 ≤ k →
  BitString.cursor b + 8 * k ≤ BitString.length b + 1
  ∧ BitString.cursor b + 8 * k ≤ 8 * Z.of_nat (length (BitString.array b)).
Proof.
  intros (_ & Hcur & _) ((_ & Hc) & Hcap & _) (_ & Hl & Ha & _) Hcur' Hk.
  rewrite Hl in *. rewrite Ha in *. lia.
Qed.

(** A number written on [8k] bits at a byte boundary: its [k] bytes. *)
Lemma written_uint (b b' : BitString.t) (bs : list Z) (v : Z) (k : nat) :
  written b bs → 0 ≤ v → (1 ≤ k)%nat →
  BitString.writeUint b v (8 * Z.of_nat k) = Done b' →
  written b' (bs ++ bigEndian k v) ∧ v < 256 ^ Z.of_nat k.
Proof.
  intros Hw Hv Hk Hrun. pose proof Hw as (Hs & Hcur & _).
  destruct (writeUint_later b b' v (8 * Z.of_nat k) Hs ltac:(lia) Hrun)
    as (Hs' & Hl & Hc').
  destruct (written_sound_room b b' bs (Z.of_nat k) Hw Hs' Hl Hc' ltac:(lia))
    as [Hroom Harr].
  assert (Hlt : v < 2 ^ (8 * Z.of_nat k)).
  { destruct (Z.lt_ge_cases v (2 ^ (8 * Z.of_nat k))) as [|Hge]; [done|].
    rewrite writeUint_too_wide in Hrun by lia. done. }
  split; [|by rewrite pow256 by lia].
  destruct (writeUint_bits b v (8 * Z.of_nat k)) as (b'' & Hrun' & _ & _ & Hbits & _);
    [lia..|].
  rewrite Hrun in Hrun'. injection Hrun' as <-.
  apply (written_extend b b' bs _ Hw Hs' Hl); [rewrite length_bigEndian; lia|].
  intros j x Hx. apply bigEndian_lookup in Hx as [Hj ->].
  apply byte_eq_of_bits.
  - apply readByte_range. by destruct Hs' as (_ & _ & ?).
  - apply Z.mod_pos_bound. lia.
  - intros t Ht. replace t with (7 - (7 - t)) at 1 by lia.
    rewrite <- bitAt_byte by lia.
    replace (8 * Z.of_nat (length bs + j) + (7 - t))
      with (BitString.cursor b + (8 * Z.of_nat j + (7 - t))) by lia.
    rewrite <- get_bitAt by lia. rewrite Hbits by lia.
    change 256 with (2 ^ 8) at 2. rewrite Z.mod_pow2_bits_low by lia.
    rewrite pow256 by lia. rewrite Z.div_pow2_bits by lia.
    f_equal. lia.
Qed.

(** The flags byte: three bits, a two-bit field and a three-bit field. *)
Lemma written_flags (b b1 b2 b3 : BitString.t) (bs : list Z)
    (x y z : bool) (flags size : Z) :
  written b bs →
  BitString.writeBitArray b [x; y; z] = Done b1 →
  0 ≤ flags → BitString.writeUint b1 flags 2 = Done b2 →
  0 ≤ size → BitString.writeUint b2 size 3 = Done b3 →
  written b3 (bs ++ [Z.b2z x * 128 + Z.b2z y * 64 + Z.b2z z * 32 + flags * 8 + size])
  ∧ flags < 4 ∧ size < 8.
Proof.
  intros Hw H1 Hf H2 Hsz H3. pose proof Hw as (Hs & Hcur & _).
  destruct (writeBitArray_later _ _ _ Hs H1) as (Hs1 & Hl1 & Hc1).
  destruct (writeUint_later b1 b2 flags 2 Hs1 ltac:(lia) H2) as (Hs2 & Hl2 & Hc2).
  destruct (writeUint_later b2 b3 size 3 Hs2 ltac:(lia) H3) as (Hs3 & Hl3 & Hc3).
  cbn [length] in Hc1.
  pose proof (later_trans _ _ _ Hl1 (later_trans _ _ _ Hl2 Hl3)) as Hl.
  destruct (written_sound_room b b3 bs 1 Hw Hs3 Hl ltac:(lia) ltac:(lia))
    as [Hroom Harr].
  assert (Hflags : flags < 2 ^ 2).
  { destruct (Z.lt_ge_cases flags (2 ^ 2)) as [|Hge]; [done|].
    rewrite writeUint_too_wide in H2 by lia. done. }
  assert (Hsize : size < 2 ^ 3).
  { destruct (Z.lt_ge_cases size (2 ^ 3)) as [|Hge]; [done|].
    rewrite writeUint_too_wide in H3 by lia. done. }
  split; [|split; [exact Hflags|exact Hsize]].
  destruct (writeBitArray_spec [x; y; z] b) as (b1' & H1' & _ & _ & Ha1 & Hb1);
    [cbn [length]; lia..|].
  rewrite H1 in H1'. injection H1' as <-.
  destruct Hl1 as (_ & Hlen1 & _ & _). destruct Hl2 as (_ & Hlen2 & Ha2 & _).
  destruct (writeUint_bits b1 flags 2) as (b2' & H2' & _ & _ & Hb2 & Hk2);
    [lia..|].
  rewrite H2 in H2'. injection H2' as <-.
  destruct (writeUint_bits b2 size 3) as (b3' & H3' & _ & _ & Hb3 & Hk3);
    [lia..|].
  rewrite H3 in H3'. injection H3' as <-.
  apply (written_extend b b3 bs _ Hw Hs3 Hl); [cbn [length]; lia|].
  intros [|j] v Hv; [|done]. injection Hv as <-. rewrite Nat.add_0_r.
  set (q := Z.of_nat (length bs)) in *.
  assert (Hbit : ∀ i, 0 ≤ i < 8 →
    BitString.get b3 (8 * q + i)
    = match i with
      | 0 => x | 1 => y | 2 => z
      | 3 => Z.testbit flags 1 | 4 => Z.testbit flags 0
      | 5 => Z.testbit size 2 | 6 => Z.testbit size 1 | _ => Z.testbit size 0
      end).
  { intros i Hi.
    assert (Hfirst : ∀ i, 0 ≤ i < 3 →
      BitString.get b1 (8 * q + i) = default false ([x; y; z] !! Z.to_nat i)).
    { intros i' Hi'. rewrite get_bitAt by lia. rewrite Hb1 by lia.
      cbn [length]. rewrite decide_True by lia. do 2 f_equal. lia. }
    destruct (decide (i < 3)) as [H03|H03].
    - rewrite Hk3 by lia. rewrite Hk2 by lia. rewrite Hfirst by lia.
      assert (i = 0 ∨ i = 1 ∨ i = 2) as [->|[->| ->]] by lia; done.
    - destruct (decide (i < 5)) as [H35|H35].
      + rewrite Hk3 by lia.
        replace (8 * q + i) with (BitString.cursor b1 + (i - 3)) by lia.
        rewrite Hb2 by lia.
        assert (i = 3 ∨ i = 4) as [->| ->] by lia; done.
      + replace (8 * q + i) with (BitString.cursor b2 + (i - 5)) by lia.
        rewrite Hb3 by lia.
        assert (i = 5 ∨ i = 6 ∨ i = 7) as [->|[->| ->]] by lia; done. }
  apply byte_eq_of_bits.
  - apply readByte_range. by destruct Hs3 as (_ & _ & ?).
  - destruct x, y, z; cbn [Z.b2z]; lia.
  - intros t Ht. replace t with (7 - (7 - t)) at 1 by lia.
    rewrite <- bitAt_byte by lia. rewrite <- get_bitAt by lia.
    rewrite Hbit by lia.
    assert (Hfl : flags = 0 ∨ flags = 1 ∨ flags = 2 ∨ flags = 3) by lia.
    assert (Hsz' : size = 0 ∨ size = 1 ∨ size = 2 ∨ size = 3
                   ∨ size = 4 ∨ size = 5 ∨ size = 6 ∨ size = 7) by lia.
    assert (Ht' : t = 0 ∨ t = 1 ∨ t = 2 ∨ t = 3 ∨ t = 4 ∨ t = 5 ∨ t = 6 ∨ t = 7)
      by lia.
    clear -Hfl Hsz' Ht'.
    destruct Ht' as [->|[->|[->|[->|[->|[->|[->| ->]]]]]]];
      destruct Hfl as [->|[->|[->| ->]]];
      destruct Hsz' as [->|[->|[->|[->|[->|[->|[->| ->]]]]]]];
      destruct x, y, z; reflexivity.
Qed.

(** ** The bytes of an envelope *)

Lemma byteRange_slice (arr : list Z) (a b : Z) :
  byteRange arr → byteRange (slice arr a b).
Proof. intros Hr. unfold slice. by apply Forall_take, Forall_drop. Qed.

Lemma hexToBytes_range (s : list ascii) (bytes : list Z) :
  Hex.hexToBytes s = Done bytes → byteRange bytes.
Proof.
  intros Hrun.
  destruct (Z.eq_dec (Z.of_nat (length s) mod 2) 0) as [Heven|Hodd].
  - destruct (hexToBytes_even s Heven) as [Hok Hbad].
    destruct (decide (Forall (λ c, is_Some (Hex.digitValue (Hex.lowerChar c))) s))
      as [Hall|Hno].
    + destruct (Hok Hall) as (bytes' & Hrun' & Hr & _).
      rewrite Hrun in Hrun'. by injection Hrun' as <-.
    + destruct (Hbad Hno) as [msg Hmsg]. by rewrite Hmsg in Hrun.
  - unfold Hex.hexToBytes in Hrun. rewrite length_map in Hrun.
    rewrite Z.rem_mod_nonneg in Hrun by lia.
    by destruct (Z.eqb_spec (Z.of_nat (length s) mod 2) 0).
Qed.

Lemma topUpped_range (b : BitString.t) (arr : list Z) :
  sound b → BitString.getTopUppedArray b = Done arr → byteRange arr.
Proof.
  intros Hs Hrun.
  destruct (getTopUppedArray_later b arr Hs Hrun) as (ret & (_ & _ & Hr) & _ & ->).
  by apply byteRange_slice.
Qed.

Lemma offsets_cons (ser : list Z) (sers : list (list Z)) :
  offsets (ser :: sers)
  = 0 :: map (λ o, Z.of_nat (length ser) + o) (offsets sers).
Proof.
  unfold offsets. cbn [length seq map take mjoin list_join]. f_equal.
  rewrite <- seq_shift, !map_map. apply map_ext. intros i.
  cbn [take mjoin list_join]. by rewrite length_app, Nat2Z.inj_add.
Qed.

Section Layout.

Context (hash : Cell.t → list Z) (uint8ArrayToText : list Z → string).

Lemma serializeForBoc_range (cell : Cell.t) (cellsIndex : gmap string nat)
    (x : list Z) :
  sound (Cell.bits cell) →
  serializeForBoc hash uint8ArrayToText cell cellsIndex = Done x →
  byteRange x.
Proof.
  intros Hs Hrun.
  destruct (serializeForBoc_references hash uint8ArrayToText cell cellsIndex x Hrun)
    as (dwd & js & refs & Hd & _ & Hrefs & ->).
  apply Forall_app. split.
  - unfold Cell.getDataWithDescriptors in Hd.
    apply bind_Done in Hd as (tu & Htu & Hd). injection Hd as <-.
    unfold Utils.concatBytes, Cell.getRefsDescriptor, Cell.getBitsDescriptor.
    do 2 (constructor; [apply Z.mod_pos_bound; lia|]).
    by apply (topUpped_range (Cell.bits cell)).
  - clear Hrun. induction Hrefs as [|j r js refs Hj Hrefs IH]; [constructor|].
    cbn. apply Forall_app. split; [|exact IH].
    unfold referenceBytes in Hj. by apply hexToBytes_range in Hj.
Qed.

(** The loop of [toBoc] that measures the cells. *)
Lemma toBoc_sizes (cellsIndex : gmap string nat) (T : list (list Z * Cell.t)) :
  ∀ (sizeIndex sizeIndex' : list Z) (full_size full_size' : Z),
  forEachM
    (λ '(sizeIndex, full_size) (cell_info : list Z * Cell.t),
       size ← bocSerializationSize hash uint8ArrayToText cell_info.2 cellsIndex;
       Done (sizeIndex ++ [full_size], full_size + size))
    T (sizeIndex, full_size) = Done (sizeIndex', full_size') →
  ∃ sers,
    Forall2 (λ e ser,
               serializeForBoc hash uint8ArrayToText e.2 cellsIndex = Done ser)
      T sers
    ∧ sizeIndex' = sizeIndex ++ map (λ o, full_size + o) (offsets sers)
    ∧ full_size' = full_size + Z.of_nat (length (mjoin sers)).
Proof.
  induction T as [|e T IH]; intros si si' fs fs' Hrun.
  - cbn in Hrun. injection Hrun as <- <-. exists [].
    split; [constructor|]. cbn. split; [by rewrite app_nil_r|lia].
  - cbn [forEachM] in Hrun. apply bind_Done in Hrun as ([si1 fs1] & H1 & Hrun).
    apply bind_Done in H1 as (size & Hsize & H1). injection H1 as <- <-.
    unfold bocSerializationSize in Hsize.
    apply bind_Done in Hsize as (ser & Hser & Hsize). injection Hsize as <-.
    destruct (IH _ _ _ _ Hrun) as (sers & Hall & -> & ->).
    exists (ser :: sers). split; [by constructor|]. split.
    + rewrite <- app_assoc. f_equal. rewrite offsets_cons. cbn [map app].
      f_equal; [lia|]. rewrite map_map. apply map_ext. intros o. lia.
    + cbn [mjoin list_join]. by rewrite length_app, Nat2Z.inj_add, Z.add_assoc.
Qed.

Lemma offsets_nonneg (sers : list (list Z)) : Forall (λ o, 0 ≤ o) (offsets sers).
Proof.
  unfold offsets. apply Forall_fmap, Forall_forall. intros i _. cbn. lia.
Qed.

Lemma length_offsets (sers : list (list Z)) : length (offsets sers) = length sers.
Proof. unfold offsets. by rewrite length_map, length_seq. Qed.

(** The loop of [toBoc] that writes the index. *)
Lemma toBoc_index (k : nat) (values : list Z) :
  (1 ≤ k)%nat → Forall (λ o, 0 ≤ o) values →
  ∀ (indices : list nat) (b b' : BitString.t) (bs : list Z),
  written b bs →
  forEachM
    (λ serialization index,
       match values !! index with
       | Some offset =>
           BitString.writeUint serialization offset (Z.of_nat k * 8)
       | None => Throw "writeUint: value is undefined"
       end) indices b = Done b' →
  ∃ vs, Forall2 (λ i v, values !! i = Some v) indices vs
        ∧ written b' (bs ++ mjoin (map (bigEndian k) vs)).
Proof.
  intros Hk Hpos. induction indices as [|i indices IH]; intros b b' bs Hw Hrun.
  - cbn in Hrun. injection Hrun as <-. exists []. split; [constructor|].
    cbn. by rewrite app_nil_r.
  - cbn [forEachM] in Hrun. apply bind_Done in Hrun as (b1 & H1 & Hrun).
    destruct (values !! i) as [v|] eqn:Hv; [|done].
    assert (0 ≤ v) by (by eapply Forall_lookup_1 in Hpos).
    rewrite (Z.mul_comm (Z.of_nat k) 8) in H1.
    destruct (written_uint b b1 bs v k Hw ltac:(done) Hk H1) as [Hw1 _].
    destruct (IH b1 b' _ Hw1 Hrun) as (vs & Hvs & Hw').
    exists (v :: vs). split; [by constructor|].
    cbn [map mjoin list_join]. by rewrite app_assoc.
Qed.

(** The loop of [toBoc] that writes the cells. *)
Lemma toBoc_cells (cellsIndex : gmap string nat) (T : list (list Z * Cell.t)) :
  Forall (λ e, sound (Cell.bits e.2)) T →
  ∀ (sers : list (list Z)) (b b' : BitString.t) (bs : list Z),
  Forall2 (λ e ser,
             serializeForBoc hash uint8ArrayToText e.2 cellsIndex = Done ser)
    T sers →
  written b bs →
  forEachM
    (λ serialization (cell_info : list Z * Cell.t),
       refcell_ser ← serializeForBoc hash uint8ArrayToText cell_info.2 cellsIndex;
       BitString.writeBytes serialization refcell_ser)
    T b = Done b' →
  written b' (bs ++ mjoin sers).
Proof.
  intros Hsound. induction Hsound as [|e T He HT IH];
    intros sers b b' bs Hall Hw Hrun.
  - apply Forall2_nil_inv_l in Hall as ->. cbn in Hrun. injection Hrun as <-.
    cbn. by rewrite app_nil_r.
  - apply Forall2_cons_inv_l in Hall as (ser & sers' & Hser & Hall & ->).
    cbn [forEachM] in Hrun. apply bind_Done in Hrun as (b1 & H1 & Hrun).
    rewrite Hser in H1. cbn [mbind result_bind] in H1.
    cbn [mjoin list_join]. rewrite app_assoc.
    apply (IH sers' b1 b'); [done| |done].
    apply (written_bytes ser b b1 bs Hw); [|done].
    eapply Forall_impl; [by eapply serializeForBoc_range|]. cbn. lia.
Qed.


Lemma lookup_all (values vs : list Z) :
  Forall2 (λ i v, values !! i = Some v) (seq 0 (length values)) vs →
  vs = values.
Proof.
  intros Hall. apply list_eq. intros i.
  destruct (decide (i < length values)%nat) as [Hi|Hi].
  - destruct (lookup_lt_is_Some_2 values i Hi) as [v Hv].
    pose proof (Forall2_lookup_l _ _ _ i i Hall (lookup_seq_lt _ _ _ Hi))
      as (v' & Hv' & Hvalue).
    cbn in Hvalue. by rewrite Hv', Hvalue.
  - rewrite (lookup_ge_None_2 values) by lia.
    apply lookup_ge_None_2. apply Forall2_length in Hall.
    rewrite length_seq in Hall. lia.
Qed.

(** The bytes of a successful [toBoc], in order: the magic prefix; the
    flags byte [has_idx, hash_crc32, has_cache_bits, flags (2 bits), size 1];
    the number [ob] of bytes of an offset; the number of cells, [1] root and
    [0] absent cells on one byte each; the size of the cell data on [ob]
    bytes; the root index [0]; with [has_idx], where each cell starts in the
    cell data, on [ob] bytes each; the serialized cells in topological
    order; with [hash_crc32], the CRC32-C of all the bytes before it. *)
Lemma toBoc_bytes (fuel : nat) (cell : Cell.t)
    (has_idx hash_crc32 has_cache_bits : bool) (flags : Z) T H (out : list Z) :
  treeWalk hash uint8ArrayToText fuel cell [] ∅ None = Done (T, H) →
  Forall (λ e, sound (Cell.bits e.2)) T →
  0 ≤ flags →
  toBoc hash uint8ArrayToText fuel cell has_idx hash_crc32 has_cache_bits flags
  = Done out →
  ∃ sers,
    Forall2 (λ e ser, serializeForBoc hash uint8ArrayToText e.2 H = Done ser)
      T sers
    ∧ flags < 4
    ∧ Z.of_nat (length T) ≤ 255
    ∧ let full_size := Z.of_nat (length (mjoin sers)) in
      let ob := Z.to_nat (offset_bytes_of full_size) in
      (1 ≤ ob)%nat ∧ full_size < 256 ^ Z.of_nat ob ∧
      let body :=
        reachBocMagicPrefix
        ++ [Z.b2z has_idx * 128 + Z.b2z hash_crc32 * 64
            + Z.b2z has_cache_bits * 32 + flags * 8 + 1;
            Z.of_nat ob; Z.of_nat (length T); 1; 0]
        ++ bigEndian ob full_size ++ [0]
        ++ (if has_idx then mjoin (map (bigEndian ob) (offsets sers)) else [])
        ++ mjoin sers in
      out = if hash_crc32 then body ++ Crc.crc32c body else body.
Proof.
  intros Htw Hsound Hflags Hout. unfold toBoc in Hout. rewrite Htw in Hout.
  cbn [mbind result_bind] in Hout. cbv beta iota zeta in Hout.
  rewrite !s_bytes_of_one in Hout. change (1 * 8) with 8 in Hout.
  set (n := Z.of_nat (length T)) in *.
  apply bind_Done in Hout as ([sizeIndex full_size] & Hsizes & Hout).
  cbv beta iota zeta in Hout.
  destruct (toBoc_sizes H T [] sizeIndex 0 full_size Hsizes)
    as (sers & Hsers & -> & ->).
  exists sers. split; [exact Hsers|].
  pose proof (Forall2_length _ _ _ Hsers) as Hlen.
  rewrite !Z.add_0_l in Hout.
  set (full := Z.of_nat (length (mjoin sers))) in *.
  pose proof (offset_bytes_of_pos full) as Hob.
  set (obz := offset_bytes_of full) in *.
  assert (Hobz : obz = Z.of_nat (Z.to_nat obz)) by lia.
  set (ser0 := BitString.new _) in Hout.
  assert (written ser0 []) as W0 by (apply written_new; lia).
  apply bind_Done in Hout as (ser1 & R1 & Hout).
  pose proof (written_bytes reachBocMagicPrefix ser0 ser1 [] W0
                ltac:(repeat constructor; lia) R1) as W1.
  apply bind_Done in Hout as (ser2 & R2 & Hout).
  apply bind_Done in Hout as (ser3 & R3 & Hout).
  apply bind_Done in Hout as (ser4 & R4 & Hout).
  destruct (written_flags ser1 ser2 ser3 ser4 _ has_idx hash_crc32 has_cache_bits
              flags 1 W1 R2 Hflags R3 ltac:(lia) R4)
    as (W4 & Hfl & _).
  apply bind_Done in Hout as (ser5 & R5 & Hout).
  pose proof (written_byte ser4 ser5 _ obz W4 ltac:(lia) R5) as W5.
  apply bind_Done in Hout as (ser6 & R6 & Hout).
  pose proof (written_byte ser5 ser6 _ n W5 ltac:(lia) R6) as W6.
  assert (n < 2 ^ 8) as Hn.
  { destruct (Z.lt_ge_cases n (2 ^ 8)) as [?|Hge]; [done|].
    rewrite writeUint_too_wide in R6 by lia. done. }
  apply bind_Done in Hout as (ser7 & R7 & Hout).
  pose proof (written_byte ser6 ser7 _ 1 W6 ltac:(lia) R7) as W7.
  apply bind_Done in Hout as (ser8 & R8 & Hout).
  pose proof (written_byte ser7 ser8 _ 0 W7 ltac:(lia) R8) as W8.
  apply bind_Done in Hout as (ser9 & R9 & Hout).
  rewrite (Z.mul_comm obz 8), Hobz in R9.
  destruct (written_uint ser8 ser9 _ full (Z.to_nat obz) W8 ltac:(lia) ltac:(lia) R9)
    as [W9 Hfull].
  apply bind_Done in Hout as (ser10 & R10 & Hout).
  pose proof (written_byte ser9 ser10 _ 0 W9 ltac:(lia) R10) as W10.
  apply bind_Done in Hout as (ser11 & R11 & Hout).
  match type of W10 with written _ ?l => set (pre := l) in * end.
  assert (written ser11
            (pre ++ (if has_idx
                     then mjoin (map (bigEndian (Z.to_nat obz)) (offsets sers))
                     else []))) as W11.
  { destruct has_idx.
    - rewrite Hobz in R11. cbn [app] in R11.
      replace (map (λ o, 0 + o) (offsets sers)) with (offsets sers) in R11
        by (rewrite <- (map_id (offsets sers)) at 1; by apply map_ext).
      destruct (toBoc_index (Z.to_nat obz) (offsets sers) ltac:(lia)
                  (offsets_nonneg sers) _ _ _ _ W10 R11) as (vs & Hvs & W11).
      rewrite <- (length_offsets sers) in Hlen. rewrite Hlen in Hvs.
      by rewrite (lookup_all _ _ Hvs) in W11.
    - injection R11 as <-. by rewrite app_nil_r. }
  apply bind_Done in Hout as (ser12 & R12 & Hout).
  pose proof (toBoc_cells H T Hsound sers _ _ _ Hsers W11 R12) as W12.
  apply bind_Done in Hout as (ser_arr & R13 & Hout).
  rewrite (written_topUpped _ _ W12) in R13. injection R13 as <-.
  split; [lia|]. split; [lia|]. cbn zeta. fold full obz.
  split; [lia|]. split; [exact Hfull|].
  injection Hout as <-. unfold Utils.concatBytes. fold full obz.
  rewrite <- Hobz. subst pre. unfold reachBocMagicPrefix.
  cbn [app]. repeat (rewrite <- !app_assoc; cbn [app]).
  reflexivity.
Qed.

(** X18: the bytes of a successful [toBoc], in order: the magic prefix; the
    flags byte [has_idx, hash_crc32, has_cache_bits, flags (2 bits), size 1];
    the number [ob] of bytes of an offset; the number of cells, [1] root and
    [0] absent cells on one byte each; the size of the cell data on [ob]
    bytes; the root index [0]; with [has_idx], where each cell starts in the
    cell data, on [ob] bytes each; the serialized cells in topological
    order; with [hash_crc32], the CRC32-C of all the bytes before it. *)
Theorem toBoc_layout (fuel : nat) (cell : Cell.t)
    (has_idx hash_crc32 has_cache_bits : bool) (flags : Z) T H (out : list Z) :
  treeWalk hash uint8ArrayToText fuel cell [] ∅ None = Done (T, H) →
  Forall (λ e, sound (Cell.bits e.2)) T →
  0 ≤ flags →
  toBoc hash uint8ArrayToText fuel cell has_idx hash_crc32 has_cache_bits flags
  = Done out →
  ∃ sers,
    Forall2 (λ e ser, serializeForBoc hash uint8ArrayToText e.2 H = Done ser)
      T sers
    ∧ flags < 4
    ∧ Z.of_nat (length T) ≤ 255
    ∧ let full_size := Z.of_nat (length (mjoin sers)) in
      let ob := Z.to_nat (offset_bytes_of full_size) in
      let body :=
        reachBocMagicPrefix
        ++ [Z.b2z has_idx * 128 + Z.b2z hash_crc32 * 64
            + Z.b2z has_cache_bits * 32 + flags * 8 + 1;
            Z.of_nat ob; Z.of_nat (length T); 1; 0]
        ++ bigEndian ob full_size ++ [0]
        ++ (if has_idx then mjoin (map (bigEndian ob) (offsets sers)) else [])
        ++ mjoin sers in
      out = if hash_crc32 then body ++ Crc.crc32c body else body.
Proof.
  intros Htw Hsound Hflags Hout.
  destruct (toBoc_bytes fuel cell has_idx hash_crc32 has_cache_bits flags T H out
              Htw Hsound Hflags Hout) as (sers & Hsers & Hfl & Hn & _ & _ & Hbody).
  exists sers. by repeat (split; [done|]).
Qed.

End Layout.



Lemma soundb_sound (b : BitString.t) : soundb b = true → sound b.
Proof.
  unfold soundb, sound. intros H.
  apply andb_prop in H as [H Hr]. apply andb_prop in H as [H Hcap].
  apply andb_prop in H as [H0 H1].
  apply Z.leb_le in H0, H1, Hcap. split; [lia|]. split; [done|].
  apply Forall_forall. intros x Hx.
  rewrite forallb_forall in Hr. apply list_elem_of_In in Hx.
  specialize (Hr x Hx). apply andb_prop in Hr as [Ha%Z.leb_le Hb%Z.ltb_lt]. lia.
Qed.

Lemma toBoc_layout_witness :
  ∃ T H out,
    treeWalk exampleHash exampleText 2 (exampleChain 1) [] ∅ None = Done (T, H)
    ∧ toBoc exampleHash exampleText 2 (exampleChain 1) true true false 0 = Done out
    ∧ ∃ sers,
        Forall2 (λ e ser, serializeForBoc exampleHash exampleText e.2 H = Done ser)
          T sers
        ∧ 0 < 4
        ∧ Z.of_nat (length T) ≤ 255
        ∧ let full_size := Z.of_nat (length (mjoin sers)) in
          let ob := Z.to_nat (offset_bytes_of full_size) in
          let body :=
            reachBocMagicPrefix
            ++ [Z.b2z true * 128 + Z.b2z true * 64 + Z.b2z false * 32 + 0 * 8 + 1;
                Z.of_nat ob; Z.of_nat (length T); 1; 0]
            ++ bigEndian ob full_size ++ [0]
            ++ (if true then mjoin (map (bigEndian ob) (offsets sers)) else [])
            ++ mjoin sers in
          out = if true then body ++ Crc.crc32c body else body.
Proof.
  eexists _, _, _. split; [vm_compute; reflexivity|].
  split; [vm_compute; reflexivity|].
  eapply (toBoc_layout exampleHash exampleText 2 (exampleChain 1) true true false 0).
  - vm_compute. reflexivity.
  - repeat (apply Forall_cons_2; [apply soundb_sound; vm_compute; reflexivity|]).
    apply Forall_nil_2.
  - lia.
  - vm_compute. reflexivity.
Defined.

(** ** Reading the header back: [parseBocHeader] *)

Lemma sliceFrom_app {A} (l1 l2 : list A) :
  Boc.sliceFrom (l1 ++ l2) (Z.of_nat (length l1)) = l2.
Proof.
  unfold Boc.sliceFrom, slice, relativeIndex. cbv zeta.
  destruct (Z.ltb_spec (Z.of_nat (length l1)) 0); [lia|].
  destruct (Z.ltb_spec (Z.of_nat (length (l1 ++ l2))) 0); [lia|].
  rewrite Z.min_id. rewrite Z.min_l by (rewrite length_app; lia).
  rewrite Nat2Z.id, drop_app_length.
  apply take_ge. rewrite length_app. lia.
Qed.

Lemma sliceFrom_app_at {A} (l1 l2 : list A) (n : Z) :
  n = Z.of_nat (length l1) → Boc.sliceFrom (l1 ++ l2) n = l2.
Proof. intros ->. apply sliceFrom_app. Qed.

Lemma slice_app {A} (l1 l2 : list A) :
  slice (l1 ++ l2) 0 (Z.of_nat (length l1)) = l1.
Proof.
  rewrite slice_prefix by (rewrite length_app; lia).
  by rewrite Nat2Z.id, take_app_length.
Qed.

Lemma slice_app_at {A} (l1 l2 : list A) (n : Z) :
  n = Z.of_nat (length l1) → slice (l1 ++ l2) 0 n = l1.
Proof. intros ->. apply slice_app. Qed.

Lemma readNumbers_bigEndian (k : nat) (values : list Z) :
  (1 ≤ k)%nat →
  Forall (λ v, 0 ≤ v < 256 ^ Z.of_nat k) values →
  ∀ (acc rest : list Z),
  Parser.readNumbers (length values) (Z.of_nat k) acc
    (mjoin (map (bigEndian k) values) ++ rest)
  = (acc ++ values, rest).
Proof.
  intros Hk Hvalues. induction Hvalues as [|v values Hv Hvalues IH]; intros acc rest.
  - cbn. by rewrite app_nil_r.
  - change (mjoin (map (bigEndian k) (v :: values)))
      with (bigEndian k v ++ mjoin (map (bigEndian k) values)).
    cbn [length Parser.readNumbers].
    rewrite <- app_assoc. rewrite readNBytes_bigEndian by done.
    rewrite sliceFrom_app_at by (by rewrite length_bigEndian).
    rewrite IH. by rewrite <- app_assoc.
Qed.

Lemma length_mjoin_bigEndian (k : nat) (values : list Z) :
  length (mjoin (map (bigEndian k) values)) = (k * length values)%nat.
Proof.
  induction values as [|v values IH]; [cbn; lia|].
  change (mjoin (map (bigEndian k) (v :: values)))
    with (bigEndian k v ++ mjoin (map (bigEndian k) values)).
  rewrite length_app, length_bigEndian, IH. cbn [length]. lia.
Qed.

Lemma compareBytes_refl (a : list Z) : Utils.compareBytes a a = true.
Proof. unfold Utils.compareBytes. by apply bool_decide_eq_true. Qed.

Lemma length_crc32c (bytes : list Z) : length (Crc.crc32c bytes) = 4%nat.
Proof. reflexivity. Qed.

(** The fields of the flags byte, as [parseBocHeader] takes them out. *)
Lemma flags_byte_fields (x y z : bool) (flags : Z) :
  0 ≤ flags < 4 →
  let flags_byte :=
    Z.b2z x * 128 + Z.b2z y * 64 + Z.b2z z * 32 + flags * 8 + 1 in
  Z.land flags_byte 128 = Z.b2z x * 128
  ∧ Z.land flags_byte 64 = Z.b2z y * 64
  ∧ Z.land flags_byte 32 = Z.b2z z * 32
  ∧ Z.land flags_byte 16 * 2 + Z.land flags_byte 8
    = 32 * (flags / 2) + 8 * (flags mod 2)
  ∧ Z.rem flags_byte 8 = 1.
Proof.
  intros Hf.
  assert (flags = 0 ∨ flags = 1 ∨ flags = 2 ∨ flags = 3) as [->|[->|[->| ->]]]
    by lia; destruct x, y, z; by vm_compute.
Qed.

Lemma offsets_bound (sers : list (list Z)) :
  Forall (λ o, 0 ≤ o ≤ Z.of_nat (length (mjoin sers))) (offsets sers).
Proof.
  unfold offsets. apply Forall_fmap, Forall_forall. intros i _. cbn.
  split; [lia|]. apply inj_le.
  rewrite <- (take_drop i sers) at 2. rewrite join_app, length_app. lia.
Qed.

(** What [parseBocHeader] finds in bytes laid out as [toBoc] lays them
    out. *)
Lemma parseBocHeader_bytes (x y z : bool) (flags : Z) (ob n : nat)
    (sers : list (list Z)) :
  0 ≤ flags < 4 → (1 ≤ ob)%nat →
  Z.of_nat (length (mjoin sers)) < 256 ^ Z.of_nat ob →
  length sers = n → 0 ≤ Z.of_nat n < 256 →
  let full_size := Z.of_nat (length (mjoin sers)) in
  let body :=
    reachBocMagicPrefix
    ++ [Z.b2z x * 128 + Z.b2z y * 64 + Z.b2z z * 32 + flags * 8 + 1;
        Z.of_nat ob; Z.of_nat n; 1; 0]
    ++ bigEndian ob full_size ++ [0]
    ++ (if x then mjoin (map (bigEndian ob) (offsets sers)) else [])
    ++ mjoin sers in
  Parser.parseBocHeader (if y then body ++ Crc.crc32c body else body)
  = Done (mkParsedHeader
            (if x then Some (offsets sers) else None)
            (Z.of_nat n) 1 [0] 1 0 (mjoin sers) (Some full_size)
            (32 * (flags / 2) + 8 * (flags mod 2)) (Z.of_nat ob)
            (Z.b2z x * 128) (Z.b2z y * 64) (Z.b2z z * 32)).
Proof.
  intros Hflags Hob Hfull Hlen Hn full body.
  set (out := if y then body ++ Crc.crc32c body else body).
  set (tail := bigEndian ob full ++ [0]
               ++ (if x then mjoin (map (bigEndian ob) (offsets sers)) else [])
               ++ mjoin sers ++ (if y then Crc.crc32c body else [])).
  set (fb := Z.b2z x * 128 + Z.b2z y * 64 + Z.b2z z * 32 + flags * 8 + 1).
  assert (Hout : out = [181; 238; 156; 114] ++ fb :: Z.of_nat ob :: Z.of_nat n
                         :: 1 :: 0 :: tail).
  { unfold out, body, tail, reachBocMagicPrefix. fold fb.
    destruct y; cbn [app]; repeat (rewrite <- !app_assoc; cbn [app]);
      rewrite ?app_nil_r; reflexivity. }
  unfold Parser.parseBocHeader. rewrite Hout.
  destruct (Z.ltb_spec (Z.of_nat (length ([181; 238; 156; 114] ++ fb :: Z.of_nat ob
              :: Z.of_nat n :: 1 :: 0 :: tail))) (4 + 1)) as [Hshort|_].
  { rewrite length_app in Hshort. cbn [length] in Hshort. lia. }
  rewrite (slice_app [181; 238; 156; 114]).
  rewrite (sliceFrom_app [181; 238; 156; 114]).
  change (Utils.compareBytes [181; 238; 156; 114] reachBocMagicPrefix) with true.
  cbv iota.
  change (readByte (fb :: Z.of_nat ob :: Z.of_nat n :: 1 :: 0 :: tail) 0) with fb.
  destruct (flags_byte_fields x y z flags Hflags) as (F1 & F2 & F3 & F4 & F5).
  fold fb in F1, F2, F3, F4, F5. rewrite F1, F2, F3, F4, F5.
  cbn [mbind result_bind]. cbv beta iota.
  change (fb :: Z.of_nat ob :: Z.of_nat n :: 1 :: 0 :: tail)
    with ([fb] ++ Z.of_nat ob :: Z.of_nat n :: 1 :: 0 :: tail).
  rewrite (sliceFrom_app [fb]).
  destruct (Z.ltb_spec (Z.of_nat (length (Z.of_nat ob :: Z.of_nat n :: 1 :: 0 :: tail)))
              (1 + 5 * 1)) as [Hshort|_].
  { unfold tail in Hshort. cbn [length] in Hshort.
    rewrite !length_app, length_bigEndian in Hshort. cbn [length] in Hshort. lia. }
  change (readByte (Z.of_nat ob :: Z.of_nat n :: 1 :: 0 :: tail) 0) with (Z.of_nat ob).
  cbv zeta.
  change (Z.of_nat ob :: Z.of_nat n :: 1 :: 0 :: tail)
    with ([Z.of_nat ob] ++ Z.of_nat n :: 1 :: 0 :: tail).
  rewrite (sliceFrom_app [Z.of_nat ob]).
  change (Utils.readNBytesUIntFromArray 1 (Z.of_nat n :: 1 :: 0 :: tail))
    with (Z.of_nat n).
  change (Z.of_nat n :: 1 :: 0 :: tail) with ([Z.of_nat n] ++ 1 :: 0 :: tail).
  rewrite (sliceFrom_app [Z.of_nat n]).
  change (Utils.readNBytesUIntFromArray 1 (1 :: 0 :: tail)) with 1.
  change (1 :: 0 :: tail) with ([1] ++ 0 :: tail).
  rewrite (sliceFrom_app [1]).
  change (Utils.readNBytesUIntFromArray 1 (0 :: tail)) with 0.
  change (0 :: tail) with ([0] ++ tail).
  rewrite (sliceFrom_app [0]).
  unfold Parser.readTotalSize.
  set (rest1 := [0]
               ++ (if x then mjoin (map (bigEndian ob) (offsets sers)) else [])
               ++ mjoin sers ++ (if y then Crc.crc32c body else [])).
  assert (Htail : tail = bigEndian ob full ++ rest1) by reflexivity.
  rewrite Htail.
  destruct (Z.ltb_spec (Z.of_nat (length (bigEndian ob full ++ rest1))) (Z.of_nat ob))
    as [Hshort|_].
  { rewrite length_app, length_bigEndian in Hshort. lia. }
  rewrite readNBytes_bigEndian by (unfold full; lia).
  rewrite sliceFrom_app_at by (by rewrite length_bigEndian).
  unfold rest1. cbn [app].
  set (rest2 := (if x then mjoin (map (bigEndian ob) (offsets sers)) else [])
                ++ mjoin sers ++ (if y then Crc.crc32c body else [])).
  destruct (Z.ltb_spec (Z.of_nat (length (0 :: rest2))) (1 * 1)) as [Hshort|_].
  { cbn [length] in Hshort. lia. }
  change (Z.to_nat 1) with 1%nat. cbn [Parser.readNumbers app].
  change (Utils.readNBytesUIntFromArray 1 (0 :: rest2)) with 0.
  change (0 :: rest2) with ([0] ++ rest2). rewrite (sliceFrom_app [0]).
  set (rest3 := mjoin sers ++ (if y then Crc.crc32c body else [])).
  assert (Hindex :
    (if Z.b2z x * 128 =? 0 then Done (None, rest2)
     else if Z.of_nat (length rest2) <? Z.of_nat ob * Z.of_nat n
     then Throw "Not enough bytes for index encoding"
     else
       let '(index, serializedBoc) :=
         Parser.readNumbers (Z.to_nat (Z.of_nat n)) (Z.of_nat ob) [] rest2 in
       Done (Some index, serializedBoc))
    = Done (if x then Some (offsets sers) else None, rest3)).
  { unfold rest2. destruct x; cbn [Z.b2z Z.mul Z.eqb app]; [|done].
    fold rest3.
    destruct (Z.ltb_spec (Z.of_nat (length (mjoin (map (bigEndian ob) (offsets sers))
                                         ++ rest3)))
                (Z.of_nat ob * Z.of_nat n)) as [Hshort|_].
    { rewrite length_app, length_mjoin_bigEndian, length_offsets in Hshort. nia. }
    rewrite Nat2Z.id. rewrite <- Hlen, <- (length_offsets sers).
    rewrite readNumbers_bigEndian; [done|done|].
    eapply Forall_impl; [apply offsets_bound|]. cbn. unfold full in Hfull. lia. }
  rewrite Hindex. cbn [mbind result_bind]. cbv beta iota.
  unfold rest3.
  destruct (Z.ltb_spec (Z.of_nat (length (mjoin sers
              ++ (if y then Crc.crc32c body else [])))) full) as [Hshort|_].
  { rewrite length_app in Hshort. unfold full in Hshort. lia. }
  cbn [default]. rewrite slice_app_at, sliceFrom_app_at by done.
  match goal with
  | |- mbind _ ?e = _ => assert (Hcrc : e = Done [])
  end.
  { destruct y; [|done].
    rewrite length_crc32c.
    change (Z.b2z true * 64 =? 0) with false.
    change (Z.of_nat 4 <? 4) with false. cbv iota.
    match goal with
    | |- context [slice ?l 0 (Z.of_nat (length ?l) - 4)] =>
        replace l with (body ++ Crc.crc32c body) by exact Hout
    end.
    rewrite slice_app_at by (rewrite length_app, length_crc32c; lia).
    assert (Hcrc : ∀ n, n = 4 → slice (Crc.crc32c body) 0 n = Crc.crc32c body).
    { intros ? ->. rewrite <- (app_nil_r (Crc.crc32c body)) at 1.
      by apply slice_app_at. }
    rewrite Hcrc by done. rewrite compareBytes_refl. cbn [negb].
    rewrite <- (app_nil_r (Crc.crc32c body)). by rewrite sliceFrom_app_at. }
  rewrite Hcrc. cbn [mbind result_bind length Z.of_nat Z.eqb negb].
  reflexivity.
Qed.

Section Reading.

Context (hash : Cell.t → list Z) (uint8ArrayToText : list Z → string).

(** X20: [parseBocHeader] accepts the bytes of a successful [toBoc] (less
    than [2^53] bytes, where the numbers of the source are exact) and finds in them what [toBoc] wrote: the number of cells, one
    root with index [0], no absent cell, reference size [1], the offset
    size, the total size and the bytes of the serialized cells, the index
    when [has_idx], the three flag bits at their places in the flags byte
    (128, 64, 32), the checksum checked when [hash_crc32].  The two-bit
    [flags] is not read back as written but as
    [32 * (flags / 2) + 8 * (flags % 2)]. *)
Theorem parseBocHeader_toBoc (fuel : nat) (cell : Cell.t)
    (has_idx hash_crc32 has_cache_bits : bool) (flags : Z) T H (out : list Z) :
  treeWalk hash uint8ArrayToText fuel cell [] ∅ None = Done (T, H) →
  Forall (λ e, sound (Cell.bits e.2)) T →
  0 ≤ flags →
  toBoc hash uint8ArrayToText fuel cell has_idx hash_crc32 has_cache_bits flags
  = Done out →
  Z.of_nat (length out) < 2 ^ 53 →
  ∃ sers,
    Forall2 (λ e ser, serializeForBoc hash uint8ArrayToText e.2 H = Done ser)
      T sers
    ∧ Parser.parseBocHeader out
      = Done (mkParsedHeader
                (if has_idx then Some (offsets sers) else None)
                (Z.of_nat (length T)) 1 [0] 1 0 (mjoin sers)
                (Some (Z.of_nat (length (mjoin sers))))
                (32 * (flags / 2) + 8 * (flags mod 2))
                (offset_bytes_of (Z.of_nat (length (mjoin sers))))
                (Z.b2z has_idx * 128) (Z.b2z hash_crc32 * 64)
                (Z.b2z has_cache_bits * 32)).
Proof.
  intros Htw Hsound Hflags Hout _.
  destruct (toBoc_bytes hash uint8ArrayToText fuel cell has_idx hash_crc32
              has_cache_bits flags T H out Htw Hsound Hflags Hout)
    as (sers & Hsers & Hfl & Hn & Hob & Hfull & Hbody).
  exists sers. split; [exact Hsers|].
  cbv zeta in Hob, Hfull, Hbody. rewrite Hbody.
  pose proof (Forall2_length _ _ _ Hsers) as Hlen.
  rewrite (parseBocHeader_bytes has_idx hash_crc32 has_cache_bits flags
             (Z.to_nat (offset_bytes_of (Z.of_nat (length (mjoin sers)))))
             (length T) sers); [|lia|done|done|done|lia].
  by rewrite Z2Nat.id by (pose proof (offset_bytes_of_pos
                                        (Z.of_nat (length (mjoin sers)))); lia).
Qed.

End Reading.

Lemma parseBocHeader_toBoc_witness :
  ∃ T H out,
    treeWalk exampleHash exampleText 2 (exampleChain 1) [] ∅ None = Done (T, H)
    ∧ toBoc exampleHash exampleText 2 (exampleChain 1) true true false 0
      = Done out
    ∧ ∃ sers,
        Forall2 (λ e ser, serializeForBoc exampleHash exampleText e.2 H = Done ser)
          T sers
        ∧ Parser.parseBocHeader out
          = Done (mkParsedHeader (Some (offsets sers))
                    (Z.of_nat (length T)) 1 [0] 1 0 (mjoin sers)
                    (Some (Z.of_nat (length (mjoin sers))))
                    (32 * (0 / 2) + 8 * (0 mod 2))
                    (offset_bytes_of (Z.of_nat (length (mjoin sers))))
                    (Z.b2z true * 128) (Z.b2z true * 64) (Z.b2z false * 32)).
Proof.
  eexists _, _, _. split; [vm_compute; reflexivity|].
  split; [vm_compute; reflexivity|].
  eapply (parseBocHeader_toBoc exampleHash exampleText 2 (exampleChain 1)
            true true false 0).
  - vm_compute. reflexivity.
  - repeat (apply Forall_cons_2; [apply soundb_sound; vm_compute; reflexivity|]).
    apply Forall_nil_2.
  - lia.
  - vm_compute. reflexivity.
  - vm_compute. reflexivity.
Defined.

(** ** Reading a serialized cell back: [deserializeCellData] *)

Lemma getMaxLevel_0 (c : Cell.t) : Cell.getMaxLevel c = 0.
Proof.
  induction c as [c IH] using cell_induction.
  rewrite getMaxLevel_unfold.
  revert IH. generalize (Cell.childCells c). intros l.
  induction l as [|s l IHl]; intros IH; [done|].
  cbn [fold_left]. rewrite (IH s) by left. cbn.
  apply IHl. intros s' Hs'. apply IH. by right.
Qed.

Lemma map_Some_inj {A} (l1 l2 : list A) : map Some l1 = map Some l2 → l1 = l2.
Proof.
  revert l2. induction l1 as [|x l1 IH]; intros [|y l2] Heq; try done.
  injection Heq as -> Heq. f_equal. by apply IH.
Qed.

(** The reference index of a cell among the first 256 takes one byte. *)
Lemma referenceBytes_byte (j : nat) :
  (j < 256)%nat → referenceBytes j = Done [Z.of_nat j].
Proof.
  intros Hj.
  assert (Hall : forallb (λ j, match referenceBytes j with
                               | Done [b] => b =? Z.of_nat j
                               | _ => false
                               end) (seq 0 256) = true) by (by vm_compute).
  rewrite forallb_forall in Hall. specialize (Hall j).
  destruct (referenceBytes j) as [[|b [|? ?]]| |];
    try (by discriminate Hall; apply in_seq; lia).
  do 2 f_equal. apply Z.eqb_eq, Hall, in_seq. lia.
Qed.

Lemma readRefs_bytes (js : list nat) : ∀ (refs : list HeapRef) (rest : list Z),
  Boc.readRefs (length js) 1 refs (map Z.of_nat js ++ rest)
  = (refs ++ map (λ j, Transient (Z.of_nat j)) js, rest).
Proof.
  induction js as [|j js IH]; intros refs rest.
  - cbn. by rewrite app_nil_r.
  - cbn [length Boc.readRefs map app].
    change (Z.of_nat j :: map Z.of_nat js ++ rest)
      with ([Z.of_nat j] ++ (map Z.of_nat js ++ rest)).
    rewrite sliceFrom_app_at by done. rewrite IH.
    cbn. by rewrite <- app_assoc.
Qed.

(** [setTopUppedArray] undoes [getTopUppedArray]. *)
Lemma setTopUppedArray_topUpped (B this : BitString.t) (arr : list Z) :
  arraySized B →
  0 ≤ BitString.cursor B ≤ BitString.length B →
  paddingFits B →
  BitString.getTopUppedArray B = Done arr →
  Z.of_nat (length arr) = ceilDiv (BitString.cursor B) 8
  ∧ ∃ b', BitString.setTopUppedArray this arr (BitString.cursor B mod 8 =? 0)
          = Done b'
          ∧ sameBits B b'.
Proof.
  intros Hsz Hk Hfit Hrun.
  destruct (getTopUppedArray_spec B Hsz Hk Hfit)
    as (arr' & Hget & Hlen & Hlow & Hend).
  rewrite Hrun in Hget. injection Hget as <-. split; [exact Hlen|].
  set (k := BitString.cursor B) in *.
  pose proof (Z.div_mod k 8 ltac:(lia)) as Hdm.
  pose proof (Z.mod_pos_bound k 8 ltac:(lia)) as Hmod.
  assert (0 ≤ k / 8) by (apply Z.div_pos; lia).
  rewrite (ceilDiv_spec k 8) in * by lia.
  unfold BitString.setTopUppedArray, sameBits. fold k.
  destruct (Z.eqb_spec (k mod 8) 0) as [Hz|Hnz]; cbn [orb].
  - eexists. split; [done|]. simpl. split; [lia|].
    intros p Hp. rewrite !get_bitAt by lia. simpl. apply Hlow. lia.
  - destruct (Hend Hnz) as [Hone Hzero].
    destruct (Z.eqb_spec (Z.of_nat (length arr) * 8) 0) as [?|_]; [lia|].
    set (tuB := BitString.mk arr (Z.of_nat (length arr) * 8)
                  (Z.of_nat (length arr) * 8)).
    rewrite (findEndBit_spec (Z.to_nat (7 - k mod 8)) 7 tuB); subst tuB; simpl.
    + rewrite Z2Nat.id by lia.
      replace (Z.of_nat (length arr) * 8 - (7 - k mod 8) - 1) with k by lia.
      unfold BitString.off, BitString.checkRange. simpl.
      destruct (Z.ltb_spec (Z.of_nat (length arr) * 8) k); [lia|]. simpl.
      eexists. split; [done|]. split; [done|].
      intros p Hp. rewrite !get_bitAt by lia. simpl.
      rewrite (bitAt_write arr k p false) by lia.
      rewrite decide_False by lia. apply Hlow. lia.
    + lia.
    + lia.
    + intros i Hi. apply Hzero. lia.
    + rewrite Z2Nat.id by lia.
      replace (Z.of_nat (length arr) * 8 - (7 - k mod 8) - 1) with k by lia.
      done.
Qed.

Section CellData.

Context (hash : Cell.t → list Z) (uint8ArrayToText : list Z → string).

(** [deserializeCellData] reads back the cell [serializeForBoc] wrote, and
    leaves the bytes that follow it. *)
Lemma deserializeCellData_serialized (c : Cell.t) (H : gmap string nat)
    (ser rest : list Z) (js : list nat) :
  plainCell c →
  serializeForBoc hash uint8ArrayToText c H = Done ser →
  refIndexInts hash uint8ArrayToText c H = map Some js →
  Forall (λ j, (j < 256)%nat) js →
  ∃ bits',
    Boc.deserializeCellData (ser ++ rest) 1
    = Done (mkHeapCell bits' (map (λ j, Transient (Z.of_nat j)) js)
              (Cell.isExotic c), rest)
    ∧ sameBits (Cell.bits c) bits'.
Proof.
  intros (Hsz & Hrange & Hcur & H1023 & Hfit & Hrefs & Hcells) Hser Hjs Hsmall.
  destruct (serializeForBoc_references hash uint8ArrayToText c H ser Hser)
    as (dwd & js' & refs & Hdwd & Hjs' & Hbytes & ->).
  rewrite Hjs in Hjs'. apply map_Some_inj in Hjs'. subst js'.
  assert (Hmj : mjoin refs = map Z.of_nat js).
  { clear Hjs Hser. induction Hbytes as [|j r js refs Hj Hbytes IH]; [done|].
    apply Forall_cons_1 in Hsmall as [Hj256 Hsmall].
    rewrite referenceBytes_byte in Hj by done. injection Hj as <-.
    cbn. f_equal. by apply IH. }
  rewrite Hmj. clear Hbytes Hser Hmj refs.
  unfold Cell.getDataWithDescriptors in Hdwd.
  apply bind_Done in Hdwd as (tu & Htu & Hdwd). injection Hdwd as <-.
  destruct (setTopUppedArray_topUpped (Cell.bits c) (BitString.new 1023) tu
              Hsz Hcur Hfit Htu) as (Hlen & bits' & Hset & Hsame).
  exists bits'. split; [|exact Hsame].
  unfold Cell.getRefsDescriptor, Cell.getBitsDescriptor, Utils.concatBytes.
  rewrite getMaxLevel_0. cbn [app].
  set (k := BitString.cursor (Cell.bits c)) in *.
  set (n := Z.of_nat (length (Cell.refs c))).
  assert (Hn : 0 ≤ n < 8) by (unfold n; lia).
  assert (Hnjs : length js = Z.to_nat n).
  { apply (f_equal length) in Hjs. unfold refIndexInts in Hjs.
    rewrite !length_map in Hjs. unfold n. rewrite Hcells, length_map. lia. }
  pose proof (Z.div_mod k 8 ltac:(lia)) as Hdm.
  pose proof (Z.mod_pos_bound k 8 ltac:(lia)) as Hmod.
  assert (0 ≤ k / 8 ≤ 127) by (Z.div_mod_to_equations; lia).
  set (d1 := toUint8 (n + (if Cell.isExotic c then 1 else 0) * 8 + 0 * 32)).
  set (d2 := toUint8 (ceilDiv k 8 + floorDiv k 8)).
  assert (Hd1 : d1 = n + (if Cell.isExotic c then 8 else 0)).
  { unfold d1, toUint8. destruct (Cell.isExotic c); rewrite Z.mod_small; lia. }
  assert (Hd2 : d2 = ceilDiv k 8 + k / 8).
  { unfold d2, toUint8, floorDiv. rewrite (ceilDiv_spec k 8) by lia.
    destruct (Z.eqb_spec (k mod 8) 0); rewrite Z.mod_small; lia. }
  assert (Hsize : Boc.dataBytesize d2 = ceilDiv k 8).
  { unfold Boc.dataBytesize. rewrite Hd2, (ceilDiv_spec k 8) by lia.
    destruct (Z.eqb_spec (k mod 8) 0).
    - replace (k / 8 + k / 8) with (k / 8 * 2) by lia.
      rewrite ceilDiv_spec by lia. by rewrite Z.mod_mul, Z.div_mul by lia.
    - replace (k / 8 + 1 + k / 8) with (1 + k / 8 * 2) by lia.
      rewrite ceilDiv_spec by lia. rewrite Z.mod_add, Z.div_add by lia.
      change (1 mod 2 =? 0) with false. cbv iota. change (1 / 2) with 0. lia. }
  assert (Hfull : Boc.fullfilledBytes d2 = (k mod 8 =? 0)).
  { unfold Boc.fullfilledBytes. rewrite Hd2, (ceilDiv_spec k 8) by lia.
    destruct (Z.eqb_spec (k mod 8) 0).
    - replace (k / 8 + k / 8) with (k / 8 * 2) by lia.
      rewrite Z.rem_mod_nonneg by lia. by rewrite Z.mod_mul by lia.
    - replace (k / 8 + 1 + k / 8) with (1 + k / 8 * 2) by lia.
      rewrite Z.rem_mod_nonneg by lia. by rewrite Z.mod_add by lia. }
  assert (Hrefnum : Z.rem d1 8 = n).
  { rewrite Hd1. rewrite Z.rem_mod_nonneg by (destruct (Cell.isExotic c); lia).
    destruct (Cell.isExotic c); Z.div_mod_to_equations; lia. }
  assert (Hexotic : negb (Z.land d1 8 =? 0) = Cell.isExotic c).
  { rewrite Hd1.
    assert (n = 0 ∨ n = 1 ∨ n = 2 ∨ n = 3 ∨ n = 4 ∨ n = 5 ∨ n = 6 ∨ n = 7)
      as [->|[->|[->|[->|[->|[->|[->| ->]]]]]]] by lia;
      by destruct (Cell.isExotic c). }
  set (body := tu ++ map Z.of_nat js ++ rest).
  assert (Hlist : d1 :: d2 :: (tu ++ map Z.of_nat js) ++ rest
                  = [d1; d2] ++ body) by (by rewrite <- app_assoc).
  rewrite Hlist. unfold Boc.deserializeCellData.
  destruct (Z.ltb_spec (Z.of_nat (length ([d1; d2] ++ body))) 2)
    as [Hshort|_]; [rewrite length_app in Hshort; cbn [length] in Hshort; lia|].
  change (readByte ([d1; d2] ++ body) 0) with d1.
  change (readByte ([d1; d2] ++ body) 1) with d2.
  cbv zeta. rewrite (sliceFrom_app_at [d1; d2]) by done.
  rewrite Hsize, Hfull, Hrefnum, Hexotic. unfold body.
  destruct (Z.ltb_spec (Z.of_nat (length (tu ++ map Z.of_nat js ++ rest)))
              (ceilDiv k 8 + 1 * n)) as [Hshort|_].
  { rewrite !length_app, length_map in Hshort. lia. }
  rewrite slice_app_at, sliceFrom_app_at by lia.
  fold k in Hset. rewrite Hset. cbn [mbind result_bind].
  rewrite <- Hnjs. rewrite readRefs_bytes. reflexivity.
Qed.

End CellData.

(** ** Resolving the references: the second loop of [deserializeBoc] *)

Lemma resolveRef_forward (st : list HeapCell) (m ri j : nat) (hc : HeapCell) :
  st !! m = Some hc →
  hrefs hc !! ri = Some (Transient (Z.of_nat j)) →
  (m ≤ j < length st)%nat →
  Boc.resolveRef m st ri
  = Done (<[m := mkHeapCell (hbits hc) (<[ri := Pointer j]> (hrefs hc))
                   (hisExotic hc)]> st).
Proof.
  intros Hm Hri Hj. unfold Boc.resolveRef. rewrite Hm, Hri.
  destruct (Z.ltb_spec (Z.of_nat j) (Z.of_nat m)) as [?|_]; [lia|].
  unfold Boc.cellAt.
  destruct (Z.leb_spec 0 (Z.of_nat j)) as [_|?]; [|lia].
  destruct (Z.ltb_spec (Z.of_nat j) (Z.of_nat (length st))) as [_|?]; [|lia].
  cbn [andb]. by rewrite Nat2Z.id.
Qed.

Lemma resolveRefs_forward (st : list HeapCell) (m : nat) (bits : BitString.t)
    (exotic : bool) (todo : list nat) : ∀ (seen : list nat),
  (m < length st)%nat →
  Forall (λ j, (m ≤ j < length st)%nat) todo →
  forEachM (Boc.resolveRef m) (seq (length seen) (length todo))
    (<[m := mkHeapCell bits
              (map Pointer seen ++ map (λ j, Transient (Z.of_nat j)) todo)
              exotic]> st)
  = Done (<[m := mkHeapCell bits (map Pointer (seen ++ todo)) exotic]> st).
Proof.
  induction todo as [|j todo IH]; intros seen Hm Hall.
  - cbn. by rewrite !app_nil_r.
  - apply Forall_cons_1 in Hall as [Hj Hall].
    cbn [length seq forEachM].
    rewrite (resolveRef_forward _ m (length seen) j
               (mkHeapCell bits
                  (map Pointer seen
                     ++ map (λ j, Transient (Z.of_nat j)) (j :: todo)) exotic)).
    + cbn [mbind result_bind hbits hrefs hisExotic].
      rewrite list_insert_insert_eq.
      replace (<[length seen := Pointer j]>
                 (map Pointer seen
                    ++ map (λ j0, Transient (Z.of_nat j0)) (j :: todo)))
        with (map Pointer (seen ++ [j])
                ++ map (λ j0, Transient (Z.of_nat j0)) todo).
      * specialize (IH (seen ++ [j]) Hm Hall).
        rewrite length_app in IH. cbn [length] in IH.
        rewrite Nat.add_1_r in IH. rewrite IH. by rewrite <- app_assoc.
      * rewrite <- (length_map Pointer seen) at 1.
        rewrite insert_app_r_alt by lia. rewrite Nat.sub_diag. cbn.
        rewrite map_app. by rewrite <- app_assoc.
    + by rewrite list_lookup_insert_eq.
    + cbn [hrefs]. rewrite lookup_app_r by (by rewrite length_map).
      by rewrite length_map, Nat.sub_diag.
    + by rewrite length_insert.
Qed.

Lemma resolveCell_forward (st : list HeapCell) (m : nat) (hc : HeapCell)
    (js : list nat) :
  st !! m = Some hc →
  hrefs hc = map (λ j, Transient (Z.of_nat j)) js →
  Forall (λ j, (m ≤ j < length st)%nat) js →
  Boc.resolveCell st m
  = Done (<[m := mkHeapCell (hbits hc) (map Pointer js) (hisExotic hc)]> st).
Proof.
  intros Hm Hrefs Hall. unfold Boc.resolveCell. rewrite Hm.
  pose proof (lookup_lt_Some _ _ _ Hm) as Hlt.
  pose proof (resolveRefs_forward st m (hbits hc) (hisExotic hc) js [] Hlt Hall)
    as Hrun.
  cbn [length map app] in Hrun. rewrite <- Hrefs in Hrun.
  replace (mkHeapCell (hbits hc) (hrefs hc) (hisExotic hc)) with hc in Hrun
    by (by destruct hc).
  rewrite list_insert_id in Hrun by done.
  rewrite Hrefs, length_map. exact Hrun.
Qed.

Lemma resolveCells_forward (cells : list HeapCell) (jss : list (list nat)) :
  Forall2 (λ hc js, hrefs hc = map (λ j, Transient (Z.of_nat j)) js) cells jss →
  (∀ i js, jss !! i = Some js →
           Forall (λ j, (i ≤ j < length cells)%nat) js) →
  forEachM Boc.resolveCell (rev (seq 0 (length cells))) cells
  = Done (resolved cells jss).
Proof.
  intros Hrefs Hfwd.
  pose proof (Forall2_length _ _ _ Hrefs) as Hlen.
  assert (Hstep : ∀ m, (m ≤ length cells)%nat →
            forEachM Boc.resolveCell (rev (seq 0 m))
              (take m cells ++ drop m (resolved cells jss))
            = Done (resolved cells jss)).
  { induction m as [|m IH]; intros Hm.
    - cbn. by rewrite drop_0.
    - rewrite seq_S, rev_app_distr. cbn [rev app forEachM Nat.add].
      destruct (lookup_lt_is_Some_2 cells m ltac:(lia)) as [hc Hhc].
      destruct (lookup_lt_is_Some_2 jss m ltac:(lia)) as [js Hjs].
      pose proof (Forall2_lookup_lr _ _ _ _ _ _ Hrefs Hhc Hjs) as Hhrefs.
      rewrite (resolveCell_forward _ m hc js).
      + cbn [mbind result_bind].
        replace (<[m := mkHeapCell (hbits hc) (map Pointer js) (hisExotic hc)]>
                   (take (S m) cells ++ drop (S m) (resolved cells jss)))
          with (take m cells ++ drop m (resolved cells jss));
          [apply IH; lia|].
        rewrite (take_S_r cells m hc) by done.
        rewrite <- app_assoc. cbn [app].
        rewrite insert_app_r_alt by (rewrite length_take; lia).
        rewrite length_take, Nat.min_l, Nat.sub_diag by lia. cbn.
        f_equal.
        rewrite (drop_S (resolved cells jss)
                   (mkHeapCell (hbits hc) (map Pointer js) (hisExotic hc)) m);
          [done|].
        unfold resolved. rewrite lookup_zip_with, Hhc. cbn. by rewrite Hjs.
      + rewrite lookup_app_l by (rewrite length_take; lia).
        rewrite lookup_take_lt by lia. done.
      + done.
      + rewrite length_app, length_take, length_drop.
        unfold resolved. rewrite length_zip_with.
        eapply Forall_impl; [apply (Hfwd m js Hjs)|].
        intros j Hj. cbv beta in *. lia. }
  specialize (Hstep (length cells) ltac:(lia)).
  rewrite firstn_all in Hstep.
  rewrite drop_ge in Hstep by (unfold resolved; rewrite length_zip_with; lia).
  by rewrite app_nil_r in Hstep.
Qed.

(** ** From [toBoc] to [fromBoc] and back *)

Lemma represents_fold (heap : list HeapCell) (c : Cell.t) (i : nat)
    (hc : HeapCell) :
  heap !! i = Some hc →
  sameBits (Cell.bits c) (hbits hc) →
  hisExotic hc = Cell.isExotic c →
  Cell.refs c = map RefCell (Cell.childCells c) →
  Forall2 (represents heap) (Cell.childCells c) (hrefs hc) →
  represents heap c (Pointer i).
Proof.
  destruct c as [bits refs exotic]. cbn [Cell.bits Cell.isExotic Cell.refs].
  intros Hi Hbits Hex Hrefs Hall. cbn [represents].
  exists i, hc. repeat (split; [done|]).
  rewrite Hrefs. revert Hall. generalize (hrefs hc).
  generalize (Cell.childCells (Cell.mk bits refs exotic)).
  intros l. induction l as [|s l IH]; intros hs Hall.
  - by apply Forall2_nil_inv_l in Hall as ->.
  - apply Forall2_cons_inv_l in Hall as (h & hs' & Hh & Hall & ->).
    cbn [map]. split; [exact Hh|]. by apply IH.
Qed.

Lemma subcells_parent (root d : Cell.t) :
  d ∈ subcells root →
  d = root ∨ ∃ p, p ∈ subcells root ∧ d ∈ Cell.childCells p.
Proof.
  induction root as [root IH] using cell_induction. intros Hd.
  apply elem_of_subcells in Hd as [->|(s & Hs & Hd)]; [by left|].
  right. destruct (IH s Hs Hd) as [->|(p & Hp & Hdp)].
  - exists root. split; [apply subcells_self|done].
  - exists p. split; [|done].
    apply (subcells_trans root s p); [by apply subcells_child|done].
Qed.

Lemma Forall2_indices {A B} (P : A → B → Prop) (f : A → option nat)
    (g : nat → B) (l : list A) : ∀ (js : list nat),
  map f l = map Some js →
  (∀ s j, s ∈ l → f s = Some j → P s (g j)) →
  Forall2 P l (map g js).
Proof.
  induction l as [|s l IH]; intros [|j js] Heq HP;
    try discriminate Heq; [constructor|].
  injection Heq as Hs Heq. cbn [map]. constructor.
  - apply HP; [by left|done].
  - apply IH; [done|]. intros s' j' Hs' Hj'. apply HP; [by right|done].
Qed.

Section ReadCells.

Context (hash : Cell.t → list Z) (uint8ArrayToText : list Z → string).

(** The first loop of [deserializeBoc] on the serialized cells. *)
Lemma readCells_serialized (H : gmap string nat) (cs : list Cell.t) :
  ∀ (sers : list (list Z)) (jss : list (list nat)) (acc : list HeapCell),
  Forall plainCell cs →
  Forall2 (λ c ser, serializeForBoc hash uint8ArrayToText c H = Done ser)
    cs sers →
  Forall2 (λ c js, refIndexInts hash uint8ArrayToText c H = map Some js
                   ∧ Forall (λ j, (j < 256)%nat) js) cs jss →
  ∃ hcs,
    Boc.readCells (length cs) 1 (mjoin sers) acc = Done (acc ++ hcs)
    ∧ Forall2 (λ c hc, sameBits (Cell.bits c) (hbits hc)
                       ∧ hisExotic hc = Cell.isExotic c) cs hcs
    ∧ Forall2 (λ hc js, hrefs hc = map (λ j, Transient (Z.of_nat j)) js)
        hcs jss.
Proof.
  induction cs as [|c cs IH]; intros sers jss acc Hplain Hsers Hjss.
  - apply Forall2_nil_inv_l in Hsers as ->.
    apply Forall2_nil_inv_l in Hjss as ->.
    exists []. cbn. rewrite app_nil_r. by repeat split; constructor.
  - apply Forall2_cons_inv_l in Hsers as (ser & sers' & Hser & Hsers & ->).
    apply Forall2_cons_inv_l in Hjss as (js & jss' & [Hjs Hsmall] & Hjss & ->).
    apply Forall_cons_1 in Hplain as [Hc Hplain].
    destruct (deserializeCellData_serialized hash uint8ArrayToText c H ser
                (mjoin sers') js Hc Hser Hjs Hsmall) as (bits' & Hrun & Hbits).
    change (mjoin (ser :: sers')) with (ser ++ mjoin sers').
    cbn [length Boc.readCells]. rewrite Hrun. cbn [mbind result_bind].
    destruct (IH sers' jss'
                (acc ++ [mkHeapCell bits'
                           (map (λ j, Transient (Z.of_nat j)) js)
                           (Cell.isExotic c)]) Hplain Hsers Hjss)
      as (hcs & Hcells & Hsame & Hrefs).
    eexists (_ :: hcs). rewrite Hcells, <- app_assoc. split; [done|].
    split; by constructor.
Qed.

End ReadCells.

Section RoundTrip.

Context (hash : Cell.t → list Z) (uint8ArrayToText : list Z → string).

(** What a settled order is like: the root is indexed first, every entry
    is a cell of the graph with its hash, indexed at its position, and the
    children of a listed cell are indexed after it, inside the list. *)
Lemma treeWalk_order (root : Cell.t)
    (T : list (list Z * Cell.t)) (H : gmap string nat) :
  indexed hash uint8ArrayToText root T H →
  settled hash uint8ArrayToText T root →
  H !! cellKey hash uint8ArrayToText root = Some 0%nat
  ∧ ∀ i e, T !! i = Some e →
      e.1 = hash e.2 ∧ e.2 ∈ subcells root
      ∧ H !! cellKey hash uint8ArrayToText e.2 = Some i
      ∧ ∀ s j, s ∈ Cell.childCells e.2 →
               H !! cellKey hash uint8ArrayToText s = Some j →
               (i < j < length T)%nat.
Proof.
  intros Hind Hset.
  assert (Hentry : ∀ i e, T !! i = Some e →
            e.1 = hash e.2 ∧ e.2 ∈ subcells root
            ∧ H !! cellKey hash uint8ArrayToText e.2 = Some i).
  { intros i e He.
    destruct (indexed_entries _ _ _ _ _ Hind e) as [Hhash Hsub].
    { by apply list_elem_of_lookup_2 in He. }
    split; [done|]. split; [done|].
    apply (indexed_lookup _ _ _ _ _ Hind). unfold cellKey. rewrite <- Hhash.
    unfold keysOf. by rewrite list_lookup_fmap, He. }
  assert (Hfwd : ∀ d s i j, d ∈ subcells root → s ∈ Cell.childCells d →
            H !! cellKey hash uint8ArrayToText d = Some i →
            H !! cellKey hash uint8ArrayToText s = Some j →
            (i < j < length T)%nat).
  { intros d s i j Hd Hs Hi Hj.
    destruct (Hset d Hd) as [_ Hbef].
    destruct (Hbef (cellKey hash uint8ArrayToText s)) as (i' & j' & Hi' & Hj' & Hlt).
    { apply list_elem_of_fmap. eauto. }
    apply (indexed_lookup _ _ _ _ _ Hind) in Hi', Hj'.
    rewrite Hi in Hi'. rewrite Hj in Hj'. injection Hi' as <-. injection Hj' as <-.
    split; [done|].
    apply (indexed_lookup _ _ _ _ _ Hind) in Hj.
    apply lookup_lt_Some in Hj. unfold keysOf in Hj. by rewrite length_map in Hj. }
  split.
  - destruct (Hset root (subcells_self root)) as [Hin _].
    apply list_elem_of_lookup in Hin as [i0 Hi0].
    assert (is_Some (T !! 0%nat)) as [e0 He0].
    { apply lookup_lt_is_Some. apply lookup_lt_Some in Hi0.
      unfold keysOf in Hi0. rewrite length_map in Hi0. lia. }
    destruct (Hentry 0%nat e0 He0) as (_ & Hsub & H0).
    destruct (subcells_parent root e0.2 Hsub) as [Heq|(p & Hp & Hchild)].
    + by rewrite <- Heq.
    + destruct (Hset p Hp) as [Hpin _].
      apply list_elem_of_lookup in Hpin as [ip Hip].
      apply (indexed_lookup _ _ _ _ _ Hind) in Hip.
      pose proof (Hfwd p e0.2 ip 0%nat Hp Hchild Hip H0). lia.
  - intros i e He. destruct (Hentry i e He) as (Hhash & Hsub & Hi).
    repeat (split; [done|]). intros s j Hs Hj. by apply (Hfwd e.2 s).
Qed.

(** X21: the round trip.  For a graph of cells that [toBoc] can write
    (see [plainCell]) and that have different keys, the bytes of a
    successful [toBoc] are accepted by [fromBoc], which returns one root:
    the cell at index [0] of a store in which every reference has been
    resolved and that stands for the graph: the bits below the cursor, the
    cursor, the kind and the children of every cell are those of the cell
    written. *)
Theorem fromBoc_toBoc (fuel : nat) (root : Cell.t)
    (has_idx hash_crc32 has_cache_bits : bool) (flags : Z) (out : list Z) :
  (∀ c1 c2, c1 ∈ subcells root → c2 ∈ subcells root →
            cellKey hash uint8ArrayToText c1 = cellKey hash uint8ArrayToText c2 →
            c1 = c2) →
  (rank root < fuel)%nat →
  Forall plainCell (subcells root) →
  0 ≤ flags →
  toBoc hash uint8ArrayToText fuel root has_idx hash_crc32 has_cache_bits flags
  = Done out →
  Z.of_nat (length out) < 2 ^ 53 →
  ∃ heap,
    Parser.fromBoc out = Done (heap, [Pointer 0])
    ∧ Parser.oneFromBoc out = Done (heap, Pointer 0)
    ∧ represents heap root (Pointer 0).
Proof.
  intros Hinj Hfuel Hplain Hflags Hout _.
  assert (Hfree : collisionFree hash uint8ArrayToText root).
  { intros c1 c2 H1 H2 Hk. by rewrite (Hinj c1 c2 H1 H2 Hk). }
  destruct (treeWalk_spec hash uint8ArrayToText root Hfree fuel root [] ∅ None)
    as (T & H & Htw & Hind & _ & _ & Hset & _ & _).
  { apply subcells_self. }
  { done. }
  { apply indexed_empty. }
  { intros d _ Hd. by apply elem_of_nil in Hd. }
  { intros ph [=]. }
  destruct (treeWalk_order root T H Hind Hset) as [Hroot Hentry].
  rewrite Forall_forall in Hplain.
  assert (Hsound : Forall (λ e, sound (Cell.bits e.2)) T).
  { apply Forall_forall. intros e He.
    apply list_elem_of_lookup in He as [i He].
    destruct (Hentry i e He) as (_ & Hsub & _).
    destruct (Hplain e.2 Hsub) as (Hsz & Hrange & Hcur & _).
    split; [lia|]. split; [|done].
    unfold arraySized in Hsz. rewrite Hsz.
    pose proof (ceilDiv_bounds (BitString.length (Cell.bits e.2)) 8 ltac:(lia)).
    lia. }
  destruct (toBoc_bytes hash uint8ArrayToText fuel root has_idx hash_crc32
              has_cache_bits flags T H out Htw Hsound Hflags Hout)
    as (sers & Hsers & Hfl & Hn & Hob & Hfull & Hbody).
  cbv zeta in Hob, Hfull, Hbody.
  pose proof (Forall2_length _ _ _ Hsers) as Hlen.
  pose proof (parseBocHeader_bytes has_idx hash_crc32 has_cache_bits flags
                (Z.to_nat (offset_bytes_of (Z.of_nat (length (mjoin sers)))))
                (length T) sers ltac:(lia) Hob Hfull (eq_sym Hlen) ltac:(lia))
    as Hparse.
  cbv zeta in Hparse. rewrite <- Hbody in Hparse.
  set (indices := λ e : list Z * Cell.t,
         map (default 0%nat) (refIndexInts hash uint8ArrayToText e.2 H)).
  assert (Hidx : ∀ i e, T !! i = Some e →
            refIndexInts hash uint8ArrayToText e.2 H = map Some (indices e)).
  { intros i e He.
    destruct (Forall2_lookup_l _ _ _ _ _ Hsers He) as (ser & _ & Hser).
    destruct (serializeForBoc_references hash uint8ArrayToText e.2 H ser Hser)
      as (_ & js & _ & _ & Hjs & _).
    unfold indices. rewrite Hjs. f_equal. clear.
    induction js as [|j js IH]; [done|]. cbn [map]. by rewrite <- IH. }
  assert (Hfwd : ∀ i e, T !! i = Some e →
            Forall (λ j, (i < j < length T)%nat) (indices e)).
  { intros i e He. apply Forall_forall. intros j Hj.
    destruct (Hentry i e He) as (_ & _ & _ & Hkids).
    assert (Some j ∈ refIndexInts hash uint8ArrayToText e.2 H) as Hin.
    { rewrite (Hidx i e He). apply list_elem_of_fmap. eauto. }
    unfold refIndexInts in Hin.
    apply list_elem_of_fmap in Hin as (s & Hs & Hsin).
    by apply (Hkids s j). }
  assert (Hcells : Forall plainCell (map snd T)).
  { apply Forall_fmap, Forall_forall. intros e He.
    apply list_elem_of_lookup in He as [i He].
    destruct (Hentry i e He) as (_ & Hsub & _). by apply Hplain. }
  destruct (readCells_serialized hash uint8ArrayToText H (map snd T) sers
              (map indices T) [] Hcells) as (hcs & Hread & Hsame & Hrefs).
  { by apply Forall2_fmap_l. }
  { apply Forall2_fmap. apply Forall_Forall2_diag, Forall_forall.
    intros e He. apply list_elem_of_lookup in He as [i He]. split.
    - by apply (Hidx i).
    - eapply Forall_impl; [apply (Hfwd i e He)|]. intros j Hj. cbv beta in *. lia. }
  rewrite length_map in Hread. cbn [app] in Hread.
  pose proof (Forall2_length _ _ _ Hsame) as Hlen1. rewrite length_map in Hlen1.
  assert (Hresolve :
    forEachM Boc.resolveCell (rev (seq 0 (length T))) hcs
    = Done (resolved hcs (map indices T))).
  { rewrite Hlen1. apply resolveCells_forward; [done|].
    intros i js Hjs. rewrite list_lookup_fmap in Hjs.
    destruct (T !! i) as [e|] eqn:He; [|done]. injection Hjs as <-.
    eapply Forall_impl; [apply (Hfwd i e He)|]. intros j Hj. cbv beta in *. lia. }
  set (heap := resolved hcs (map indices T)).
  assert (Hheap : length heap = length T).
  { unfold heap, resolved. rewrite length_zip_with, length_map. lia. }
  assert (Hpos : (0 < length T)%nat).
  { apply (indexed_lookup _ _ _ _ _ Hind) in Hroot.
    apply lookup_lt_Some in Hroot. unfold keysOf in Hroot.
    rewrite length_map in Hroot. lia. }
  assert (Hfrom : Parser.fromBoc out = Done (heap, [Pointer 0])).
  { unfold Parser.fromBoc. rewrite Hparse. cbn [mbind result_bind].
    unfold Boc.deserializeBoc, Parser.header.
    cbn [cells_num size_bytes cells_data root_list p_cells_num p_size_bytes
         p_cells_data p_root_list].
    rewrite Nat2Z.id, Hread. cbn [mbind result_bind].
    rewrite Hresolve. cbn [mbind result_bind map]. fold heap.
    unfold Boc.cellAt. rewrite Hheap.
    destruct (Z.ltb_spec 0 (Z.of_nat (length T))); [done|lia]. }
  exists heap. split; [exact Hfrom|]. split.
  { unfold Parser.oneFromBoc. by rewrite Hfrom. }
  assert (Hrep : ∀ c, c ∈ subcells root →
            ∀ i, H !! cellKey hash uint8ArrayToText c = Some i →
                 represents heap c (Pointer i)).
  { intros c. induction c as [c IH] using cell_induction. intros Hc i Hi.
    pose proof (proj1 (indexed_lookup _ _ _ _ _ Hind _ _) Hi) as Hk.
    apply (keys_lookup_inv uint8ArrayToText) in Hk as (e & He & Htext).
    destruct (Hentry i e He) as (Hhash & Hsub & _ & _).
    assert (e.2 = c) as Hec.
    { apply Hinj; [done..|]. unfold cellKey. by rewrite <- Hhash. }
    assert (map snd T !! i = Some c) as Hci
      by (by rewrite list_lookup_fmap, He; cbn; rewrite Hec).
    destruct (Forall2_lookup_l _ _ _ _ _ Hsame Hci) as (hc & Hhc & Hbits & Hex).
    apply (represents_fold heap c i
             (mkHeapCell (hbits hc) (map Pointer (indices e)) (hisExotic hc))).
    - unfold heap, resolved. rewrite lookup_zip_with, Hhc. cbn.
      by rewrite list_lookup_fmap, He.
    - exact Hbits.
    - exact Hex.
    - by destruct (Hplain c Hc) as (_ & _ & _ & _ & _ & _ & Hrefsc).
    - cbn [hrefs].
      apply (Forall2_indices (represents heap)
               (λ s, H !! cellKey hash uint8ArrayToText s) Pointer).
      + rewrite <- (Hidx i e He). by rewrite Hec.
      + intros s j Hs Hj. apply IH; [done| |done].
        apply (subcells_trans root c s); [done|by apply subcells_child]. }
  apply Hrep; [apply subcells_self|exact Hroot].
Qed.

End RoundTrip.

(** X22: for a graph without hash collisions walked with enough fuel, the
    order starts with the root, which is the cell [toBoc] declares as the
    root (index [0]): the root is indexed at [0] and the first entry has
    its key. *)
Theorem treeWalk_root_first (hash : Cell.t → list Z)
    (uint8ArrayToText : list Z → string) (fuel : nat) (root : Cell.t) :
  collisionFree hash uint8ArrayToText root →
  (rank root < fuel)%nat →
  ∃ T H e,
    treeWalk hash uint8ArrayToText fuel root [] ∅ None = Done (T, H)
    ∧ H !! cellKey hash uint8ArrayToText root = Some 0%nat
    ∧ T !! 0%nat = Some e
    ∧ e.1 = hash e.2
    ∧ cellKey hash uint8ArrayToText e.2 = cellKey hash uint8ArrayToText root.
Proof.
  intros Hfree Hfuel.
  destruct (treeWalk_spec hash uint8ArrayToText root Hfree fuel root [] ∅ None)
    as (T & H & Htw & Hind & _ & _ & Hset & _ & _).
  { apply subcells_self. }
  { done. }
  { apply indexed_empty. }
  { intros d _ Hd. by apply elem_of_nil in Hd. }
  { intros ph [=]. }
  destruct (treeWalk_order hash uint8ArrayToText root T H Hind Hset)
    as [Hroot Hentry].
  pose proof (proj1 (indexed_lookup _ _ _ _ _ Hind _ _) Hroot) as Hk.
  apply (keys_lookup_inv uint8ArrayToText) in Hk as (e & He & Htext).
  destruct (Hentry 0%nat e He) as (Hhash & _).
  exists T, H, e. repeat (split; [done|]).
  unfold cellKey at 1. by rewrite <- Hhash.
Qed.

Lemma treeWalk_root_first_witness :
  ∃ T H e,
    treeWalk exampleHash exampleText 4 exampleGraph [] ∅ None = Done (T, H)
    ∧ H !! cellKey exampleHash exampleText exampleGraph = Some 0%nat
    ∧ T !! 0%nat = Some e
    ∧ e.1 = exampleHash e.2
    ∧ cellKey exampleHash exampleText e.2
      = cellKey exampleHash exampleText exampleGraph.
Proof.
  apply (treeWalk_root_first exampleHash exampleText 4 exampleGraph).
  - exact exampleGraph_collisionFree.
  - vm_compute. lia.
Defined.

Lemma exampleGraph_keys (c1 c2 : Cell.t) :
  c1 ∈ subcells exampleGraph → c2 ∈ subcells exampleGraph →
  cellKey exampleHash exampleText c1 = cellKey exampleHash exampleText c2 →
  c1 = c2.
Proof.
  intros H1 H2 Hkey.
  unfold exampleGraph in H1, H2. cbn in H1, H2.
  repeat (apply elem_of_cons in H1 as [->|H1]);
    try (by apply elem_of_nil in H1);
    repeat (apply elem_of_cons in H2 as [->|H2]);
    try (by apply elem_of_nil in H2);
    first [reflexivity | vm_compute in Hkey; discriminate].
Qed.

Lemma plainCellb_plain (c : Cell.t) : plainCellb c = true → plainCell c.
Proof.
  unfold plainCellb, plainCell, arraySized, paddingFits. cbv zeta. intros H.
  repeat (apply andb_prop in H as [H ?]).
  repeat match goal with
         | H : (_ <=? _) = true |- _ => apply Z.leb_le in H
         | H : (_ <? _)%nat = true |- _ => apply Nat.ltb_lt in H
         | H : (_ =? _)%nat = true |- _ => apply Nat.eqb_eq in H
         end.
  split; [done|]. split.
  { apply Forall_forall. intros x Hx.
    match goal with Hr : forallb _ (BitString.array _) = true |- _ =>
      rewrite forallb_forall in Hr; apply list_elem_of_In in Hx;
      specialize (Hr x Hx); apply andb_prop in Hr as [Ha%Z.leb_le Hb%Z.ltb_lt]
    end. lia. }
  split; [lia|]. split; [done|]. split.
  { match goal with Hp : (_ || _) = true |- _ =>
      apply orb_prop in Hp as [Hp%Z.eqb_eq|Hp%Z.leb_le]; [by left|by right]
    end. }
  split; [done|].
  match goal with Hr : forallb _ (Cell.refs c) = true |- _ => revert Hr end.
  unfold Cell.childCells. generalize (Cell.refs c). intros l.
  induction l as [|[s|n] l IH]; intros Hl; [done| |done].
  cbn in Hl |- *. f_equal. by apply IH.
Qed.

Lemma fromBoc_toBoc_witness :
  ∃ out heap,
    toBoc exampleHash exampleText 4 exampleGraph true false false 0 = Done out
    ∧ Parser.fromBoc out = Done (heap, [Pointer 0])
    ∧ Parser.oneFromBoc out = Done (heap, Pointer 0)
    ∧ represents heap exampleGraph (Pointer 0).
Proof.
  pose proof toBoc_example as Hrun.
  match type of Hrun with
  | _ = Done ?out =>
      destruct (fromBoc_toBoc exampleHash exampleText 4 exampleGraph
                  true false false 0 out exampleGraph_keys
                  ltac:(vm_compute; lia))
        as (heap & Hfrom & Hone & Hrep)
  end.
  - apply Forall_forall. intros c Hc. apply plainCellb_plain.
    assert (Hall : forallb plainCellb (subcells exampleGraph) = true)
      by (vm_compute; reflexivity).
    rewrite forallb_forall in Hall. apply Hall. by apply list_elem_of_In.
  - lia.
  - exact Hrun.
  - vm_compute. reflexivity.
  - eexists _, heap. split; [exact Hrun|].
    exact (conj Hfrom (conj Hone Hrep)).
Defined.

(** ** The size clamp at work: four cells, and a chain of 256 cells *)

Lemma exampleChain_subcells (n : nat) (c : Cell.t) :
  c ∈ subcells (exampleChain n) → ∃ k, (k ≤ n)%nat ∧ c = exampleChain k.
Proof.
  induction n as [|n IH]; intros Hc.
  - cbn in Hc. apply list_elem_of_singleton in Hc as ->. by exists 0%nat.
  - change (subcells (exampleChain (S n)))
      with (exampleChain (S n) :: (subcells (exampleChain n) ++ [])) in Hc.
    rewrite app_nil_r in Hc. apply elem_of_cons in Hc as [->|Hc].
    + by exists (S n).
    + destruct (IH Hc) as (k & Hk & ->). exists k. split; [lia|done].
Qed.

Lemma exampleChain_key (k : nat) :
  cellKey exampleHash exampleText (exampleChain k)
  = Utils.bytesToHex [Z.of_nat k].
Proof. by destruct k. Qed.

Lemma exampleChain_collisionFree (n : nat) :
  (n ≤ 255)%nat → collisionFree exampleHash exampleText (exampleChain n).
Proof.
  intros Hn c1 c2 H1 H2 Hkey.
  destruct (exampleChain_subcells n c1 H1) as (k1 & Hk1 & ->).
  destruct (exampleChain_subcells n c2 H2) as (k2 & Hk2 & ->).
  rewrite !exampleChain_key in Hkey.
  assert (Hbytes : Hex.hexToBytes (list_ascii_of_string (Utils.bytesToHex [Z.of_nat k1]))
                   = Hex.hexToBytes (list_ascii_of_string (Utils.bytesToHex [Z.of_nat k2])))
    by (by rewrite Hkey).
  rewrite !hexToBytes_bytesToHex in Hbytes
    by (apply Forall_cons_2; [lia|apply Forall_nil_2]).
  injection Hbytes as Heq. apply Nat2Z.inj in Heq. by subst.
Qed.

Lemma toBoc_size_clamp_witness :
  (∃ T H out offset_bytes,
     treeWalk exampleHash exampleText 4 exampleGraph [] ∅ None = Done (T, H)
     ∧ toBoc exampleHash exampleText 4 exampleGraph true true false 0 = Done out
     ∧ length T
       = size (list_to_set (C := gset string)
                 (keysUnder exampleHash exampleText exampleGraph))
     ∧ Z.of_nat (length T) ≤ 255
     ∧ 1 ≤ offset_bytes
     ∧ out !! 5%nat = Some offset_bytes
     ∧ out !! 6%nat = Some (Z.of_nat (length T))
     ∧ out !! 7%nat = Some 1
     ∧ out !! 8%nat = Some 0
     ∧ out !! Z.to_nat (9 + offset_bytes) = Some 0)
  ∧ (∃ T H msg,
       treeWalk exampleHash exampleText 256 (exampleChain 255) [] ∅ None
       = Done (T, H)
       ∧ length T
         = size (list_to_set (C := gset string)
                   (keysUnder exampleHash exampleText (exampleChain 255)))
       ∧ length T = 256%nat
       ∧ toBoc exampleHash exampleText 256 (exampleChain 255) true true false 0
         = Throw msg).
Proof.
  split.
  - destruct (toBoc_size_clamp exampleHash exampleText 4 exampleGraph
                true true false 0 exampleGraph_collisionFree
                ltac:(vm_compute; lia))
      as (T & H & Htw & Hlen & _ & Hout & _).
    assert (Hrun : ∃ out, toBoc exampleHash exampleText 4 exampleGraph
                            true true false 0 = Done out)
      by (eexists; vm_compute; reflexivity).
    destruct Hrun as [out Hrun].
    destruct (Hout out Hrun) as (Hle & ob & Hob & H5 & H6 & H7 & H8 & H9).
    exists T, H, out, ob. by repeat (split; [done|]).
  - destruct (toBoc_size_clamp exampleHash exampleText 256 (exampleChain 255)
                true true false 0 (exampleChain_collisionFree 255 ltac:(lia))
                ltac:(vm_compute; lia))
      as (T & H & Htw & Hlen & _ & _ & Hthrow).
    pose proof (proj1 toBoc_chain_256_throws) as Hn. rewrite Htw in Hn.
    destruct Hthrow as [msg Hmsg]; [lia|].
    exists T, H, msg. by repeat (split; [done|]).
Defined.
